(** * Pure-Content: the content-resolution pipeline of [server.js]

    A shallow embedding of the pure parts of [server.js] (URL and entity
    normalisation, the display-resource selection loops, the extraction
    strategies) and of its effectful parts (the browser fallback and the
    muxer) with explicit state and outcome oracles.

    JavaScript strings are sequences of UTF-16 code units; they are modelled
    as lists of code units, each an [N]. *)

From Stdlib Require Import List NArith ZArith Bool Arith Lia String Ascii.
Import ListNotations.

Set Warnings "-register-all".


(** ** JavaScript strings *)

Module Js.

Definition jsstring := list N.

(** An ASCII literal of the source as a sequence of code units. *)
Definition lit (s : string) : jsstring :=
  map N_of_ascii (list_ascii_of_string s).

Definition str_eqb (a b : jsstring) : bool :=
  if list_eq_dec N.eq_dec a b then true else false.

(** [!s] for a string: only the empty string is falsy. *)
Definition truthy (s : jsstring) : bool :=
  match s with [] => false | _ :: _ => true end.

(** [s.startsWith(p)] *)
Fixpoint startsWith (p s : jsstring) : bool :=
  match p, s with
  | [], _ => true
  | _ :: _, [] => false
  | a :: p', b :: s' => N.eqb a b && startsWith p' s'
  end.

(** [s.split(sep)] for a one-character separator: never empty, the empty
    string splits into one empty piece. *)
Fixpoint split (sep : N) (s : jsstring) : list jsstring :=
  match s with
  | [] => [[]]
  | c :: t =>
      if N.eqb c sep then [] :: split sep t
      else match split sep t with
           | p :: ps => (c :: p) :: ps
           | [] => [[c]]
           end
  end.

(** [pieces.join(sep)] for a one-character separator. *)
Fixpoint join (sep : N) (ps : list jsstring) : jsstring :=
  match ps with
  | [] => []
  | [p] => p
  | p :: rest => p ++ sep :: join sep rest
  end.

(** [s.includes(p)] *)
Fixpoint includes (p s : jsstring) : bool :=
  startsWith p s ||
  match s with
  | [] => false
  | _ :: t => includes p t
  end.

End Js.

Import Js.

(** Code units of the separators the URL helpers look at. *)
Definition QMARK : N := 63.   (* ? *)
Definition AMP : N := 38.     (* & *)

(** ** [cleanUrl]: removing the byte range parameters *)

Definition isByteRange (param : jsstring) : bool :=
  startsWith (lit "bytestart") param || startsWith (lit "byteend") param.

(** [url] is [None] for a [null]/[undefined] argument.  The destructuring
    [const [baseUrl, queryString] = url.split('?')] keeps the first two
    pieces and drops the others. *)
Definition cleanUrl (url : option jsstring) : option jsstring :=
  match url with
  | None => None
  | Some u =>
      if negb (truthy u) then Some u
      else
        match split QMARK u with
        | baseUrl :: queryString :: _ =>
            if negb (truthy queryString) then Some u
            else
              let cleanedParams :=
                join AMP (filter (fun param => negb (isByteRange param))
                                 (split AMP queryString)) in
              Some (baseUrl ++ QMARK :: cleanedParams)
        | _ => Some u
        end
  end.


(** ** Regular-expression replacement

    Every regular expression of the normalisation code is deterministic when
    read left to right: each greedy loop is followed by a character outside
    the loop's class, so the backtracking matcher of JavaScript and a
    one-pass scan agree.  A [matcher] gives the length of the match anchored
    at the head of the text it is given, if there is one. *)

Module Re.

Definition matcher := jsstring -> option nat.

(** [s.replace(/re/g, f)]: leftmost matches, not overlapping; [f] receives
    the offset of the match and the matched text.  [skip] counts the
    characters of the current match still to be consumed.  After an empty
    match the scan copies one character and goes on, as [lastIndex] does. *)
Fixpoint replaceFrom (m : matcher) (f : nat -> jsstring -> jsstring)
         (off skip : nat) (s : jsstring) : jsstring :=
  match s with
  | [] =>
      match skip, m [] with
      | 0, Some _ => f off []
      | _, _ => []
      end
  | c :: t =>
      match skip with
      | S k => replaceFrom m f (S off) k t
      | 0 =>
          match m s with
          | Some 0 => f off [] ++ c :: replaceFrom m f (S off) 0 t
          | Some (S n) => f off (firstn (S n) s) ++ replaceFrom m f (S off) n t
          | None => c :: replaceFrom m f (S off) 0 t
          end
      end
  end.

Definition replaceAll (m : matcher) (f : nat -> jsstring -> jsstring)
           (s : jsstring) : jsstring :=
  replaceFrom m f 0 0 s.

(** [s.replace(/re/g, r)] with a replacement text free of [$]. *)
Definition replaceAllWith (m : matcher) (r : jsstring) (s : jsstring) : jsstring :=
  replaceAll m (fun _ _ => r) s.

(** [s.replace(/re/, r)]: the first match only. *)
Fixpoint replaceFirstFrom (m : matcher) (f : nat -> jsstring -> jsstring)
         (off : nat) (s : jsstring) : jsstring :=
  match m s with
  | Some n => f off (firstn n s) ++ skipn n s
  | None =>
      match s with
      | [] => []
      | c :: t => c :: replaceFirstFrom m f (S off) t
      end
  end.

(** Character classes. *)
Definition isDigit (c : N) : bool := (48 <=? c)%N && (c <=? 57)%N.       (* \d, [0-9] *)
Definition isLower (c : N) : bool := (97 <=? c)%N && (c <=? 122)%N.      (* [a-z] *)
(** [[0-9a-f]] under the [i] flag *)
Definition isHexDigit (c : N) : bool :=
  isDigit c || ((97 <=? c)%N && (c <=? 102)%N) || ((65 <=? c)%N && (c <=? 70)%N).

(** Canonicalize of the [i] flag (without [u]): upper-casing, which never
    maps a character outside ASCII to an ASCII one. *)
Definition canon (c : N) : N := if isLower c then (c - 32)%N else c.

(** Greedy run of a class: the run and what follows it. *)
Fixpoint span (p : N -> bool) (s : jsstring) : jsstring * jsstring :=
  match s with
  | [] => ([], [])
  | c :: t => if p c then let (a, b) := span p t in (c :: a, b) else ([], s)
  end.

(** A literal prefix under the [i] flag. *)
Fixpoint prefix_ci (p s : jsstring) : bool :=
  match p, s with
  | [], _ => true
  | _ :: _, [] => false
  | a :: p', b :: s' => N.eqb (canon a) (canon b) && prefix_ci p' s'
  end.

(** Pieces of a regular expression, each consuming a prefix of the text and
    returning what is left.  [e1 ;; e2] runs them one after the other
    without backtracking (see the remark at the head of the module). *)
Definition eater := jsstring -> option jsstring.

Definition seq (e1 e2 : eater) : eater :=
  fun s => match e1 s with Some r => e2 r | None => None end.

(** one character of a class *)
Definition oneOf (p : N -> bool) : eater :=
  fun s => match s with c :: r => if p c then Some r else None | [] => None end.

(** one given character *)
Definition chr (c : N) : eater := oneOf (N.eqb c).

(** a literal text *)
Definition lits (p : jsstring) : eater :=
  fun s => if startsWith p s then Some (skipn (List.length p) s) else None.

(** a literal text under the [i] flag *)
Definition lits_ci (p : jsstring) : eater :=
  fun s => if prefix_ci p s then Some (skipn (List.length p) s) else None.

(** [[class]*], [[class]+] and [[class]?], greedy *)
Definition many0 (p : N -> bool) : eater := fun s => Some (snd (span p s)).

Definition many1 (p : N -> bool) : eater :=
  fun s => match span p s with (_ :: _, r) => Some r | ([], _) => None end.

Definition opt (p : N -> bool) : eater :=
  fun s => match s with c :: r => if p c then Some r else Some s | [] => Some [] end.

(** [$] *)
Definition atEnd : eater :=
  fun s => match s with [] => Some [] | _ :: _ => None end.

(** The matcher of an expression: the number of characters consumed. *)
Definition matchOf (e : eater) : matcher :=
  fun s => option_map (fun r => List.length s - List.length r) (e s).

Definition literal (p : jsstring) : matcher := matchOf (lits p).

Definition literal_ci (p : jsstring) : matcher := matchOf (lits_ci p).

End Re.

Import Re.

Infix ";;" := seq (at level 61, left associativity).

(** ** [decodeUrlEntities] *)

(** One turn of the [while] loop: the nine chained replacements. *)
Definition decodeUrlPass (decoded : jsstring) : jsstring :=
  let d := replaceAllWith (literal_ci (lit "&amp;")) (lit "&") decoded in
  let d := replaceAllWith (literal_ci (lit "&lt;")) (lit "<") d in
  let d := replaceAllWith (literal_ci (lit "&gt;")) (lit ">") d in
  let d := replaceAllWith (literal_ci (lit "&quot;")) [34%N] d in
  let d := replaceAllWith (literal_ci (lit "&#x27;")) (lit "'") d in
  let d := replaceAllWith (literal_ci (lit "&#x2F;")) (lit "/") d in
  let d := replaceAllWith (literal_ci (lit "&#x3D;")) (lit "=") d in
  let d := replaceAllWith (literal_ci (lit "&#39;")) (lit "'") d in
  replaceAllWith (literal_ci (lit "&#x2F;")) (lit "/") d.

(** [while (decoded !== previous) { previous = decoded; decoded = pass }].
    The loop of the source has no iteration bound; [fuel] bounds the turns
    of the model, and [decodeUrlLoop_fuel_enough] shows that the length of
    the text plus one is always enough to reach the exit test. *)
Fixpoint decodeUrlLoop (fuel : nat) (decoded : jsstring) : jsstring :=
  match fuel with
  | 0 => decoded
  | S fuel' =>
      let next := decodeUrlPass decoded in
      if str_eqb next decoded then next else decodeUrlLoop fuel' next
  end.

(** On strings; [if (!url) return url] returns the empty string as it is
    (the loop would do the same). *)
Definition decodeUrlEntities (url : jsstring) : jsstring :=
  if negb (truthy url) then url
  else decodeUrlLoop (S (List.length url)) url.

(** ** Size-constraint stripping

    The same thirteen replacements are written out in the inline-field
    strategy of the request handler, in [findMediaData], [parseJsonLd],
    [parseSharedData] and [parseMetaTags]; [stripSizeConstraints] is that
    block. *)

Definition isSep (c : N) : bool := N.eqb c QMARK || N.eqb c AMP.

Definition notSep (c : N) : bool := negb (isSep c).
Definition notAmp (c : N) : bool := negb (N.eqb c AMP).

(** [/[?&]key=[^&]*/] *)
Definition queryParam (key : jsstring) : matcher :=
  matchOf (oneOf isSep ;; lits (key ++ lit "=") ;; many0 notAmp).

(** [/\/s\d+x\d+[a-z]?_[a-z]+-jpg[^?&]*/] *)
Definition sizeSegmentHead : eater :=
  chr 47 ;; chr 115 ;; many1 isDigit ;; chr 120 ;; many1 isDigit ;;
  opt isLower ;; chr 95 ;; many1 isLower ;; lits (lit "-jpg").

Definition sizeSegment : matcher :=
  matchOf (sizeSegmentHead ;; many0 notSep).

(** [/[?&]+/] *)
Definition sepRun : matcher := matchOf (many1 isSep).

(** [/\?$/] *)
Definition trailingQmark : matcher := matchOf (chr QMARK ;; atEnd).

Definition removeAll (m : matcher) (s : jsstring) : jsstring :=
  replaceAllWith m [] s.

Definition stripSizeConstraints (mediaUrl : jsstring) : jsstring :=
  let mediaUrl := removeAll (queryParam (lit "stp")) mediaUrl in
  let mediaUrl := removeAll (queryParam (lit "_nc_cat")) mediaUrl in
  let mediaUrl := removeAll (queryParam (lit "ccb")) mediaUrl in
  let mediaUrl := removeAll (queryParam (lit "_nc_sid")) mediaUrl in
  let mediaUrl := removeAll (queryParam (lit "efg")) mediaUrl in
  let mediaUrl := removeAll (queryParam (lit "_nc_ohc")) mediaUrl in
  let mediaUrl := removeAll (queryParam (lit "_nc_oc")) mediaUrl in
  let mediaUrl := removeAll (queryParam (lit "_nc_zt")) mediaUrl in
  let mediaUrl := removeAll (queryParam (lit "_nc_ht")) mediaUrl in
  let mediaUrl := removeAll (queryParam (lit "_nc_gid")) mediaUrl in
  let mediaUrl := removeAll sizeSegment mediaUrl in
  let mediaUrl :=
    replaceAll sepRun (fun offset _ => if Nat.eqb offset 0 then [QMARK] else [AMP])
               mediaUrl in
  replaceFirstFrom trailingQmark (fun _ _ => []) 0 mediaUrl.

(** ** [decodeHtmlEntities] *)

(** [parseInt(digits, radix)] on a run of digits of that radix, as an exact
    integer. *)
Definition digitVal (c : N) : Z :=
  if isDigit c then Z.of_N c - 48
  else if isLower c then Z.of_N c - 87
  else Z.of_N c - 55.

Definition parseDigits (radix : Z) (ds : jsstring) : Z :=
  fold_left (fun acc c => acc * radix + digitVal c)%Z ds 0%Z.

(** The Number that [parseInt] returns: the integer rounded to 53
    significant bits, ties to even.  (Beyond the range of doubles the value
    is [Infinity]; [ToUint16] maps it to 0, as it maps every double of that
    size.) *)
Definition roundDouble (z : Z) : Z :=
  if (z <? 2 ^ 53)%Z then z
  else
    let e := (Z.log2 z - 52)%Z in
    let q := Z.shiftr z e in
    let r := (z - Z.shiftl q e)%Z in
    let half := Z.shiftl 1 (e - 1) in
    let q' :=
      if (r <? half)%Z then q
      else if (half <? r)%Z then (q + 1)%Z
      else if Z.even q then q else (q + 1)%Z in
    Z.shiftl q' e.

(** [String.fromCodePoint(n)], which throws a RangeError above 0x10FFFF,
    inside [try], with [String.fromCharCode(n)] in the [catch]. *)
Definition fromCodePointOrCharCode (n : Z) : jsstring :=
  if (n <=? 1114111)%Z then
    if (n <? 65536)%Z then [Z.to_N n]
    else
      let n' := (n - 65536)%Z in
      [Z.to_N (55296 + n' / 1024); Z.to_N (56320 + n' mod 1024)]
  else [Z.to_N (roundDouble n mod 65536)].

(** [/prefix([0-9a-f]+);/gi] and [/prefix(\d+);/g] *)
Definition numericEntity (ci : bool) (prefix : jsstring) (digit : N -> bool) : matcher :=
  matchOf ((if ci then lits_ci prefix else lits prefix) ;; many1 digit ;; chr 59).

(** The callback of a numeric entity: the captured digits are the match
    without the prefix and the final [;]. *)
Definition decodeNumeric (prefixLen : nat) (radix : Z) : nat -> jsstring -> jsstring :=
  fun _ matched =>
    let digits := firstn (List.length matched - prefixLen - 1) (skipn prefixLen matched) in
    fromCodePointOrCharCode (parseDigits radix digits).

Definition BACKSLASH : N := 92.
Definition DQUOTE : N := 34.

Definition decodeHtmlEntities (text : jsstring) : jsstring :=
  if negb (truthy text) then []
  else
    let decoded := text in
    let decoded := replaceAll (numericEntity true (lit "&amp;#x") isHexDigit)
                              (decodeNumeric 7 16) decoded in
    let decoded := replaceAll (numericEntity false (lit "&amp;#") isDigit)
                              (decodeNumeric 6 10) decoded in
    let decoded := replaceAllWith (literal (lit "&amp;quot;")) [DQUOTE] decoded in
    let decoded := replaceAllWith (literal (lit "&amp;apos;")) (lit "'") decoded in
    let decoded := replaceAllWith (literal (lit "&amp;lt;")) (lit "<") decoded in
    let decoded := replaceAllWith (literal (lit "&amp;gt;")) (lit ">") decoded in
    let decoded := replaceAllWith (literal (lit "&quot;")) [DQUOTE] decoded in
    let decoded := replaceAllWith (literal (lit "&amp;")) (lit "&") decoded in
    let decoded := replaceAllWith (literal (lit "&lt;")) (lit "<") decoded in
    let decoded := replaceAllWith (literal (lit "&gt;")) (lit ">") decoded in
    let decoded := replaceAllWith (literal (lit "&apos;")) (lit "'") decoded in
    let decoded := replaceAll (numericEntity false (lit "&#") isDigit)
                              (decodeNumeric 2 10) decoded in
    let decoded := replaceAll (numericEntity true (lit "&#x") isHexDigit)
                              (decodeNumeric 3 16) decoded in
    let decoded := replaceAllWith (literal [BACKSLASH; 110%N]) [10%N] decoded in
    let decoded := replaceAllWith (literal [BACKSLASH; 114%N]) [13%N] decoded in
    let decoded := replaceAllWith (literal [BACKSLASH; 116%N]) [9%N] decoded in
    let decoded := replaceAllWith (literal [BACKSLASH; DQUOTE]) [DQUOTE] decoded in
    replaceAllWith (literal [BACKSLASH; BACKSLASH]) [BACKSLASH] decoded.

(** ** Values read from parsed JSON

    [JSON.parse] gives objects, arrays, strings, numbers, booleans and
    [null].  The fields of an object are listed in the order [for...in]
    enumerates them.  The numbers the code computes with are pixel sizes and
    epoch seconds: a number is modelled by its integer value.  A property
    that is absent reads as [undefined], which is [None] in [value]. *)

Inductive json : Type :=
| JNull
| JBool (b : bool)
| JNum (z : Z)
| JStr (s : jsstring)
| JArr (items : list json)
| JObj (fields : list (jsstring * json)).

Definition value := option json.

(** Results of code that may throw; a [try]/[catch] inspects them. *)
Inductive res (A : Type) : Type :=
| Ok (a : A)
| Throw.

Arguments Ok {A} a.
Arguments Throw {A}.

Definition bind {A B : Type} (r : res A) (k : A -> res B) : res B :=
  match r with
  | Ok a => k a
  | Throw => Throw
  end.

Notation "'let*' x ':=' r 'in' k" := (bind r (fun x => k))
  (at level 10, x name, r at level 100, k at level 200).

(** [try { body } catch (e) { handler }] *)
Definition try_catch {A : Type} (body : res A) (handler : A) : A :=
  match body with
  | Ok a => a
  | Throw => handler
  end.

Module Value.

(** ToBoolean *)
Definition truthy (v : value) : bool :=
  match v with
  | None | Some JNull => false
  | Some (JBool b) => b
  | Some (JNum z) => negb (Z.eqb z 0)
  | Some (JStr s) => Js.truthy s
  | Some (JArr _) | Some (JObj _) => true
  end.

(** [a || b] *)
Definition or (a b : value) : value := if truthy a then a else b.

Fixpoint assoc (k : jsstring) (fields : list (jsstring * json)) : value :=
  match fields with
  | [] => None
  | (k', v) :: rest => if str_eqb k k' then Some v else assoc k rest
  end.

(** [v.name] for the names the code reads (none of them is [length] or a
    method): own fields of an object, [undefined] on arrays and primitives,
    a TypeError on [null] and [undefined]. *)
Definition get (v : value) (name : string) : res value :=
  match v with
  | None | Some JNull => Throw
  | Some (JObj fields) => Ok (assoc (lit name) fields)
  | Some _ => Ok None
  end.

(** [v?.name] *)
Definition getOpt (v : value) (name : string) : value :=
  match v with
  | Some (JObj fields) => assoc (lit name) fields
  | _ => None
  end.

(** [v?.[0]] *)
Definition firstOpt (v : value) : value :=
  match v with
  | Some (JArr items) => nth_error items 0
  | Some (JObj fields) => assoc (lit "0") fields
  | Some (JStr (c :: _)) => Some (JStr [c])
  | _ => None
  end.

End Value.

(** A JavaScript number of the model: an integer, an infinity or [NaN]. *)
Inductive number : Type :=
| Num (z : Z)
| PInf
| NInf
| NaN.

(** The double nearest to a non-negative integer. *)
Definition toDouble (z : Z) : number :=
  let d := roundDouble z in
  if (d <? 2 ^ 1024)%Z then Num d else PInf.

Definition neg (a : number) : number :=
  match a with
  | Num z => Num (- z)
  | PInf => NInf
  | NInf => PInf
  | NaN => NaN
  end.

(** -1, 0 or 1; [NaN] has none *)
Definition sign (a : number) : option Z :=
  match a with
  | Num z => Some (Z.sgn z)
  | PInf => Some 1%Z
  | NInf => Some (-1)%Z
  | NaN => None
  end.

(** [a * b] *)
Definition mul (a b : number) : number :=
  match a, b with
  | Num x, Num y =>
      let p := (x * y)%Z in
      if (p <? 0)%Z then neg (toDouble (- p)) else toDouble p
  | _, _ =>
      match sign a, sign b with
      | Some sa, Some sb =>
          match (sa * sb)%Z with
          | Z0 => NaN
          | Zpos _ => PInf
          | Zneg _ => NInf
          end
      | _, _ => NaN
      end
  end.

(** [a > b], false when either is [NaN] *)
Definition gt (a b : number) : bool :=
  match a, b with
  | NaN, _ | _, NaN => false
  | Num x, Num y => (y <? x)%Z
  | PInf, PInf => false
  | PInf, _ => true
  | _, NInf => match a with NInf => false | _ => true end
  | _, _ => false
  end.

(** [parseInt(digits)] on a run of decimal digits *)
Definition parseInt (digits : jsstring) : number := toDouble (parseDigits 10 digits).

Inductive MediaType : Type := image | video.

(** [timestamp]: [null], or the instant whose ISO text [toISOString] gives,
    kept as milliseconds since the epoch. *)
Inductive Timestamp : Type :=
| TsNull
| TsInstant (ms : Z).

(** [postData].  [mediaUrl] and [thumbnailUrl] are strings, or a falsy value
    that is not a string ([undefined], [null]), which is [None]; the code
    only tests such a value for truth. *)
Record MediaRecord : Type := {
  mediaUrl : option jsstring;
  thumbnailUrl : option jsstring;
  caption : jsstring;
  author : json;
  mediaType : MediaType;
  timestamp : Timestamp
}.

(** [postData?.mediaUrl] as a condition *)
Definition hasMediaUrl (postData : option MediaRecord) : bool :=
  match postData with
  | Some r => match mediaUrl r with Some u => Js.truthy u | None => false end
  | None => false
  end.

Section Coercion.

(** ToNumber of a string, an array or an object is left to the language;
    the model only names it. *)
Variable ToNumberOther : json -> number.

Definition toNumber (v : json) : number :=
  match v with
  | JNull => Num 0
  | JBool b => Num (if b then 1 else 0)
  | JNum z => Num z
  | other => ToNumberOther other
  end.

(** *** The display-resource loop of [findMediaData] and [parseSharedData]

    [for (const resource of resources)] with [maxResolution] and
    [bestResource]; reading a property of a [null] element throws. *)
Fixpoint scanResources (resources : list json) (maxResolution : number)
         (bestResource : value) : res (number * value) :=
  match resources with
  | [] => Ok (maxResolution, bestResource)
  | resource :: rest =>
      let* src := Value.get (Some resource) "src" in
      let* w := (if Value.truthy src then Value.get (Some resource) "config_width"
                 else Ok None) in
      let* h := (if Value.truthy src && Value.truthy w
                 then Value.get (Some resource) "config_height" else Ok None) in
      if Value.truthy src && Value.truthy w && Value.truthy h then
        match w, h with
        | Some wv, Some hv =>
            let resolution := mul (toNumber wv) (toNumber hv) in
            if gt resolution maxResolution
            then scanResources rest resolution (Some resource)
            else scanResources rest maxResolution bestResource
        | _, _ => scanResources rest maxResolution bestResource
        end
      else scanResources rest maxResolution bestResource
  end.

(** The resource whose [src] replaces the default field: the best one, or
    else the last one if it has a [src]. *)
Definition pickResource (resources : list json) : res value :=
  let* r := scanResources resources (Num 0) None in
  let bestResource := snd r in
  if Value.truthy bestResource then Ok bestResource
  else
    let lastResource := nth_error resources (List.length resources - 1) in
    let* lastSrc := Value.get lastResource "src" in
    if Value.truthy lastSrc then Ok lastResource else Ok None.

End Coercion.

(** ** [extractFromRequireData] *)

(** [decodeUrlEntities(v)] on any value: a falsy value comes back as it is,
    a string is decoded, anything else has no [replace] method. *)
Definition decodeUrlValue (v : value) : res (option jsstring) :=
  match v with
  | Some (JStr s) => Ok (Some (decodeUrlEntities s))
  | _ => if Value.truthy v then Throw else Ok None
  end.

(** [decodeHtmlEntities(v)] on any value *)
Definition decodeHtmlValue (v : value) : res jsstring :=
  match v with
  | Some (JStr s) => Ok (decodeHtmlEntities s)
  | _ => if Value.truthy v then Throw else Ok []
  end.

(** [new Date(n).toISOString()], a RangeError outside the range of dates *)
Definition isoDate (n : number) : res Timestamp :=
  match n with
  | Num ms =>
      if (Z.abs ms <=? 8640000000000000)%Z then Ok (TsInstant ms) else Throw
  | _ => Throw
  end.

Definition asArray (v : value) : option (list json) :=
  match v with
  | Some (JArr items) => Some items
  | _ => None
  end.

Definition isObject (v : json) : bool :=
  match v with
  | JObj _ | JArr _ => true
  | _ => false
  end.

(** What [for (const key in obj)] visits: the fields of an object, the
    elements of an array. *)
Definition children (obj : json) : list json :=
  match obj with
  | JObj fields => map snd fields
  | JArr items => items
  | _ => []
  end.

(** [obj.hasOwnProperty(key)] is not callable when the object has a field
    of that name. *)
Definition shadowsHasOwnProperty (obj : json) : bool :=
  match obj with
  | JObj fields =>
      match Value.assoc (lit "hasOwnProperty") fields with
      | Some _ => true
      | None => false
      end
  | _ => false
  end.

Section Extract.

Variable ToNumberOther : json -> number.

(** The body of [findMediaData] for a node that has a media field. *)
Definition mediaOfNode (obj : json) : res MediaRecord :=
  let o := Some obj in
  let video_url := Value.getOpt o "video_url" in
  let display_url := Value.getOpt o "display_url" in
  let display_resources := Value.getOpt o "display_resources" in
  let mediaUrl := Value.or video_url display_url in
  let thumbnailUrl :=
    Value.or display_url (Value.or (Value.getOpt o "thumbnail_src") video_url) in
  let* urls :=
    match asArray display_resources with
    | Some (r :: rs) =>
        if negb (Value.truthy video_url) then
          let* picked := pickResource ToNumberOther (r :: rs) in
          match picked with
          | Some resource =>
              let* src := Value.get (Some resource) "src" in Ok (src, src)
          | None => Ok (mediaUrl, thumbnailUrl)
          end
        else Ok (mediaUrl, thumbnailUrl)
    | _ => Ok (mediaUrl, thumbnailUrl)
    end in
  let* mediaUrl := decodeUrlValue (fst urls) in
  let* thumbnailUrl := decodeUrlValue (snd urls) in
  let mediaUrl :=
    match mediaUrl with
    | Some u =>
        if negb (Value.truthy video_url) && Js.truthy u
        then Some (stripSizeConstraints u) else Some u
    | None => None
    end in
  let caption :=
    Value.or
      (Value.getOpt
         (Value.getOpt
            (Value.firstOpt
               (Value.getOpt (Value.getOpt o "edge_media_to_caption") "edges"))
            "node")
         "text")
      (Value.or (Value.getOpt (Value.getOpt o "caption") "text")
                (Value.or (Value.getOpt o "accessibility_caption") (Some (JStr [])))) in
  let* caption := decodeHtmlValue caption in
  let author :=
    Value.or (Value.getOpt (Value.getOpt o "owner") "username")
             (Value.or (Value.getOpt (Value.getOpt o "user") "username")
                       (Some (JStr (lit "Unknown")))) in
  let taken := Value.getOpt o "taken_at_timestamp" in
  let* timestamp :=
    match taken with
    | Some t =>
        if Value.truthy taken
        then isoDate (mul (toNumber ToNumberOther t) (Num 1000))
        else Ok TsNull
    | None => Ok TsNull
    end in
  Ok {| mediaUrl := mediaUrl;
        thumbnailUrl := thumbnailUrl;
        caption := caption;
        author := match author with Some a => a | None => JStr (lit "Unknown") end;
        mediaType :=
          if Value.truthy video_url || Value.truthy (Value.getOpt o "is_video")
          then video else image;
        timestamp := timestamp |}.

Definition hasMediaField (obj : json) : bool :=
  let o := Some obj in
  Value.truthy (Value.getOpt o "video_url")
  || Value.truthy (Value.getOpt o "display_url")
  || Value.truthy (Value.getOpt o "display_resources").

(** [findMediaData(obj, depth)] with [fuel = 11 - depth]: the source gives
    up when [depth > 10]. *)
Fixpoint findMediaData (fuel : nat) (obj : json) : res (option MediaRecord) :=
  match fuel with
  | 0 => Ok None
  | S fuel' =>
      if isObject obj then
        if hasMediaField obj then
          let* r := mediaOfNode obj in Ok (Some r)
        else
          (fix each (vs : list json) : res (option MediaRecord) :=
             match vs with
             | [] => Ok None
             | v :: rest =>
                 if shadowsHasOwnProperty obj then Throw
                 else
                   let* result := findMediaData fuel' v in
                   match result with
                   | Some r => Ok (Some r)
                   | None => each rest
                   end
             end) (children obj)
      else Ok None
  end.

Definition extractFromRequireData (data : json) : option MediaRecord :=
  try_catch (findMediaData 11 data) None.

End Extract.

(** ** Candidate sets

    A display resource as the page data has it: an address and, when they
    are given, the pixel sizes. *)
Record DisplayResource : Type := {
  src : jsstring;
  config_width : option Z;
  config_height : option Z
}.

(** width x height, 0 when a dimension is missing *)
Definition area (r : DisplayResource) : Z :=
  match config_width r, config_height r with
  | Some w, Some h => (w * h)%Z
  | _, _ => 0%Z
  end.

(** The element of the parsed [display_resources] array. *)
Definition resourceJson (r : DisplayResource) : json :=
  JObj ((lit "src", JStr (src r))
        :: match config_width r with
           | Some w => [(lit "config_width", JNum w)]
           | None => []
           end
        ++ match config_height r with
           | Some h => [(lit "config_height", JNum h)]
           | None => []
           end).

(** The loop of the selector, as the specification words it: keep the
    candidate of largest area seen so far, and replace it only by a
    strictly larger one. *)
Fixpoint largestFrom {A : Type} (areaOf : A -> Z) (cs : list A)
         (maxArea : Z) (best : option A) : Z * option A :=
  match cs with
  | [] => (maxArea, best)
  | c :: rest =>
      if (maxArea <? areaOf c)%Z
      then largestFrom areaOf rest (areaOf c) (Some c)
      else largestFrom areaOf rest maxArea best
  end.

(** The area of a match of the inline scan: the product of its two runs of
    digits. *)
Definition matchArea (m : jsstring * jsstring * jsstring) : Z :=
  let '(_, w, h) := m in (parseDigits 10 w * parseDigits 10 h)%Z.

(** ** The request handler: searching the page text

    In the comments the expressions of the source are written with [\x22]
    for the double quote.

    [capture e s] is the text that the expression [e] consumes at the head
    of [s], with what follows it. *)

Definition capture (e : eater) (s : jsstring) : option (jsstring * jsstring) :=
  match e s with
  | Some r => Some (firstn (List.length s - List.length r) s, r)
  | None => None
  end.

(** [(.*?)c] under the [s] flag: the text up to the first [c]. *)
Definition untilChar (c : N) (s : jsstring) : option (jsstring * jsstring) :=
  match span (fun x => negb (N.eqb x c)) s with
  | (a, _ :: rest) => Some (a, rest)
  | (_, []) => None
  end.

(** [s.match(/re/)]: the result of [f] at the first position where it has
    one. *)
Fixpoint firstMatch {A : Type} (f : jsstring -> option A) (s : jsstring) : option A :=
  match f s with
  | Some a => Some a
  | None =>
      match s with
      | [] => None
      | _ :: t => firstMatch f t
      end
  end.

(** [s.matchAll(/re/g)] for an expression without empty matches: [f] gives
    the captures and the length of the match. *)
Fixpoint matchAllFrom {A : Type} (f : jsstring -> option (A * nat)) (skip : nat)
         (s : jsstring) : list A :=
  match s with
  | [] => []
  | _ :: t =>
      match skip with
      | S k => matchAllFrom f k t
      | 0 =>
          match f s with
          | Some (a, n) => a :: matchAllFrom f (Nat.pred n) t
          | None => matchAllFrom f 0 t
          end
      end
  end.

Definition matchAll {A : Type} (f : jsstring -> option (A * nat)) (s : jsstring) : list A :=
  matchAllFrom f 0 s.

Definition notQuote (c : N) : bool := negb (N.eqb c DQUOTE).

(** [\s] *)
Definition isSpace (c : N) : bool :=
  ((9 <=? c) && (c <=? 13))%N || N.eqb c 32 || N.eqb c 160 || N.eqb c 5760
  || ((8192 <=? c) && (c <=? 8202))%N || N.eqb c 8232 || N.eqb c 8233
  || N.eqb c 8239 || N.eqb c 8287 || N.eqb c 12288 || N.eqb c 65279.

(** The text [\x22name\x22], with its quotes. *)
Definition quoted (name : string) : jsstring := DQUOTE :: lit name ++ [DQUOTE].

(** [/prefix([^\x22]+)\x22/] at the head of the text: the capture and the length
    of the match. *)
Definition stringAfter (prefix : jsstring) (s : jsstring) : option (jsstring * nat) :=
  match lits prefix s with
  | Some r1 =>
      match capture (many1 notQuote) r1 with
      | Some (text, r2) =>
          match chr DQUOTE r2 with
          | Some r3 => Some (text, List.length s - List.length r3)
          | None => None
          end
      | None => None
      end
  | None => None
  end.

(** [html.match(/\x22name\x22:\x22([^\x22]+)\x22/)?.[1]] *)
Definition stringField (name : string) (html : jsstring) : option jsstring :=
  firstMatch (fun s => option_map fst (stringAfter (quoted name ++ lit ":" ++ [DQUOTE]) s))
             html.

(** [/\x22video_versions\x22:\[\{\x22url\x22:\x22([^\x22]+)\x22/] *)
Definition videoVersionsUrl (html : jsstring) : option jsstring :=
  firstMatch
    (fun s => option_map fst
       (stringAfter (quoted "video_versions" ++ lit ":[{" ++ quoted "url" ++ lit ":"
                     ++ [DQUOTE]) s))
    html.

(** [/\x22edge_media_to_caption\x22:\{\x22edges\x22:\[\{\x22node\x22:\{\x22text\x22:\x22([^\x22]+)\x22/] *)
Definition captionText (html : jsstring) : option jsstring :=
  firstMatch
    (fun s => option_map fst
       (stringAfter (quoted "edge_media_to_caption" ++ lit ":{" ++ quoted "edges"
                     ++ lit ":[{" ++ quoted "node" ++ lit ":{" ++ quoted "text"
                     ++ lit ":" ++ [DQUOTE]) s))
    html.

(** [/\x22owner\x22:\{\x22id\x22:\x22[^\x22]+\x22,\x22username\x22:\x22([^\x22]+)\x22/] *)
Definition ownerUsername (html : jsstring) : option jsstring :=
  firstMatch
    (fun s =>
       match (lits (quoted "owner" ++ lit ":{" ++ quoted "id" ++ lit ":" ++ [DQUOTE])
              ;; many1 notQuote) s with
       | Some r =>
           option_map fst
             (stringAfter ([DQUOTE] ++ lit "," ++ quoted "username" ++ lit ":" ++ [DQUOTE]) r)
       | None => None
       end)
    html.

(** [/\x22taken_at_timestamp\x22:(\d+)/] *)
Definition takenAtTimestamp (html : jsstring) : option jsstring :=
  firstMatch
    (fun s =>
       match lits (quoted "taken_at_timestamp" ++ lit ":") s with
       | Some r => option_map fst (capture (many1 isDigit) r)
       | None => None
       end)
    html.

(** The three patterns for the text of the [display_resources] array. *)
Definition displayResourcesPatterns : list (jsstring -> option jsstring) :=
  [ (* /\x22display_resources\x22:\[(.*?)\]/s *)
    firstMatch (fun s =>
      match lits (quoted "display_resources" ++ lit ":[") s with
      | Some r => option_map fst (untilChar 93 r)
      | None => None
      end);
    (* /\x22display_resources\x22:\s*\[(.*?)\]/s *)
    firstMatch (fun s =>
      match (lits (quoted "display_resources" ++ lit ":") ;; many0 isSpace ;; chr 91) s with
      | Some r => option_map fst (untilChar 93 r)
      | None => None
      end);
    (* /display_resources.*?\[(.*?)\]/s *)
    firstMatch (fun s =>
      match lits (lit "display_resources") s with
      | Some r =>
          match untilChar 91 r with
          | Some (_, r') => option_map fst (untilChar 93 r')
          | None => None
          end
      | None => None
      end) ].

(** [/\{\x22src\x22:\x22([^\x22]+)\x22,\x22config_width\x22:(\d+),\x22config_height\x22:(\d+)\}/]: the
    three captures and the length of the match. *)
Definition resourceEntry (s : jsstring) : option ((jsstring * jsstring * jsstring) * nat) :=
  match stringAfter (lit "{" ++ quoted "src" ++ lit ":" ++ [DQUOTE]) s with
  | Some (src, n) =>
      match lits (lit "," ++ quoted "config_width" ++ lit ":") (skipn n s) with
      | Some r1 =>
          match capture (many1 isDigit) r1 with
          | Some (w, r2) =>
              match lits (lit "," ++ quoted "config_height" ++ lit ":") r2 with
              | Some r3 =>
                  match capture (many1 isDigit) r3 with
                  | Some (h, r4) =>
                      match chr 125 r4 with
                      | Some r5 => Some ((src, w, h), List.length s - List.length r5)
                      | None => None
                      end
                  | None => None
                  end
              | None => None
              end
          | None => None
          end
      | None => None
      end
  | None => None
  end.

(** The loop over [resourceMatches]: [maxResolution] and [bestUrl]. *)
Fixpoint scanMatches (matches : list (jsstring * jsstring * jsstring))
         (maxResolution : number) (bestUrl : option jsstring)
  : number * option jsstring :=
  match matches with
  | [] => (maxResolution, bestUrl)
  | (src, w, h) :: rest =>
      let width := parseInt w in
      let height := parseInt h in
      let resolution := mul width height in
      if gt resolution maxResolution
      then scanMatches rest resolution (Some src)
      else scanMatches rest maxResolution bestUrl
  end.

(** [.replace(/\\u0026/g, '&').replace(/\\\//g, '/')] and the third
    replacement of the media URLs, [.replace(/\\u003d/g, '=')] *)
Definition unescapeAmpSlash (s : jsstring) : jsstring :=
  let s := replaceAllWith (literal (BACKSLASH :: lit "u0026")) (lit "&") s in
  replaceAllWith (literal [BACKSLASH; 47%N]) (lit "/") s.

Definition unescapeUrl (s : jsstring) : jsstring :=
  replaceAllWith (literal (BACKSLASH :: lit "u003d")) (lit "=") (unescapeAmpSlash s).

(** The [for (const pattern of displayResourcesPatterns)] loop. *)
Fixpoint highQualityFrom (patterns : list (jsstring -> option jsstring))
         (html : jsstring) : option jsstring :=
  match patterns with
  | [] => None
  | pattern :: rest =>
      match pattern html with
      | Some inner =>
          match matchAll resourceEntry inner with
          | (_ :: _) as resourceMatches =>
              match snd (scanMatches resourceMatches (Num 0) None) with
              | Some bestUrl => Some (decodeUrlEntities (unescapeUrl bestUrl))
              | None => highQualityFrom rest html
              end
          | [] =>
              match rev (matchAll (stringAfter (quoted "src" ++ lit ":" ++ [DQUOTE])) inner) with
              | lastUrl :: _ => Some (decodeUrlEntities (unescapeUrl lastUrl))
              | [] => highQualityFrom rest html
              end
          end
      | None => highQualityFrom rest html
      end
  end.

Definition highQualityImageUrl (html : jsstring) : option jsstring :=
  match highQualityFrom displayResourcesPatterns html with
  | Some u => Some u
  | None =>
      match stringField "best_image_url" html with
      | Some u => Some (decodeUrlEntities (unescapeUrl u))
      | None => None
      end
  end.

(** [a || b] on optional captures, which are never empty *)
Definition orElse {A : Type} (a b : option A) : option A :=
  match a with Some _ => a | None => b end.

(** Method 1 of the handler: the inline-field scan.  The only exception it
    can raise is the RangeError of [toISOString], which the handler turns
    into a 500 response. *)
Definition inlineFieldScan (html : jsstring) : res (option MediaRecord) :=
  let videoUrlMatch :=
    orElse (stringField "video_url" html)
           (orElse (stringField "playback_url" html) (videoVersionsUrl html)) in
  let displayUrlMatch := stringField "display_url" html in
  let thumbnailMatch := stringField "thumbnail_src" html in
  let highQualityImageUrl := highQualityImageUrl html in
  match orElse videoUrlMatch displayUrlMatch with
  | None => Ok None
  | Some found =>
      let captionMatch := captionText html in
      let usernameMatch := ownerUsername html in
      let timestampMatch := takenAtTimestamp html in
      let mediaUrl := decodeUrlEntities (unescapeUrl found) in
      let mediaUrl :=
        match videoUrlMatch, highQualityImageUrl with
        | None, Some hq => if Js.truthy hq then decodeUrlEntities hq else mediaUrl
        | _, _ => mediaUrl
        end in
      let mediaUrl :=
        match videoUrlMatch with
        | None => if Js.truthy mediaUrl then stripSizeConstraints mediaUrl else mediaUrl
        | Some _ => mediaUrl
        end in
      let thumbnailUrl :=
        decodeUrlEntities
          (unescapeAmpSlash
             (match orElse displayUrlMatch thumbnailMatch with
              | Some t => t
              | None => mediaUrl
              end)) in
      if Js.truthy mediaUrl then
        let* timestamp :=
          match timestampMatch with
          | Some digits => isoDate (mul (parseInt digits) (Num 1000))
          | None => Ok TsNull
          end in
        Ok (Some {| mediaUrl := Some mediaUrl;
                    thumbnailUrl := Some thumbnailUrl;
                    caption := decodeHtmlEntities
                                 (match captionMatch with Some c => c | None => [] end);
                    author := JStr (match usernameMatch with
                                    | Some u => u
                                    | None => lit "Unknown"
                                    end);
                    mediaType := match videoUrlMatch with Some _ => video | None => image end;
                    timestamp := timestamp |})
      else Ok None
  end.

(** ** The request handler: strategies in order *)

(** [(.*?)] followed by a literal: the text before the first occurrence of
    the literal, and the length up to the end of that occurrence. *)
Fixpoint untilLit (p : jsstring) (s : jsstring) : option (jsstring * nat) :=
  if startsWith p s then Some ([], List.length p)
  else
    match s with
    | [] => None
    | c :: t =>
        match untilLit p t with
        | Some (a, n) => Some (c :: a, S n)
        | None => None
        end
    end.

(** [/<script[^>]*>(.*?)<\/script>/gs]: the content and the length of the
    match. *)
Definition scriptTag (s : jsstring) : option (jsstring * nat) :=
  match (lits (lit "<script") ;; many0 (fun c => negb (N.eqb c 62)) ;; chr 62) s with
  | Some r =>
      match untilLit (lit "</script>") r with
      | Some (content, n) => Some (content, List.length s - List.length r + n)
      | None => None
      end
  | None => None
  end.

Definition notBrace (c : N) : bool := negb (N.eqb c 123 || N.eqb c 125).

(** The repeated group of the candidate expression, an object one level
    down and the text after it, greedy; the text shrinks at every turn, and
    [fuel] is its length. *)
Fixpoint innerObjects (fuel : nat) (s : jsstring) : jsstring :=
  match fuel with
  | 0 => s
  | S fuel' =>
      match (chr 123 ;; many0 notBrace ;; chr 125 ;; many0 notBrace) s with
      | Some r => innerObjects fuel' r
      | None => s
      end
  end.

(** The candidate expression: an opening brace, text without braces, any
    number of groups (a brace pair around text without braces, then text
    without braces) and a closing brace.  The text of the match, with its
    length. *)
Definition jsonCandidate (s : jsstring) : option (jsstring * nat) :=
  match (chr 123 ;; many0 notBrace) s with
  | Some r1 =>
      match chr 125 (innerObjects (List.length r1) r1) with
      | Some r2 =>
          let n := List.length s - List.length r2 in
          Some (firstn n s, n)
      | None => None
      end
  | None => None
  end.

(** The response of the handler once the page has been fetched. *)
Inductive Response : Type :=
| Json200 (body : MediaRecord)
| NotFound404
| ServerError500.

(** A call of the browser fallback, as the handler sees it. *)
Inductive HandlerEvent : Type :=
| CallPuppeteer (url : jsstring).

Section Handler.

Variable ToNumberOther : json -> number.

(** [JSON.parse]; [None] is a SyntaxError. *)
Variable JSON_parse : jsstring -> option json.

(** The strategies after the script scan, which the properties below never
    reach into: each takes the current [postData] and gives the next one. *)
Variable jsonLdStrategy : jsstring -> option MediaRecord -> option MediaRecord.
Variable sharedDataStrategy : jsstring -> jsstring -> option MediaRecord
                              -> option MediaRecord.
Variable parseMetaTags : jsstring -> option MediaRecord.

(** What [await extractWithPuppeteer(url)] gives: a result or an exception. *)
Variable puppeteer : jsstring -> res (option MediaRecord).

(** [new Date()] at the time of the response, in milliseconds. *)
Variable now : Z.

(** The loop over [jsonMatches] of one script: a candidate that does not
    parse is skipped; the loop stops at the first record with a media URL. *)
Fixpoint scanCandidates (jsonMatches : list jsstring) (postData : option MediaRecord)
  : option MediaRecord :=
  match jsonMatches with
  | [] => postData
  | jsonMatch :: rest =>
      match JSON_parse jsonMatch with
      | Some data =>
          let postData := extractFromRequireData ToNumberOther data in
          if hasMediaUrl postData then postData else scanCandidates rest postData
      | None => scanCandidates rest postData
      end
  end.

(** The loop over the script tags. *)
Fixpoint scanScripts (scripts : list jsstring) (postData : option MediaRecord)
  : option MediaRecord :=
  match scripts with
  | [] => postData
  | scriptContent :: rest =>
      if includes (lit "video_url") scriptContent
         || includes (lit "display_url") scriptContent
      then
        let postData := scanCandidates (matchAll jsonCandidate scriptContent) postData in
        if hasMediaUrl postData then postData else scanScripts rest postData
      else scanScripts rest postData
  end.

(** Method 2: the embedded-script JSON search. *)
Definition scriptJsonScan (html : jsstring) (postData : option MediaRecord)
  : option MediaRecord :=
  scanScripts (matchAll scriptTag html) postData.

(** Strategies 1 to 5 of the handler, each run only while no media URL has
    been found. *)
Definition runStrategies (url html : jsstring) : res (option MediaRecord) :=
  let* postData := inlineFieldScan html in
  let postData :=
    if hasMediaUrl postData then postData else scriptJsonScan html postData in
  let postData :=
    if hasMediaUrl postData then postData else jsonLdStrategy html postData in
  let postData :=
    if hasMediaUrl postData then postData else sharedDataStrategy html url postData in
  let postData :=
    if hasMediaUrl postData then postData else parseMetaTags html in
  Ok postData.

Definition isVideoUrl (url : jsstring) : bool :=
  includes (lit "/reel/") url || includes (lit "/tv/") url.

Definition isImage (postData : option MediaRecord) : bool :=
  match postData with
  | Some r => match mediaType r with image => true | video => false end
  | None => false
  end.

Definition isVideo (r : MediaRecord) : bool :=
  match mediaType r with video => true | image => false end.

(** The browser fallback for a reel or TV address that only gave an image:
    the next [postData] and the calls made. *)
Definition videoFallback (url : jsstring) (postData : option MediaRecord)
  : option MediaRecord * list HandlerEvent :=
  if isVideoUrl url && isImage postData then
    match puppeteer url with
    | Ok (Some puppeteerData) =>
        if hasMediaUrl (Some puppeteerData) && isVideo puppeteerData
        then (Some puppeteerData, [CallPuppeteer url])
        else (postData, [CallPuppeteer url])
    | Ok None | Throw => (postData, [CallPuppeteer url])
    end
  else (postData, []).

(** The end of the handler: 404 without a media URL, otherwise the URLs are
    decoded once more and the time of the response replaces [timestamp]. *)
Definition respond (postData : option MediaRecord) : Response :=
  match postData with
  | Some r =>
      if hasMediaUrl postData then
        Json200 {| mediaUrl := option_map decodeUrlEntities (mediaUrl r);
                   thumbnailUrl := option_map decodeUrlEntities (thumbnailUrl r);
                   caption := caption r;
                   author := author r;
                   mediaType := mediaType r;
                   timestamp := TsInstant now |}
      else NotFound404
  | None => NotFound404
  end.

(** The handler from the fetched page on. *)
Definition fetchContent (url html : jsstring) : Response * list HandlerEvent :=
  match runStrategies url html with
  | Throw => (ServerError500, [])
  | Ok postData =>
      let (postData, events) := videoFallback url postData in
      (respond postData, events)
  end.

End Handler.

(** ** The muxer and the browser fallback

    The file system is the set of paths that exist in the temp directory;
    downloads, ffmpeg and the browser are outside the program: an oracle
    gives the outcome of each of their calls, and the calls are recorded. *)

Definition fsState := list jsstring.

Definition existsSync (path : jsstring) (fs : fsState) : bool :=
  existsb (str_eqb path) fs.

(** a file comes to exist (it may have existed) *)
Definition createFile (path : jsstring) (fs : fsState) : fsState :=
  if existsSync path fs then fs else path :: fs.

Definition unlinkSync (path : jsstring) (fs : fsState) : fsState :=
  filter (fun p => negb (str_eqb path p)) fs.

Inductive MuxEvent : Type :=
| Download (url path : jsstring)
| RunFfmpeg (videoPath audioPath outputPath : jsstring)
| Unlink (path : jsstring).

Record MuxOracle : Type := {
  (** does the download of this URL complete? *)
  downloadOk : jsstring -> bool;
  (** does ffmpeg end without error? *)
  ffmpegOk : bool;
  (** when it fails, has it already created the output file? *)
  ffmpegLeavesOutput : bool
}.

(** [if (fs.existsSync(p)) fs.unlinkSync(p)] *)
Definition unlinkIfExists (path : jsstring) (st : fsState * list MuxEvent)
  : fsState * list MuxEvent :=
  let (fs, events) := st in
  if existsSync path fs then (unlinkSync path fs, events ++ [Unlink path])
  else (fs, events).

Section Muxer.

(** [crypto.createHash('md5').update(s).digest('hex')] *)
Variable md5hex : jsstring -> jsstring.

Variable TEMP_DIR : jsstring.
Variable BASE_URL : jsstring.

(** [path.join(TEMP_DIR, name)] for a file name *)
Definition tempPath (name : jsstring) : jsstring := TEMP_DIR ++ lit "/" ++ name.

Definition videoPathOf (instagramUrl : jsstring) : jsstring :=
  tempPath (md5hex instagramUrl ++ lit "_video.mp4").
Definition audioPathOf (instagramUrl : jsstring) : jsstring :=
  tempPath (md5hex instagramUrl ++ lit "_audio.mp4").
Definition outputPathOf (instagramUrl : jsstring) : jsstring :=
  tempPath (md5hex instagramUrl ++ lit "_merged.mp4").

(** [mergeVideoAudio]: the promise resolves with the output path or
    rejects.  [downloadFile] opens its write stream, which creates the
    file, before it sends the request. *)
Definition mergeVideoAudio (o : MuxOracle) (videoUrl audioUrl instagramUrl : jsstring)
           (fs : fsState) : res jsstring * fsState * list MuxEvent :=
  let videoPath := videoPathOf instagramUrl in
  let audioPath := audioPathOf instagramUrl in
  let outputPath := outputPathOf instagramUrl in
  if existsSync outputPath fs then (Ok outputPath, fs, [])
  else
    let fs := createFile videoPath fs in
    let events := [Download videoUrl videoPath] in
    if negb (downloadOk o videoUrl) then (Throw, fs, events)
    else
      let fs := createFile audioPath fs in
      let events := events ++ [Download audioUrl audioPath] in
      if negb (downloadOk o audioUrl) then (Throw, fs, events)
      else
        let events := events ++ [RunFfmpeg videoPath audioPath outputPath] in
        if ffmpegOk o then
          (* on 'end': both inputs are unlinked, inside try *)
          let fs := createFile outputPath fs in
          let (fs, events) := unlinkIfExists audioPath (unlinkIfExists videoPath (fs, events)) in
          (Ok outputPath, fs, events)
        else
          (* on 'error': cleanup of whatever exists, then reject *)
          let fs := if ffmpegLeavesOutput o then createFile outputPath fs else fs in
          let (fs, events) :=
            unlinkIfExists outputPath
              (unlinkIfExists audioPath (unlinkIfExists videoPath (fs, events))) in
          (Throw, fs, events).

(** *** [extractWithPuppeteer] *)

Inductive Step : Type :=
| Launch | NewPage | SetViewport | SetUserAgent | SetRequestInterception
| Goto | Evaluate.

Record BrowserEnv : Type := {
  (** does this awaited call resolve? *)
  resolves : Step -> bool;
  (** does the n-th call of [browser.close()] resolve? *)
  closeResolves : nat -> bool;
  (** the responses seen while the page loads: URL and content type *)
  responses : list (jsstring * jsstring);
  (** what [page.evaluate] returns: caption and author *)
  metadataCaption : jsstring;
  metadataAuthor : jsstring;
  muxOracle : MuxOracle
}.

(** The browser session: whether its process runs, and how often
    [browser.close()] has been called. *)
Record Session : Type := {
  launched : bool;
  isOpen : bool;
  closeCalls : nat
}.

Definition noSession : Session :=
  {| launched := false; isOpen := false; closeCalls := 0 |}.

(** [await browser.close()]: the session after the call, and whether the
    call resolved. *)
Definition closeBrowser (env : BrowserEnv) (s : Session) : Session * bool :=
  let ok := closeResolves env (closeCalls s) in
  ({| launched := launched s;
      isOpen := if ok then false else isOpen s;
      closeCalls := S (closeCalls s) |}, ok).

(** The [response] listener, over the responses in their order. *)
Fixpoint classify (rs : list (jsstring * jsstring))
         (videoUrls audioUrls : list jsstring) (thumbnailUrl : option jsstring)
  : list jsstring * list jsstring * option jsstring :=
  match rs with
  | [] => (videoUrls, audioUrls, thumbnailUrl)
  | (responseUrl, contentType) :: rest =>
      let isMp4 := includes (lit ".mp4") responseUrl in
      let isAudio :=
        includes (lit "/t16/") responseUrl || includes (lit "/m69/") responseUrl
        || includes (lit "audio") responseUrl || includes (lit "heaac") responseUrl in
      let captured := (includes (lit "video") contentType || isMp4) && isMp4 in
      let videoUrls :=
        if captured && negb isAudio then videoUrls ++ [responseUrl] else videoUrls in
      let audioUrls :=
        if captured && isAudio then audioUrls ++ [responseUrl] else audioUrls in
      let thumbnailUrl :=
        match thumbnailUrl with
        | Some t => Some t
        | None =>
            if (includes (lit "image") contentType || includes (lit ".jpg") responseUrl)
               && (includes (lit "cdninstagram.com") responseUrl
                   || includes (lit "fbcdn.net") responseUrl)
            then Some responseUrl else None
        end in
      classify rest videoUrls audioUrls thumbnailUrl
  end.

Definition qualityOrder : list jsstring :=
  [lit "q90"; lit "q80"; lit "q70"; lit "q60"; lit "q50"; lit "q40"].

(** The first URL that contains the best quality token present, else the
    first URL. *)
Fixpoint bestByQuality (order : list jsstring) (videoUrls : list jsstring)
  : option jsstring :=
  match order with
  | [] => None
  | quality :: rest =>
      match find (includes quality) videoUrls with
      | Some found => Some found
      | None => bestByQuality rest videoUrls
      end
  end.

Definition bestVideoUrl (videoUrls : list jsstring) : option jsstring :=
  match bestByQuality qualityOrder videoUrls with
  | Some u => Some u
  | None => nth_error videoUrls 0
  end.

Definition cleanUrlStr (u : jsstring) : jsstring :=
  match cleanUrl (Some u) with Some c => c | None => u end.

(** [decodeHtmlEntities] of the caption, after [\n] written out has become a
    line feed and an escaped double quote a double quote *)
Definition puppeteerCaption (c : jsstring) : jsstring :=
  decodeHtmlEntities
    (replaceAllWith (literal [BACKSLASH; DQUOTE]) [DQUOTE]
       (replaceAllWith (literal [BACKSLASH; 110%N]) [10%N] c)).

Definition videoRecord (env : BrowserEnv) (mediaUrl : jsstring)
           (thumbnailUrl : option jsstring) : MediaRecord :=
  {| mediaUrl := Some mediaUrl;
     thumbnailUrl := Some (match thumbnailUrl with Some t => t | None => [] end);
     caption := puppeteerCaption (metadataCaption env);
     author := JStr (metadataAuthor env);
     mediaType := video;
     timestamp := TsNull |}.

(** What follows [await browser.close()] in the [try] block. *)
Definition afterClose (env : BrowserEnv) (url : jsstring) (fs : fsState)
  : option MediaRecord * fsState * list MuxEvent :=
  let '(videoUrls, audioUrls, thumbnailUrl) := classify (responses env) [] [] None in
  match bestVideoUrl videoUrls with
  | None => (None, fs, [])
  | Some best =>
      let cleanVideoUrl := cleanUrlStr best in
      match audioUrls with
      | audio0 :: _ =>
          let cleanAudioUrl := cleanUrlStr audio0 in
          match mergeVideoAudio (muxOracle env) cleanVideoUrl cleanAudioUrl url fs with
          | (Ok mergedVideoPath, fs', events) =>
              let serverUrl :=
                BASE_URL ++ lit "/temp/" ++ md5hex url ++ lit "_merged.mp4" in
              (Some (videoRecord env serverUrl thumbnailUrl), fs', events)
          | (Throw, fs', events) =>
              (Some (videoRecord env cleanVideoUrl thumbnailUrl), fs', events)
          end
      | [] => (Some (videoRecord env cleanVideoUrl thumbnailUrl), fs, [])
      end
  end.

(** The awaited calls between the launch and the first [browser.close()],
    in order: [false] if one of them rejects. *)
Definition pageSteps : list Step :=
  [NewPage; SetViewport; SetUserAgent; SetRequestInterception; Goto; Evaluate].

(** [extractWithPuppeteer(url)]: the result or the exception, the session
    at the exit, the files and the muxer's calls. *)
Definition extractWithPuppeteer (env : BrowserEnv) (url : jsstring) (fs : fsState)
  : res (option MediaRecord) * Session * fsState * list MuxEvent :=
  if negb (resolves env Launch) then
    (* catch: browser is still null, nothing to close *)
    (Throw, noSession, fs, [])
  else
    let browser := {| launched := true; isOpen := true; closeCalls := 0 |} in
    if forallb (resolves env) pageSteps then
      let (browser, closed) := closeBrowser env browser in
      if closed then
        let '(result, fs', events) := afterClose env url fs in
        (Ok result, browser, fs', events)
      else
        (* the close rejects: catch closes again and rethrows *)
        let (browser, _) := closeBrowser env browser in
        (Throw, browser, fs, [])
    else
      (* catch: if (browser) await browser.close(); throw error *)
      let (browser, _) := closeBrowser env browser in
      (Throw, browser, fs, []).

End Muxer.

(** ** The page script ([public/script.js]) *)

Module Client.

(** [decodeUrl]: one pass of four replacements, case-sensitive. *)
Definition decodeUrl (url : jsstring) : jsstring :=
  if negb (Js.truthy url) then url
  else
    let u := replaceAllWith (literal (lit "&amp;")) (lit "&") url in
    let u := replaceAllWith (literal (lit "&lt;")) (lit "<") u in
    let u := replaceAllWith (literal (lit "&gt;")) (lit ">") u in
    replaceAllWith (literal (lit "&quot;")) [DQUOTE] u.

End Client.

(** The keys of the ten query parameters that [stripSizeConstraints]
    removes, in the order of the source. *)
Definition strippedKeys : list jsstring :=
  [ lit "stp"; lit "_nc_cat"; lit "ccb"; lit "_nc_sid"; lit "efg"; lit "_nc_ohc";
    lit "_nc_oc"; lit "_nc_zt"; lit "_nc_ht"; lit "_nc_gid" ].

(** The nine replacements of one pass of [decodeUrlEntities], in the order
    of the source: the entity and its replacement. *)
Definition urlEntityTable : list (jsstring * jsstring) :=
  [ (lit "&amp;", lit "&"); (lit "&lt;", lit "<"); (lit "&gt;", lit ">");
    (lit "&quot;", [DQUOTE]); (lit "&#x27;", lit "'"); (lit "&#x2F;", lit "/");
    (lit "&#x3D;", lit "="); (lit "&#39;", lit "'"); (lit "&#x2F;", lit "/") ].

(** Does the text hold [p] somewhere, in any letter case? *)
Fixpoint includes_ci (p s : jsstring) : bool :=
  prefix_ci p s ||
  match s with
  | [] => false
  | _ :: t => includes_ci p t
  end.

(** Is there a [?] or [&] directly followed by another one? *)
Fixpoint adjacentSeps (s : jsstring) : bool :=
  match s with
  | a :: (b :: _) as t => (isSep a && isSep b) || adjacentSeps t
  | _ => false
  end.

(** The URL test of the [response] listener for an audio stream. *)
Definition hasAudioMarker (responseUrl : jsstring) : bool :=
  includes (lit "/t16/") responseUrl || includes (lit "/m69/") responseUrl
  || includes (lit "audio") responseUrl || includes (lit "heaac") responseUrl.

Definition isRunFfmpeg (e : MuxEvent) : bool :=
  match e with RunFfmpeg _ _ _ => true | _ => false end.

Definition isOk {A : Type} (r : res A) : bool :=
  match r with Ok _ => true | Throw => false end.

(** ** The URL tests of the server and of the page script

    The expressions are anchored at the start of the text and, like those
    of the normalisation code, deterministic when read left to right: the
    optional [s] is followed by [:], the optional [www.] by [i], and the
    three alternatives of the kind start with different letters. *)

Definition isUpper (c : N) : bool := (65 <=? c)%N && (c <=? 90)%N.

(** [[\w-]] *)
Definition isWordOrDash (c : N) : bool :=
  isDigit c || isLower c || isUpper c || N.eqb c 95 || N.eqb c 45.

(** [(text)?] *)
Definition optLits (p : jsstring) : eater :=
  fun s => if startsWith p s then Some (skipn (List.length p) s) else Some s.

(** [a|b] *)
Definition alt (e1 e2 : eater) : eater :=
  fun s => match e1 s with Some r => Some r | None => e2 s end.

(** [re.test(s)] for an expression that starts with [^] *)
Definition testAtStart (e : eater) (s : jsstring) : bool :=
  match e s with Some _ => true | None => false end.

(** [^https?:\/\/(www\.)?instagram\.com\/] *)
Definition urlHead : eater :=
  lits (lit "http") ;; opt (N.eqb 115) ;; lits (lit "://") ;; optLits (lit "www.")
  ;; lits (lit "instagram.com/").

(** [\/[\w-]+\/?] *)
Definition urlTail : eater :=
  chr 47 ;; many1 isWordOrDash ;; opt (N.eqb 47).

(** [(p|reel|tv)] *)
Definition postKind : eater :=
  alt (lits (lit "p")) (alt (lits (lit "reel")) (lits (lit "tv"))).

(** The test of the handler:
    [/^https?:\/\/(www\.)?instagram\.com\/(p|reel|tv)\/[\w-]+\/?/.test(url)] *)
Definition instagramUrlPattern (url : jsstring) : bool :=
  testAtStart (urlHead ;; postKind ;; urlTail) url.

Module ClientUrl.

(** The three expressions of [isValidInstagramUrl] in [script.js], one for
    each kind. *)
Definition patterns : list eater :=
  [ urlHead ;; lits (lit "p") ;; urlTail;
    urlHead ;; lits (lit "reel") ;; urlTail;
    urlHead ;; lits (lit "tv") ;; urlTail ].

(** [patterns.some(pattern => pattern.test(url))] *)
Definition isValidInstagramUrl (url : jsstring) : bool :=
  existsb (fun pattern => testAtStart pattern url) patterns.

End ClientUrl.

(** [url.match(/\/(p|reel|tv)\/([\w-]+)/)?.[2]] *)
Definition shortcodeOf (url : jsstring) : option jsstring :=
  firstMatch
    (fun s =>
       match (chr 47 ;; postKind ;; chr 47) s with
       | Some r => option_map fst (capture (many1 isWordOrDash) r)
       | None => None
       end)
    url.

(** ** [parseSharedData] *)

Section SharedData.

Variable ToNumberOther : json -> number.

(** The body of the [try] block. *)
Definition sharedDataBody (sharedData : json) (url : jsstring) : res (option MediaRecord) :=
  match shortcodeOf url with
  | None => Ok None
  | Some _ =>
      let* entry_data := Value.get (Some sharedData) "entry_data" in
      let media :=
        Value.getOpt
          (Value.getOpt (Value.firstOpt (Value.getOpt entry_data "PostPage")) "graphql")
          "shortcode_media" in
      if negb (Value.truthy media) then Ok None
      else
        let isVideo :=
          Value.truthy (Value.getOpt media "is_video")
          || match Value.getOpt media "__typename" with
             | Some (JStr t) => str_eqb t (lit "GraphVideo")
             | _ => false
             end in
        let mediaUrl :=
          if isVideo then Value.getOpt media "video_url"
          else Value.getOpt media "display_url" in
        let thumbnailUrl := Value.getOpt media "display_url" in
        let* urls :=
          match asArray (Value.getOpt media "display_resources") with
          | Some (r :: rs) =>
              if negb isVideo then
                let* picked := pickResource ToNumberOther (r :: rs) in
                match picked with
                | Some resource =>
                    let* src := Value.get (Some resource) "src" in Ok (src, src)
                | None => Ok (mediaUrl, thumbnailUrl)
                end
              else Ok (mediaUrl, thumbnailUrl)
          | _ => Ok (mediaUrl, thumbnailUrl)
          end in
        let* mediaUrl := decodeUrlValue (fst urls) in
        let* thumbnailUrl := decodeUrlValue (snd urls) in
        let mediaUrl :=
          match mediaUrl with
          | Some u =>
              if negb isVideo && Js.truthy u then Some (stripSizeConstraints u) else Some u
          | None => None
          end in
        let caption :=
          Value.or
            (Value.getOpt
               (Value.getOpt
                  (Value.firstOpt
                     (Value.getOpt (Value.getOpt media "edge_media_to_caption") "edges"))
                  "node")
               "text")
            (Some (JStr [])) in
        let* caption := decodeHtmlValue caption in
        let author :=
          Value.or (Value.getOpt (Value.getOpt media "owner") "username")
                   (Some (JStr (lit "Unknown"))) in
        let taken := Value.getOpt media "taken_at_timestamp" in
        let* timestamp :=
          match taken with
          | Some t =>
              if Value.truthy taken
              then isoDate (mul (toNumber ToNumberOther t) (Num 1000))
              else Ok TsNull
          | None => Ok TsNull
          end in
        Ok (Some {| mediaUrl := mediaUrl;
                    thumbnailUrl := thumbnailUrl;
                    caption := caption;
                    author := match author with Some a => a | None => JStr (lit "Unknown") end;
                    mediaType := if isVideo then video else image;
                    timestamp := timestamp |})
  end.

(** [parseSharedData(sharedData, url)]: any exception gives [null]. *)
Definition parseSharedData (sharedData : json) (url : jsstring) : option MediaRecord :=
  try_catch (sharedDataBody sharedData url) None.

End SharedData.

(** ** [parseJsonLd] *)

(** The record of [parseJsonLd]: its [timestamp] is the field of the data
    as it is, a text in general. *)
Record JsonLdRecord : Type := {
  ld_mediaUrl : option jsstring;
  ld_thumbnailUrl : option jsstring;
  ld_caption : jsstring;
  ld_author : json;
  ld_mediaType : MediaType;
  ld_timestamp : json
}.

(** A URL of the code as a value: [null] when there is none. *)
Definition urlValue (u : option jsstring) : value :=
  match u with
  | Some s => Some (JStr s)
  | None => Some JNull
  end.

(** [parseJsonLd(jsonLd)]; it has no [try] of its own: the handler calls it
    inside one. *)
Definition parseJsonLd (jsonLd : json) : res (option JsonLdRecord) :=
  let j := Some jsonLd in
  if negb (Value.truthy j) then Ok None
  else
    let v := Value.getOpt j "video" in
    let* mediaUrl :=
      decodeUrlValue
        (Value.or (Value.getOpt v "contentUrl")
                  (Value.or (Value.getOpt j "image") (Some JNull))) in
    let mediaUrl :=
      match mediaUrl with
      | Some u =>
          if negb (Value.truthy v) && Js.truthy u
          then Some (stripSizeConstraints u) else Some u
      | None => None
      end in
    let* thumbnailUrl :=
      decodeUrlValue
        (Value.or (Value.getOpt v "thumbnailUrl")
                  (Value.or (urlValue mediaUrl) (Some JNull))) in
    let* caption :=
      decodeHtmlValue
        (Value.or (Value.getOpt j "articleBody")
                  (Value.or (Value.getOpt j "caption")
                            (Value.or (Value.getOpt j "description") (Some (JStr []))))) in
    let author :=
      Value.or (Value.getOpt (Value.getOpt j "author") "name")
               (Value.or (Value.getOpt (Value.getOpt j "author") "alternateName")
                         (Some (JStr (lit "Unknown")))) in
    let timestamp :=
      Value.or (Value.getOpt j "uploadDate")
               (Value.or (Value.getOpt j "datePublished") (Some JNull)) in
    Ok (Some {| ld_mediaUrl := mediaUrl;
                ld_thumbnailUrl := thumbnailUrl;
                ld_caption := caption;
                ld_author := match author with Some a => a | None => JStr (lit "Unknown") end;
                ld_mediaType := if Value.truthy v then video else image;
                ld_timestamp := match timestamp with Some t => t | None => JNull end |}).

(** An object that holds [node] seen through [n] levels of objects. *)
Fixpoint nested (n : nat) (node : json) : json :=
  match n with
  | 0 => node
  | S k => JObj [(lit "data", nested k node)]
  end.

(** An expression that consumes a prefix of the text it is given. *)
Definition consuming (e : eater) : Prop :=
  forall s r, e s = Some r -> exists p, s = p ++ r.

(** An image record whose media URL is a fixed point of
    [stripSizeConstraints]. *)
Definition strippedImage (r : MediaRecord) : Prop :=
  mediaType r = image ->
  forall u, mediaUrl r = Some u -> stripSizeConstraints u = u.

(** The characters that start every pattern of [decodeHtmlEntities]. *)
Definition isSpecial (c : N) : bool := N.eqb c AMP || N.eqb c BACKSLASH.

(** A text without [&] and without backslash. *)
Definition plainText (s : jsstring) : bool := forallb (fun c => negb (isSpecial c)) s.

Definition startsSpecial (m : matcher) : Prop :=
  m [] = None /\ forall c t, isSpecial c = false -> m (c :: t) = None.

(** ** Notions used by the proofs *)

(** Every match is inside the text and longer than its replacement. *)
Definition shrinking (m : matcher) (r : jsstring) : Prop :=
  m [] = None /\
  forall s n, m s = Some n -> List.length r < n <= List.length s.

(** A text transformation that leaves its argument alone or shortens it. *)
Definition contracting (f : jsstring -> jsstring) : Prop :=
  forall s, f s = s \/ List.length (f s) < List.length s.

(** Does the expression match at the head of the text? *)
Definition hit (m : matcher) (s : jsstring) : bool :=
  match m s with Some _ => true | None => false end.

(** The text up to its first separator. *)
Definition upToSep (s : jsstring) : jsstring := fst (span notSep s).

(** Empty, or starting with a separator. *)
Definition sepStart (s : jsstring) : Prop :=
  match s with [] => True | c :: _ => isSep c = true end.

(** No match anywhere in the text. *)
Fixpoint noHit (m : matcher) (s : jsstring) : Prop :=
  match s with
  | [] => True
  | _ :: t => m s = None /\ noHit m t
  end.

(** What the removal patterns have in common: a match is not empty, ends at
    the end of the text or before a separator, and whether there is one at a
    position depends on the character there, whatever the separator if it is
    one, and on the text after it up to the next separator; more text after
    it does not undo it. *)
Record local (m : matcher) : Prop := {
  loc_nil : m [] = None;
  loc_len : forall s n, m s = Some n -> 1 <= n <= List.length s;
  loc_stop : forall s n, m s = Some n -> sepStart (skipn n s);
  loc_cut : forall c t, hit m (c :: t) = hit m (c :: upToSep t);
  loc_mono : forall s q, hit m s = true -> hit m (s ++ q) = true;
  loc_sep : forall t, hit m (QMARK :: t) = hit m (AMP :: t)
}.

Definition noSepClass (p : N -> bool) : Prop := forall c, p c = true -> notSep c = true.

(** [weak]: the expression consumes characters other than separators; its
    result does not change when text is added after a non-empty rest, nor
    when the text is cut at its first separator. *)
Record weak (e : eater) : Prop := {
  wk_suffix : forall s r, e s = Some r ->
                          exists p, s = p ++ r /\ Forall (fun c => notSep c = true) p;
  wk_ext : forall s r q, e s = Some r -> r <> [] -> e (s ++ q) = Some (r ++ q);
  wk_cut : forall s r, e s = Some r -> e (upToSep s) = Some (upToSep r)
}.

(** [strong]: moreover it consumes at least one character and ends on a
    fixed one, so that added text never changes its result. *)
Record strong (e : eater) : Prop := {
  st_weak : weak e;
  st_ext : forall s r q, e s = Some r -> e (s ++ q) = Some (r ++ q);
  st_eats : forall s r, e s = Some r -> List.length r < List.length s
}.

Definition sepFor (offset : nat) : jsstring :=
  if Nat.eqb offset 0 then [QMARK] else [AMP].

(** The twelfth replacement, started at any offset. *)
Definition collapseFrom (off : nat) (s : jsstring) : jsstring :=
  replaceFrom sepRun (fun offset _ => sepFor offset) off 0 s.

Definition nonSepStart (s : jsstring) : Prop :=
  match s with [] => True | c :: _ => isSep c = false end.

(** Separators stand alone; the one at offset 0 is [?], the others are [&]. *)
Fixpoint normalSeps (first : bool) (s : jsstring) : Prop :=
  match s with
  | [] => True
  | c :: t =>
      (isSep c = true -> c = (if first then QMARK else AMP) /\ nonSepStart t) /\
      normalSeps false t
  end.

Definition dropTrailingQmark (s : jsstring) : jsstring :=
  replaceFirstFrom trailingQmark (fun _ _ => []) 0 s.

(** The eleven removals, in the order of the source. *)
Definition removalPatterns : list matcher :=
  [ queryParam (lit "stp"); queryParam (lit "_nc_cat"); queryParam (lit "ccb");
    queryParam (lit "_nc_sid"); queryParam (lit "efg"); queryParam (lit "_nc_ohc");
    queryParam (lit "_nc_oc"); queryParam (lit "_nc_zt"); queryParam (lit "_nc_ht");
    queryParam (lit "_nc_gid"); sizeSegment ].

Definition removeSeq (ms : list matcher) (s : jsstring) : jsstring :=
  fold_left (fun acc m => removeAll m acc) ms s.

(** A candidate whose product of sizes a double holds exactly. *)
Definition exactArea (r : DisplayResource) : Prop :=
  match config_width r, config_height r with
  | Some w, Some h => (Z.abs (w * h) < 2 ^ 53)%Z
  | _, _ => True
  end.


(** The area the selector of the JSON strategies compares: a candidate
    without an address is passed over, whatever its sizes. *)
Definition eligibleArea (r : DisplayResource) : Z :=
  if truthy (src r) then area r else 0%Z.
(* ================================================================== *)
(** * Properties *)

(** ** Strings *)

Lemma str_eqb_eq (a b : jsstring) : str_eqb a b = true <-> a = b.
Proof.
  unfold str_eqb. destruct (list_eq_dec N.eq_dec a b); split; congruence.
Qed.

Lemma split_no_sep sep s : ~ In sep s -> split sep s = [s].
Proof.
  induction s as [|c t IH]; simpl; intros H; [reflexivity|].
  destruct (N.eqb_spec c sep) as [->|Hne]; [exfalso; auto|].
  rewrite IH by tauto. reflexivity.
Qed.

Lemma split_app_sep sep a b :
  ~ In sep a -> split sep (a ++ sep :: b) = a :: split sep b.
Proof.
  induction a as [|c t IH]; simpl; intros H.
  - rewrite N.eqb_refl. reflexivity.
  - destruct (N.eqb_spec c sep) as [->|Hne]; [exfalso; auto|].
    rewrite IH by tauto. reflexivity.
Qed.

Lemma split_join sep ps :
  ps <> [] -> Forall (fun p => ~ In sep p) ps -> split sep (join sep ps) = ps.
Proof.
  induction ps as [|p rest IH]; intros Hne Hall; [congruence|].
  inversion Hall as [|? ? Hp Hrest]; subst.
  destruct rest as [|q rest'].
  - simpl. apply split_no_sep; assumption.
  - change (join sep (p :: q :: rest')) with (p ++ sep :: join sep (q :: rest')).
    rewrite split_app_sep by assumption.
    rewrite IH; [reflexivity|discriminate|assumption].
Qed.


(** ** [cleanUrl] *)

Lemma cleanUrl_query base query :
  ~ In QMARK base -> ~ In QMARK query -> query <> [] ->
  cleanUrl (Some (base ++ QMARK :: query)) =
  Some (base ++ QMARK ::
        join AMP (filter (fun p => negb (isByteRange p)) (split AMP query))).
Proof.
  intros Hb Hq Hne. unfold cleanUrl.
  assert (Ht : truthy (base ++ QMARK :: query) = true) by (destruct base; reflexivity).
  rewrite Ht. simpl negb. cbv iota.
  rewrite split_app_sep by assumption.
  rewrite split_no_sep by assumption.
  destruct query; [congruence|]. reflexivity.
Qed.



(** ** The functions at work *)

Example cleanUrl_example :
  cleanUrl (Some (lit "https://cdn/v.mp4?efg=1&bytestart=0&byteend=999&oh=2"))
  = Some (lit "https://cdn/v.mp4?efg=1&oh=2").
Proof. reflexivity. Qed.

(** Only the first two pieces of the split are used: what follows a second
    [?] is dropped. *)
Example cleanUrl_second_qmark :
  cleanUrl (Some (lit "https://cdn/v.mp4?a=1?b=2")) = Some (lit "https://cdn/v.mp4?a=1").
Proof. reflexivity. Qed.

Example decodeUrlEntities_example :
  decodeUrlEntities (lit "https://cdn/i.jpg?a=1&amp;AMP;amp;b=2&#X27;")
  = lit "https://cdn/i.jpg?a=1&b=2'".
Proof. vm_compute. reflexivity. Qed.

(** The hexadecimal entity of a character outside the basic plane becomes a
    surrogate pair; a code point beyond the last one goes through
    [String.fromCharCode]. *)
Example decodeHtmlEntities_example :
  decodeHtmlEntities (lit "&amp;#x1f9d9; &#65;&lt;&#99999999;")
  = [55358; 56793; 32; 65; 60; 57599]%N.
Proof. vm_compute. reflexivity. Qed.

(** The size segment of the path goes with the rest of the path, and the
    [?] that opened the query becomes [&], since the offset of a separator
    is 0 only at the head of the text. *)
Example stripSizeConstraints_example :
  stripSizeConstraints
    (lit "https://x.cdn/v/t51/s640x640_sh-jpg_e35/abc.jpg?stp=dst-jpg&_nc_cat=1&foo=bar&ccb=7")
  = lit "https://x.cdn/v/t51&foo=bar".
Proof. vm_compute. reflexivity. Qed.

Example stripSizeConstraints_separators :
  stripSizeConstraints (lit "&a??b&") = lit "?a&b&" /\ stripSizeConstraints (lit "?") = [].
Proof. split; vm_compute; reflexivity. Qed.

Example jsonCandidate_example :
  matchAll jsonCandidate (lit "{a{b{c}d}e} {x{y}z{w}} {}")
  = [lit "{b{c}d}"; lit "{x{y}z{w}}"; lit "{}"].
Proof. vm_compute. reflexivity. Qed.

(** A node below the depth bound of [findMediaData] is not found. *)
Example extractFromRequireData_depth :
  let leaf := JObj [(lit "video_url", JStr (lit "https://v.cdn/x.mp4"))] in
  let wrap := fun j => JObj [(lit "k", j)] in
  let nest := fun n => Nat.iter n wrap leaf in
  (exists r, extractFromRequireData (fun _ => NaN) (nest 10) = Some r /\ mediaType r = video)
  /\ extractFromRequireData (fun _ => NaN) (nest 11) = None.
Proof. cbv zeta. split; [eexists; split|]; vm_compute; reflexivity. Qed.

(** The inline scan runs its selector over every entry of the array: a
    single entry with sizes is selected. *)
Example highQualityImageUrl_single_entry :
  highQualityImageUrl
    (quoted "display_url" ++ lit ":" ++ quoted "https://i.cdn/d.jpg" ++ lit ","
     ++ quoted "display_resources" ++ lit ":[{" ++ quoted "src" ++ lit ":"
     ++ quoted "https://i.cdn/big.jpg" ++ lit "," ++ quoted "config_width" ++ lit ":1080,"
     ++ quoted "config_height" ++ lit ":1080}]")
  = Some (lit "https://i.cdn/big.jpg").
Proof. vm_compute. reflexivity. Qed.

(** The first entry is the largest; its address is a lone parameter that
    the size-constraint removal deletes, so the scan has no media URL and
    returns no record. *)
Example inlineFieldScan_first_entry_selected :
  let html :=
    quoted "display_url" ++ lit ":" ++ quoted "?stp=9" ++ lit ","
    ++ quoted "display_resources" ++ lit ":[{" ++ quoted "src" ++ lit ":"
    ++ quoted "?stp=1" ++ lit "," ++ quoted "config_width" ++ lit ":10,"
    ++ quoted "config_height" ++ lit ":10},{" ++ quoted "src" ++ lit ":"
    ++ quoted "b.jpg" ++ lit "," ++ quoted "config_width" ++ lit ":5,"
    ++ quoted "config_height" ++ lit ":5}]" in
  highQualityImageUrl html = Some (lit "?stp=1") /\ inlineFieldScan html = Ok None.
Proof. vm_compute. split; reflexivity. Qed.

(** ** Replacement by a shorter text never grows the string *)

Section Shrinking.

Variable m : matcher.
Variable r : jsstring.

Hypothesis Hm : shrinking m r.

Lemma replaceFrom_length off k s :
  List.length (replaceFrom m (fun _ _ => r) off k s) + Nat.min k (List.length s)
  <= List.length s.
Proof.
  destruct Hm as [Hnil Hlen].
  revert off k. induction s as [|c t IH]; intros off k.
  - simpl. rewrite Hnil. destruct k; simpl; lia.
  - destruct k as [|k].
    + cbn [replaceFrom]. destruct (m (c :: t)) as [[|n]|] eqn:E.
      * apply Hlen in E. lia.
      * apply Hlen in E. cbn [List.length] in E.
        specialize (IH (S off) n). rewrite length_app. simpl. lia.
      * specialize (IH (S off) 0). simpl. lia.
    + cbn [replaceFrom]. specialize (IH (S off) k). simpl. lia.
Qed.

Lemma replaceFrom_same_or_shorter off s :
  replaceFrom m (fun _ _ => r) off 0 s = s \/
  List.length (replaceFrom m (fun _ _ => r) off 0 s) < List.length s.
Proof.
  destruct Hm as [Hnil Hlen].
  revert off. induction s as [|c t IH]; intros off.
  - left. simpl. rewrite Hnil. reflexivity.
  - cbn [replaceFrom]. destruct (m (c :: t)) as [[|n]|] eqn:E.
    + apply Hlen in E. lia.
    + right. apply Hlen in E. cbn [List.length] in E.
      pose proof (replaceFrom_length (S off) n t) as L.
      rewrite length_app. simpl. lia.
    + destruct (IH (S off)) as [-> | L]; [left; reflexivity|right; simpl; lia].
Qed.

Lemma replaceAllWith_same_or_shorter s :
  replaceAllWith m r s = s \/
  List.length (replaceAllWith m r s) < List.length s.
Proof. apply replaceFrom_same_or_shorter. Qed.

End Shrinking.

Lemma contracting_compose f g :
  contracting f -> contracting g -> contracting (fun s => g (f s)).
Proof.
  intros Hf Hg s.
  destruct (Hf s) as [Ef | Lf].
  - rewrite Ef. apply Hg.
  - right. destruct (Hg (f s)) as [Eg | Lg]; [rewrite Eg; assumption | lia].
Qed.

Lemma prefix_ci_length p s : prefix_ci p s = true -> List.length p <= List.length s.
Proof.
  revert s. induction p as [|a p IH]; intros [|b s]; simpl; try lia; try discriminate.
  intros H. apply andb_prop in H. destruct H as [_ H]. apply IH in H. lia.
Qed.

Lemma startsWith_length p s : startsWith p s = true -> List.length p <= List.length s.
Proof.
  revert s. induction p as [|a p IH]; intros [|b s]; simpl; try lia; try discriminate.
  intros H. apply andb_prop in H. destruct H as [_ H]. apply IH in H. lia.
Qed.

Lemma literal_ci_shrinking p r :
  List.length r < List.length p -> shrinking (literal_ci p) r.
Proof.
  intros Hlt. split.
  - unfold literal_ci, matchOf, lits_ci. destruct p; [simpl in Hlt; lia | reflexivity].
  - intros s n. unfold literal_ci, matchOf, lits_ci.
    destruct (prefix_ci p s) eqn:E; [|discriminate].
    simpl. intros [= <-]. apply prefix_ci_length in E.
    rewrite length_skipn. lia.
Qed.

Lemma contracting_id : contracting (fun s => s).
Proof. intros s. left. reflexivity. Qed.

Lemma contracting_step f m r :
  contracting f -> shrinking m r ->
  contracting (fun s => replaceAllWith m r (f s)).
Proof.
  intros Hf Hm. apply (contracting_compose _ _ Hf).
  intros s. apply replaceAllWith_same_or_shorter. assumption.
Qed.

Lemma decodeUrlPass_contracting : contracting decodeUrlPass.
Proof.
  unfold decodeUrlPass. cbv zeta.
  repeat (apply contracting_step; [| apply literal_ci_shrinking; simpl; lia]).
  apply contracting_id.
Qed.

(** The loop reaches its exit test: with more fuel than the text is long,
    the result is a fixed point of the pass. *)
Lemma decodeUrlLoop_fuel_enough fuel s :
  List.length s < fuel ->
  decodeUrlPass (decodeUrlLoop fuel s) = decodeUrlLoop fuel s.
Proof.
  revert s. induction fuel as [|fuel IH]; intros s Hlt; [lia|].
  cbn [decodeUrlLoop].
  destruct (str_eqb (decodeUrlPass s) s) eqn:E.
  - apply str_eqb_eq in E. rewrite E. exact E.
  - apply IH. destruct (decodeUrlPass_contracting s) as [Es | L].
    + apply str_eqb_eq in Es. congruence.
    + lia.
Qed.

(** More fuel than needed changes nothing. *)
Lemma decodeUrlLoop_fuel_irrelevant fuel1 fuel2 s :
  List.length s < fuel1 -> List.length s < fuel2 ->
  decodeUrlLoop fuel1 s = decodeUrlLoop fuel2 s.
Proof.
  revert fuel2 s. induction fuel1 as [|fuel1 IH]; intros fuel2 s H1 H2; [lia|].
  destruct fuel2 as [|fuel2]; [lia|].
  cbn [decodeUrlLoop].
  destruct (str_eqb (decodeUrlPass s) s) eqn:E; [reflexivity|].
  destruct (decodeUrlPass_contracting s) as [Es | L].
  - apply str_eqb_eq in Es. congruence.
  - apply IH; lia.
Qed.

Lemma decodeUrlEntities_fixed s :
  decodeUrlPass (decodeUrlEntities s) = decodeUrlEntities s.
Proof.
  unfold decodeUrlEntities. destruct s as [|c t]; [reflexivity|].
  simpl truthy. simpl negb. cbv iota.
  apply decodeUrlLoop_fuel_enough. lia.
Qed.

Lemma decodeUrlEntities_of_fixed s :
  decodeUrlPass s = s -> decodeUrlEntities s = s.
Proof.
  intros H. unfold decodeUrlEntities. destruct s as [|c t]; [reflexivity|].
  simpl truthy. simpl negb. cbv iota. cbn [decodeUrlLoop].
  rewrite H. replace (str_eqb (c :: t) (c :: t)) with true; [reflexivity|].
  symmetry. apply str_eqb_eq. reflexivity.
Qed.

Lemma decodeUrlEntities_idem s :
  decodeUrlEntities (decodeUrlEntities s) = decodeUrlEntities s.
Proof. apply decodeUrlEntities_of_fixed, decodeUrlEntities_fixed. Qed.

(** ** Removing the matches of expressions that stop at a separator *)

Lemma span_app p s : fst (span p s) ++ snd (span p s) = s.
Proof.
  induction s as [|c t IH]; simpl; [reflexivity|].
  destruct (p c); [|reflexivity].
  destruct (span p t) as [a b]. simpl in *. congruence.
Qed.

Lemma span_fst_all p s : Forall (fun c => p c = true) (fst (span p s)).
Proof.
  induction s as [|c t IH]; simpl; [constructor|].
  destruct (p c) eqn:E; [|constructor].
  destruct (span p t) as [a b]. simpl in *. constructor; assumption.
Qed.

Lemma span_snd_head p s :
  match snd (span p s) with [] => True | c :: _ => p c = false end.
Proof.
  induction s as [|c t IH]; simpl; [exact I|].
  destruct (p c) eqn:E; [|simpl; assumption].
  destruct (span p t) as [a b]. simpl in *. assumption.
Qed.

Lemma upToSep_cons c t :
  upToSep (c :: t) = if notSep c then c :: upToSep t else [].
Proof.
  unfold upToSep. simpl. destruct (notSep c); [|reflexivity].
  destruct (span notSep t); reflexivity.
Qed.

Lemma upToSep_sepStart s : sepStart s -> upToSep s = [].
Proof.
  destruct s as [|c t]; [reflexivity|]. simpl. intros H.
  rewrite upToSep_cons. unfold notSep. rewrite H. reflexivity.
Qed.

Lemma noHit_skipn m k s : noHit m s -> noHit m (skipn k s).
Proof.
  revert s. induction k as [|k IH]; intros s H; [assumption|].
  destruct s as [|c t]; [exact I|]. simpl. apply IH. apply H.
Qed.

Section Removal.

Variable m : matcher.
Hypothesis Hm : local m.

Lemma replaceFrom_skip r off off' k s :
  replaceFrom m (fun _ _ => r) off k s =
  replaceFrom m (fun _ _ => r) off' 0 (skipn k s).
Proof.
  revert off off' k. induction s as [|c t IH]; intros off off' k.
  - destruct k; simpl; rewrite (loc_nil _ Hm); reflexivity.
  - destruct k as [|k].
    + cbn [skipn replaceFrom]. destruct (m (c :: t)) as [[|n]|].
      * f_equal. f_equal. apply (IH _ _ 0).
      * f_equal. rewrite (IH (S off) 0 n), (IH (S off') 0 n). reflexivity.
      * f_equal. apply (IH _ _ 0).
    + cbn [skipn replaceFrom]. apply IH.
Qed.

Lemma removeAll_nil : removeAll m [] = [].
Proof. unfold removeAll, replaceAllWith, replaceAll. simpl. rewrite (loc_nil _ Hm). reflexivity. Qed.

Lemma removeAll_cons_hit c t n :
  m (c :: t) = Some n -> removeAll m (c :: t) = removeAll m (skipn n (c :: t)).
Proof.
  intros E. unfold removeAll, replaceAllWith, replaceAll.
  cbn [replaceFrom]. rewrite E.
  destruct n as [|n]; [apply (loc_len _ Hm) in E; lia|].
  simpl app. cbn [skipn]. apply replaceFrom_skip.
Qed.

Lemma removeAll_cons_miss c t :
  m (c :: t) = None -> removeAll m (c :: t) = c :: removeAll m t.
Proof.
  intros E. unfold removeAll, replaceAllWith, replaceAll.
  cbn [replaceFrom]. rewrite E. f_equal. apply (replaceFrom_skip _ _ _ 0).
Qed.

(** Induction on the text along the scan of [removeAll]. *)
Lemma removeAll_ind (P : jsstring -> jsstring -> Prop) :
  P [] [] ->
  (forall c t n, m (c :: t) = Some n ->
                 P (skipn n (c :: t)) (removeAll m (skipn n (c :: t))) ->
                 P (c :: t) (removeAll m (skipn n (c :: t)))) ->
  (forall c t, m (c :: t) = None -> P t (removeAll m t) ->
               P (c :: t) (c :: removeAll m t)) ->
  forall s, P s (removeAll m s).
Proof.
  intros Hnil Hhit Hmiss s.
  assert (H : forall k s, List.length s <= k -> P s (removeAll m s)).
  { clear s. induction k as [|k IH]; intros s Hle.
    - destruct s; [|simpl in Hle; lia]. rewrite removeAll_nil. exact Hnil.
    - destruct s as [|c t]; [rewrite removeAll_nil; exact Hnil|].
      destruct (m (c :: t)) as [n|] eqn:E.
      + rewrite (removeAll_cons_hit _ _ _ E). apply Hhit; [assumption|].
        apply IH. pose proof (loc_len _ Hm _ _ E) as L.
        rewrite length_skipn. cbn [List.length] in *. lia.
      + rewrite (removeAll_cons_miss _ _ E). apply Hmiss; [assumption|].
        apply IH. simpl in Hle. lia. }
  apply (H (List.length s)). lia.
Qed.

Lemma removeAll_sepStart s : sepStart s -> sepStart (removeAll m s).
Proof.
  apply (removeAll_ind (fun s r => sepStart s -> sepStart r)).
  - trivial.
  - intros c t n E IH _. apply IH. apply (loc_stop _ Hm _ _ E).
  - intros c t _ _ H. exact H.
Qed.

(** Up to the first separator, the result is a prefix of the text. *)
Lemma removeAll_upToSep s :
  exists q, upToSep s = upToSep (removeAll m s) ++ q.
Proof.
  apply (removeAll_ind (fun s r => exists q, upToSep s = upToSep r ++ q)).
  - exists []. reflexivity.
  - intros c t n E _.
    rewrite (upToSep_sepStart (removeAll m (skipn n (c :: t)))).
    + eexists. reflexivity.
    + apply removeAll_sepStart. apply (loc_stop _ Hm _ _ E).
  - intros c t _ [q Hq]. rewrite !upToSep_cons.
    destruct (notSep c); [|exists []; reflexivity].
    exists q. simpl. rewrite Hq. reflexivity.
Qed.

Lemma removeAll_noHit s : noHit m s -> removeAll m s = s.
Proof.
  induction s as [|c t IH]; intros H; [apply removeAll_nil|].
  destruct H as [E H]. rewrite (removeAll_cons_miss _ _ E). f_equal. auto.
Qed.

End Removal.

Section RemovalTwo.

Variables m m' : matcher.
Hypothesis Hm : local m.
Hypothesis Hm' : local m'.

(** Removing the matches of [m'] after a position does not create a match
    of [m] at that position. *)
Lemma hit_after_removeAll c t :
  hit m (c :: removeAll m' t) = true -> hit m (c :: t) = true.
Proof.
  intros H. rewrite (loc_cut _ Hm) in H.
  destruct (removeAll_upToSep _ Hm' t) as [q Hq].
  apply (loc_mono _ Hm) with (q := q) in H. simpl in H. rewrite <- Hq in H.
  rewrite (loc_cut _ Hm). exact H.
Qed.

Lemma miss_after_removeAll c t :
  m (c :: t) = None -> m (c :: removeAll m' t) = None.
Proof.
  intros E. destruct (m (c :: removeAll m' t)) eqn:E'; [|reflexivity].
  assert (H : hit m (c :: removeAll m' t) = true) by (unfold hit; rewrite E'; reflexivity).
  apply hit_after_removeAll in H. unfold hit in H. rewrite E in H. discriminate.
Qed.

Lemma noHit_removeAll_other s : noHit m s -> noHit m (removeAll m' s).
Proof.
  apply (removeAll_ind _ Hm' (fun s r => noHit m s -> noHit m r)).
  - trivial.
  - intros c t n E IH H. apply IH. apply noHit_skipn. exact H.
  - intros c t _ IH [E H]. split; [apply miss_after_removeAll; assumption|auto].
Qed.

End RemovalTwo.

Lemma noHit_removeAll_self m (Hm : local m) s : noHit m (removeAll m s).
Proof.
  apply (removeAll_ind _ Hm (fun _ r => noHit m r)).
  - exact I.
  - intros c t n _ IH. exact IH.
  - intros c t E IH. split; [apply miss_after_removeAll; assumption|assumption].
Qed.

(** ** Expressions that read no separator *)

Lemma upToSep_app p r :
  Forall (fun c => notSep c = true) p -> upToSep (p ++ r) = p ++ upToSep r.
Proof.
  induction 1 as [|c p Hc Hp IH]; [reflexivity|].
  simpl app. rewrite upToSep_cons, Hc, IH. reflexivity.
Qed.

Lemma startsWith_app p r : startsWith p (p ++ r) = true.
Proof. induction p as [|a p IH]; simpl; [reflexivity|]. rewrite N.eqb_refl. exact IH. Qed.

Lemma startsWith_inv p s : startsWith p s = true -> s = p ++ skipn (List.length p) s.
Proof.
  revert s. induction p as [|a p IH]; intros s H; [reflexivity|].
  destruct s as [|b s]; [discriminate|]. simpl in H.
  apply andb_prop in H. destruct H as [Hab H]. apply N.eqb_eq in Hab. subst b.
  simpl. f_equal. apply IH. exact H.
Qed.

Lemma skipn_app_exact (p r : jsstring) : skipn (List.length p) (p ++ r) = r.
Proof. induction p; simpl; auto. Qed.

Lemma span_ext p s q :
  snd (span p s) <> [] ->
  span p (s ++ q) = (fst (span p s), snd (span p s) ++ q).
Proof.
  induction s as [|c t IH]; simpl; intros H; [congruence|].
  destruct (p c) eqn:E; [|reflexivity].
  destruct (span p t) as [a b] eqn:Es. simpl in *.
  rewrite IH by assumption. reflexivity.
Qed.

Lemma span_cut p s :
  noSepClass p ->
  span p (upToSep s) = (fst (span p s), upToSep (snd (span p s))).
Proof.
  intros Hp. induction s as [|c t IH]; [reflexivity|].
  rewrite upToSep_cons. simpl. destruct (p c) eqn:E.
  - rewrite (Hp _ E). simpl. rewrite E, IH.
    destruct (span p t) as [a b]. reflexivity.
  - simpl. rewrite upToSep_cons.
    destruct (notSep c); simpl; [rewrite E|]; reflexivity.
Qed.

Lemma weak_seq e1 e2 : weak e1 -> weak e2 -> weak (e1 ;; e2).
Proof.
  intros H1 H2. split; unfold seq.
  - intros s r H. destruct (e1 s) as [r1|] eqn:E1; [|discriminate].
    destruct (wk_suffix _ H1 _ _ E1) as [p1 [-> F1]].
    destruct (wk_suffix _ H2 _ _ H) as [p2 [-> F2]].
    exists (p1 ++ p2). split; [apply app_assoc|apply Forall_app; auto].
  - intros s r q H Hr. destruct (e1 s) as [r1|] eqn:E1; [|discriminate].
    assert (Hr1 : r1 <> []).
    { destruct (wk_suffix _ H2 _ _ H) as [p2 [-> _]]. destruct p2; [assumption|discriminate]. }
    rewrite (wk_ext _ H1 _ _ q E1 Hr1). apply (wk_ext _ H2); assumption.
  - intros s r H. destruct (e1 s) as [r1|] eqn:E1; [|discriminate].
    rewrite (wk_cut _ H1 _ _ E1). apply (wk_cut _ H2). exact H.
Qed.

Lemma strong_seq e1 e2 : weak e1 -> strong e2 -> strong (e1 ;; e2).
Proof.
  intros H1 H2. split.
  - apply weak_seq; [assumption|apply (st_weak _ H2)].
  - unfold seq. intros s r q H. destruct (e1 s) as [r1|] eqn:E1; [|discriminate].
    assert (Hr1 : r1 <> []).
    { pose proof (st_eats _ H2 _ _ H) as L. destruct r1; [simpl in L; lia|discriminate]. }
    rewrite (wk_ext _ H1 _ _ q E1 Hr1). apply (st_ext _ H2). exact H.
  - unfold seq. intros s r H. destruct (e1 s) as [r1|] eqn:E1; [|discriminate].
    pose proof (st_eats _ H2 _ _ H) as L.
    destruct (wk_suffix _ H1 _ _ E1) as [p1 [-> _]]. rewrite length_app. lia.
Qed.

Lemma strong_oneOf p : noSepClass p -> strong (oneOf p).
Proof.
  intros Hp. split; [split|..]; unfold oneOf.
  - intros [|c t] r; [discriminate|]. destruct (p c) eqn:E; [|discriminate].
    intros [= <-]. exists [c]. split; [reflexivity|]. constructor; auto.
  - intros [|c t] r q; simpl; [discriminate|]. destruct (p c); [|discriminate].
    intros [= <-] _. reflexivity.
  - intros [|c t] r; [discriminate|]. destruct (p c) eqn:E; [|discriminate].
    intros [= <-]. rewrite upToSep_cons, (Hp _ E), E. reflexivity.
  - intros [|c t] r q; simpl; [discriminate|]. destruct (p c); [|discriminate].
    intros [= <-]. reflexivity.
  - intros [|c t] r; [discriminate|]. destruct (p c); [|discriminate].
    intros [= <-]. simpl. lia.
Qed.

Lemma strong_chr c : notSep c = true -> strong (chr c).
Proof.
  intros H. apply strong_oneOf. intros d Hd. apply N.eqb_eq in Hd. subst d. exact H.
Qed.

Lemma strong_lits k :
  k <> [] -> Forall (fun c => notSep c = true) k -> strong (lits k).
Proof.
  intros Hne Hk.
  assert (Hinv : forall s r, lits k s = Some r -> s = k ++ r).
  { unfold lits. intros s r. destruct (startsWith k s) eqn:E; [|discriminate].
    intros [= <-]. apply startsWith_inv. exact E. }
  assert (Hok : forall r, lits k (k ++ r) = Some r).
  { intros r. unfold lits. rewrite startsWith_app, skipn_app_exact. reflexivity. }
  split; [split|..].
  - intros s r H. exists k. split; [apply Hinv; exact H|exact Hk].
  - intros s r q H _. rewrite (Hinv _ _ H), <- app_assoc. apply Hok.
  - intros s r H. rewrite (Hinv _ _ H), upToSep_app by assumption. apply Hok.
  - intros s r q H. rewrite (Hinv _ _ H), <- app_assoc. apply Hok.
  - intros s r H. rewrite (Hinv _ _ H), length_app.
    destruct k; [congruence|simpl; lia].
Qed.

Lemma weak_many1 p : noSepClass p -> weak (many1 p).
Proof.
  intros Hp.
  assert (Hinv : forall s r, many1 p s = Some r ->
                             r = snd (span p s) /\ fst (span p s) <> []).
  { unfold many1. intros s r. destruct (span p s) as [[|a l] b]; [discriminate|].
    intros [= <-]. split; [reflexivity|discriminate]. }
  split.
  - intros s r H. destruct (Hinv _ _ H) as [-> _].
    exists (fst (span p s)). split; [symmetry; apply span_app|].
    eapply Forall_impl; [|apply span_fst_all]. exact Hp.
  - intros s r q H Hr. destruct (Hinv _ _ H) as [-> Hne].
    unfold many1. rewrite span_ext by assumption.
    destruct (fst (span p s)); [congruence|reflexivity].
  - intros s r H. destruct (Hinv _ _ H) as [-> Hne].
    unfold many1. rewrite span_cut by assumption.
    destruct (fst (span p s)); [congruence|reflexivity].
Qed.

Lemma weak_opt p : noSepClass p -> weak (opt p).
Proof.
  intros Hp. split; unfold opt.
  - intros [|c t] r.
    + intros [= <-]. exists []. split; [reflexivity|constructor].
    + destruct (p c) eqn:E; intros [= <-].
      * exists [c]. split; [reflexivity|]. constructor; auto.
      * exists []. split; [reflexivity|constructor].
  - intros [|c t] r q.
    + intros [= <-] H. congruence.
    + simpl. destruct (p c) eqn:E; intros [= <-] _; reflexivity.
  - intros [|c t] r.
    + intros [= <-]. reflexivity.
    + rewrite upToSep_cons. destruct (p c) eqn:E; intros [= <-].
      * rewrite (Hp _ E), E. reflexivity.
      * rewrite upToSep_cons. destruct (notSep c); [rewrite E|]; reflexivity.
Qed.

Lemma noSep_isDigit : noSepClass isDigit.
Proof.
  intros c. unfold isDigit, notSep, isSep, QMARK, AMP. intros H.
  apply andb_prop in H. destruct H as [H1 H2].
  apply N.leb_le in H1, H2.
  destruct (N.eqb_spec c 63); [lia|]. destruct (N.eqb_spec c 38); [lia|]. reflexivity.
Qed.

Lemma noSep_isLower : noSepClass isLower.
Proof.
  intros c. unfold isLower, notSep, isSep, QMARK, AMP. intros H.
  apply andb_prop in H. destruct H as [H1 H2].
  apply N.leb_le in H1, H2.
  destruct (N.eqb_spec c 63); [lia|]. destruct (N.eqb_spec c 38); [lia|]. reflexivity.
Qed.

Lemma sizeSegmentHead_strong : strong sizeSegmentHead.
Proof.
  unfold sizeSegmentHead.
  apply strong_seq; [|apply strong_lits; [discriminate|repeat constructor]].
  repeat (apply weak_seq);
    first [ apply st_weak, strong_chr; reflexivity
          | apply weak_many1; first [apply noSep_isDigit | apply noSep_isLower]
          | apply weak_opt, noSep_isLower ].
Qed.

(** ** The removal patterns are local *)

Lemma span_snd_length p s : List.length (snd (span p s)) <= List.length s.
Proof.
  rewrite <- (span_app p s) at 2. rewrite length_app. lia.
Qed.

Lemma skipn_suffix (x r : jsstring) :
  skipn (List.length (x ++ r) - List.length r) (x ++ r) = r.
Proof.
  rewrite length_app. replace (List.length x + List.length r - List.length r)
    with (List.length x) by lia.
  apply skipn_app_exact.
Qed.

Lemma notSep_false_isSep c : notSep c = false -> isSep c = true.
Proof. unfold notSep. destruct (isSep c); [reflexivity|discriminate]. Qed.

Lemma notAmp_false_isSep c : notAmp c = false -> isSep c = true.
Proof.
  unfold notAmp, isSep. destruct (N.eqb c AMP); [intros _; apply orb_true_r|discriminate].
Qed.

Lemma hit_matchOf_star h p s :
  hit (matchOf (h ;; many0 p)) s = match h s with Some _ => true | None => false end.
Proof. unfold hit, matchOf, seq, many0. destruct (h s); reflexivity. Qed.

Lemma strong_head_notSep h c t r :
  strong h -> h (c :: t) = Some r -> notSep c = true.
Proof.
  intros Hh E. pose proof (st_eats _ Hh _ _ E) as L.
  destruct (wk_suffix _ (st_weak _ Hh) _ _ E) as [p [Hp Fp]].
  destruct p as [|d p].
  - simpl in Hp. subst r. lia.
  - injection Hp as -> _. inversion Fp; assumption.
Qed.

Lemma local_strong_star h : strong h -> local (matchOf (h ;; many0 notSep)).
Proof.
  intros Hh.
  assert (Hinv : forall s n, matchOf (h ;; many0 notSep) s = Some n ->
            exists r, h s = Some r /\
                      n = List.length s - List.length (snd (span notSep r))).
  { unfold matchOf, seq, many0. intros s n. destruct (h s) as [r|]; [|discriminate].
    simpl. intros [= <-]. exists r. split; reflexivity. }
  split.
  - unfold matchOf, seq. destruct (h []) as [r|] eqn:E; [|reflexivity].
    apply (st_eats _ Hh) in E. simpl in E. lia.
  - intros s n H. destruct (Hinv _ _ H) as [r [E ->]].
    pose proof (st_eats _ Hh _ _ E). pose proof (span_snd_length notSep r). lia.
  - intros s n H. destruct (Hinv _ _ H) as [r [E ->]].
    destruct (wk_suffix _ (st_weak _ Hh) _ _ E) as [p [-> _]].
    rewrite <- (span_app notSep r) at 1 3. rewrite app_assoc, skipn_suffix.
    pose proof (span_snd_head notSep r) as Hd. unfold sepStart.
    destruct (snd (span notSep r)); [exact I|apply notSep_false_isSep; exact Hd].
  - intros c t. rewrite !hit_matchOf_star.
    destruct (h (c :: t)) as [r|] eqn:E.
    + pose proof (strong_head_notSep _ _ _ _ Hh E) as Hc.
      pose proof (wk_cut _ (st_weak _ Hh) _ _ E) as E'.
      rewrite upToSep_cons, Hc in E'. rewrite E'. reflexivity.
    + destruct (h (c :: upToSep t)) as [r|] eqn:E'; [|reflexivity].
      apply (st_ext _ Hh) with (q := snd (span notSep t)) in E'.
      simpl in E'. unfold upToSep in E'. rewrite span_app in E'. congruence.
  - intros s q. rewrite !hit_matchOf_star.
    destruct (h s) as [r|] eqn:E; [|discriminate].
    intros _. rewrite (st_ext _ Hh _ _ q E). reflexivity.
  - intros t. rewrite !hit_matchOf_star.
    destruct (h (QMARK :: t)) as [r|] eqn:E;
      [apply (strong_head_notSep _ _ _ _ Hh) in E; discriminate|].
    destruct (h (AMP :: t)) as [r|] eqn:E';
      [apply (strong_head_notSep _ _ _ _ Hh) in E'; discriminate|].
    reflexivity.
Qed.

Lemma local_sizeSegment : local sizeSegment.
Proof. apply local_strong_star, sizeSegmentHead_strong. Qed.

(** [[?&]key=[^&]*]: the first character is the separator itself. *)
Lemma queryParam_cons key c t :
  queryParam key (c :: t) =
  if isSep c && startsWith (key ++ lit "=") t
  then Some (List.length (c :: t) -
             List.length (snd (span notAmp (skipn (List.length (key ++ lit "=")) t))))
  else None.
Proof.
  unfold queryParam, matchOf, seq, oneOf, lits, many0.
  destruct (isSep c); [|reflexivity]. simpl andb.
  destruct (startsWith (key ++ lit "=") t); reflexivity.
Qed.

Lemma startsWith_mono k t q : startsWith k t = true -> startsWith k (t ++ q) = true.
Proof.
  intros H. rewrite (startsWith_inv _ _ H), <- app_assoc. apply startsWith_app.
Qed.

Lemma startsWith_cut k t :
  Forall (fun c => notSep c = true) k ->
  startsWith k (upToSep t) = startsWith k t.
Proof.
  intros Hk. revert t. induction Hk as [|a k Ha Hk IH]; intros t; [reflexivity|].
  destruct t as [|b t]; [reflexivity|]. rewrite upToSep_cons.
  destruct (notSep b) eqn:Eb; simpl.
  - rewrite IH. reflexivity.
  - destruct (N.eqb_spec a b) as [->|]; [congruence|reflexivity].
Qed.

Lemma local_queryParam key :
  Forall (fun c => notSep c = true) key -> local (queryParam key).
Proof.
  intros Hkey.
  assert (Hk : Forall (fun c => notSep c = true) (key ++ lit "=")).
  { apply Forall_app. split; [assumption|repeat constructor]. }
  assert (Hhit : forall c t, hit (queryParam key) (c :: t) =
                             isSep c && startsWith (key ++ lit "=") t).
  { intros c t. unfold hit. rewrite queryParam_cons.
    destruct (isSep c && startsWith (key ++ lit "=") t); reflexivity. }
  split.
  - reflexivity.
  - intros [|c t] n; [discriminate|]. rewrite queryParam_cons.
    destruct (isSep c && startsWith (key ++ lit "=") t); [|discriminate].
    intros H.
    assert (Hn : n = List.length (c :: t) - List.length
                   (snd (span notAmp (skipn (List.length (key ++ lit "=")) t))))
      by congruence.
    clear H. subst n.
    pose proof (span_snd_length notAmp (skipn (List.length (key ++ lit "=")) t)) as L.
    rewrite length_skipn in L.
    change (List.length (c :: t)) with (S (List.length t)). lia.
  - intros [|c t] n; [discriminate|]. rewrite queryParam_cons.
    destruct (isSep c && startsWith (key ++ lit "=") t) eqn:E; [|discriminate].
    intros H.
    assert (Hn : n = List.length (c :: t) - List.length
                   (snd (span notAmp (skipn (List.length (key ++ lit "=")) t))))
      by congruence.
    clear H. subst n. apply andb_prop in E. destruct E as [_ E].
    apply startsWith_inv in E.
    set (v := skipn (List.length (key ++ lit "=")) t) in *.
    assert (Hs : c :: t = (c :: (key ++ lit "=") ++ fst (span notAmp v)) ++ snd (span notAmp v)).
    { simpl. f_equal. rewrite <- app_assoc, span_app. exact E. }
    rewrite Hs at 1 2. rewrite skipn_suffix.
    pose proof (span_snd_head notAmp v) as Hd. unfold sepStart.
    destruct (snd (span notAmp v)); [exact I|apply notAmp_false_isSep; exact Hd].
  - intros c t. rewrite !Hhit, startsWith_cut by assumption. reflexivity.
  - intros [|c t] q; [discriminate|]. simpl app. rewrite !Hhit.
    intros H. apply andb_prop in H. destruct H as [-> H].
    rewrite (startsWith_mono _ _ q H). reflexivity.
  - intros t. rewrite !Hhit. reflexivity.
Qed.

(** ** Normalising the separators *)

Lemma replaceFrom_skip_off m f off k s :
  m [] = None ->
  replaceFrom m f off k s = replaceFrom m f (off + k) 0 (skipn k s).
Proof.
  intros Hnil. revert off k. induction s as [|c t IH]; intros off k.
  - destruct k; simpl; rewrite Hnil; reflexivity.
  - destruct k as [|k].
    + rewrite Nat.add_0_r. reflexivity.
    + cbn [replaceFrom skipn]. rewrite IH. rewrite Nat.add_succ_r. reflexivity.
Qed.

Lemma skipn_span p s : skipn (List.length (fst (span p s))) s = snd (span p s).
Proof.
  rewrite <- (span_app p s) at 2. apply skipn_app_exact.
Qed.

Lemma sepRun_cons c t :
  sepRun (c :: t) =
  if isSep c then Some (S (List.length (fst (span isSep t)))) else None.
Proof.
  unfold sepRun, matchOf, many1. simpl span. destruct (isSep c); [|reflexivity].
  pose proof (span_app isSep t) as Ha.
  destruct (span isSep t) as [a b]. cbn [fst snd] in *. subst t.
  cbn [option_map]. f_equal. cbn [List.length]. rewrite length_app. lia.
Qed.

Lemma collapseFrom_nil off : collapseFrom off [] = [].
Proof. reflexivity. Qed.

Lemma collapseFrom_other off c t :
  isSep c = false -> collapseFrom off (c :: t) = c :: collapseFrom (S off) t.
Proof.
  intros H. unfold collapseFrom. cbn [replaceFrom]. rewrite sepRun_cons, H. reflexivity.
Qed.

Lemma collapseFrom_sep off c t :
  isSep c = true ->
  collapseFrom off (c :: t) =
  sepFor off ++
  collapseFrom (S off + List.length (fst (span isSep t))) (snd (span isSep t)).
Proof.
  intros H. unfold collapseFrom. cbn [replaceFrom]. rewrite sepRun_cons, H.
  f_equal. rewrite replaceFrom_skip_off by reflexivity. rewrite skipn_span. reflexivity.
Qed.

Lemma sepFor_cons off : exists x, sepFor off = [x] /\ isSep x = true.
Proof.
  unfold sepFor. destruct (Nat.eqb off 0); eexists; split; reflexivity.
Qed.

(** Induction along the scan of the collapse. *)
Lemma collapseFrom_ind (P : nat -> jsstring -> jsstring -> Prop) :
  (forall off, P off [] []) ->
  (forall off c t, isSep c = false ->
     P (S off) t (collapseFrom (S off) t) ->
     P off (c :: t) (c :: collapseFrom (S off) t)) ->
  (forall off c t, isSep c = true ->
     let n := List.length (fst (span isSep t)) in
     let rest := snd (span isSep t) in
     P (S off + n) rest (collapseFrom (S off + n) rest) ->
     P off (c :: t) (sepFor off ++ collapseFrom (S off + n) rest)) ->
  forall off s, P off s (collapseFrom off s).
Proof.
  intros Hnil Hother Hsep off s.
  assert (H : forall k off s, List.length s <= k -> P off s (collapseFrom off s)).
  { clear off s. induction k as [|k IH]; intros off s Hle.
    - destruct s; [apply Hnil|simpl in Hle; lia].
    - destruct s as [|c t]; [apply Hnil|].
      destruct (isSep c) eqn:E.
      + rewrite collapseFrom_sep by assumption. apply Hsep; [assumption|].
        apply IH. pose proof (span_snd_length isSep t). simpl in Hle. lia.
      + rewrite collapseFrom_other by assumption. apply Hother; [assumption|].
        apply IH. simpl in Hle. lia. }
  apply (H (List.length s)). lia.
Qed.

Lemma collapseFrom_upToSep off s : upToSep (collapseFrom off s) = upToSep s.
Proof.
  revert off. induction s as [|c t IH]; intros off; [reflexivity|].
  destruct (isSep c) eqn:E.
  - rewrite collapseFrom_sep by assumption.
    destruct (sepFor_cons off) as [x [-> Hx]]. simpl app.
    rewrite !upToSep_cons. unfold notSep. rewrite E, Hx. reflexivity.
  - rewrite collapseFrom_other by assumption.
    rewrite !upToSep_cons, IH. reflexivity.
Qed.

Lemma collapseFrom_nonSepStart off s :
  nonSepStart s -> nonSepStart (collapseFrom off s).
Proof.
  destruct s as [|c t]; [trivial|]. simpl. intros H.
  rewrite collapseFrom_other by assumption. exact H.
Qed.

Lemma collapseFrom_normal off s : normalSeps (Nat.eqb off 0) (collapseFrom off s).
Proof.
  apply (collapseFrom_ind (fun off _ r => normalSeps (Nat.eqb off 0) r)).
  - intros; exact I.
  - intros o c t E IH. split; [congruence|exact IH].
  - intros o c t E n rest IH. unfold sepFor.
    assert (Hns : nonSepStart (collapseFrom (S o + n) rest)).
    { apply collapseFrom_nonSepStart. subst rest.
      pose proof (span_snd_head isSep t) as Hd. unfold nonSepStart.
      destruct (snd (span isSep t)); [exact I|exact Hd]. }
    destruct (Nat.eqb o 0); simpl app; (split; [intros _; split; [reflexivity|exact Hns]|exact IH]).
Qed.

Lemma span_nonSepStart t : nonSepStart t -> span isSep t = ([], t).
Proof. destruct t as [|d t]; [reflexivity|]. simpl. intros ->. reflexivity. Qed.

Lemma normal_collapseFrom off s :
  normalSeps (Nat.eqb off 0) s -> collapseFrom off s = s.
Proof.
  revert off. induction s as [|c t IH]; intros off H; [reflexivity|].
  destruct H as [Hc Ht]. destruct (isSep c) eqn:E.
  - destruct (Hc eq_refl) as [-> Hns].
    rewrite collapseFrom_sep by assumption.
    rewrite (span_nonSepStart _ Hns). simpl fst. simpl snd. simpl List.length.
    rewrite Nat.add_0_r, (IH (S off)) by exact Ht.
    unfold sepFor. destruct (Nat.eqb off 0); reflexivity.
  - rewrite collapseFrom_other by assumption. rewrite (IH (S off)) by exact Ht.
    reflexivity.
Qed.

Lemma isSep_cases x : isSep x = true -> x = QMARK \/ x = AMP.
Proof.
  unfold isSep. intros H. apply orb_prop in H.
  destruct H as [H|H]; apply N.eqb_eq in H; auto.
Qed.

Lemma hit_any_sep m x y t :
  local m -> isSep x = true -> isSep y = true -> hit m (x :: t) = hit m (y :: t).
Proof.
  intros Hm Hx Hy. pose proof (loc_sep _ Hm t) as H.
  destruct (isSep_cases _ Hx) as [-> | ->], (isSep_cases _ Hy) as [-> | ->]; congruence.
Qed.

(** The last separator of a run, in front of what follows the run. *)
Lemma run_last c t :
  isSep c = true ->
  exists x, isSep x = true /\
            skipn (List.length (fst (span isSep t))) (c :: t) = x :: snd (span isSep t).
Proof.
  revert c. induction t as [|d t IH]; intros c Hc.
  - exists c. split; [assumption|reflexivity].
  - simpl span. destruct (isSep d) eqn:Ed.
    + destruct (IH d Ed) as [x [Hx Hs]]. exists x. split; [assumption|].
      destruct (span isSep t) as [a b]. simpl in *. exact Hs.
    + exists c. split; [assumption|reflexivity].
Qed.

Lemma hit_false_none m s : hit m s = false -> m s = None.
Proof. unfold hit. destruct (m s); [discriminate|reflexivity]. Qed.

Lemma none_hit_false m s : m s = None -> hit m s = false.
Proof. unfold hit. intros ->. reflexivity. Qed.

Lemma noHit_collapseFrom m off s :
  local m -> noHit m s -> noHit m (collapseFrom off s).
Proof.
  intros Hm.
  apply (collapseFrom_ind (fun _ s r => noHit m s -> noHit m r)).
  - trivial.
  - intros o c t E IH [Hc Ht]. split; [|auto].
    apply hit_false_none. rewrite (loc_cut _ Hm), collapseFrom_upToSep, <- (loc_cut _ Hm).
    apply none_hit_false. exact Hc.
  - intros o c t E n rest IH H.
    destruct (run_last c t E) as [x [Hx Hs]].
    pose proof (noHit_skipn m (List.length (fst (span isSep t))) _ H) as Hsuf.
    rewrite Hs in Hsuf. destruct Hsuf as [Hxr Hrest].
    destruct (sepFor_cons o) as [y [-> Hy]]. simpl app. split; [|apply IH; exact Hrest].
    apply hit_false_none.
    rewrite (loc_cut _ Hm), collapseFrom_upToSep, <- (loc_cut _ Hm).
    rewrite (hit_any_sep _ _ x _ Hm Hy Hx). apply none_hit_false. exact Hxr.
Qed.

(** ** The last replacement: a final [?] *)

Lemma trailingQmark_some s n : trailingQmark s = Some n -> s = [QMARK].
Proof.
  unfold trailingQmark, matchOf, seq, chr, oneOf, atEnd.
  destruct s as [|c [|d t]]; try discriminate.
  - destruct (N.eqb_spec QMARK c) as [<-|]; [reflexivity|discriminate].
  - destruct (N.eqb QMARK c); discriminate.
Qed.

Lemma replaceFirst_normal_rest off s :
  normalSeps false s -> replaceFirstFrom trailingQmark (fun _ _ => []) off s = s.
Proof.
  revert off. induction s as [|c t IH]; intros off H; [reflexivity|].
  cbn [replaceFirstFrom]. destruct (trailingQmark (c :: t)) as [n|] eqn:E.
  - apply trailingQmark_some in E. injection E as -> ->.
    destruct H as [Hc _]. destruct (Hc eq_refl) as [Hq _]. discriminate.
  - f_equal. apply IH. apply H.
Qed.

Lemma dropTrailingQmark_normal s :
  normalSeps true s -> s <> [QMARK] -> dropTrailingQmark s = s.
Proof.
  intros H Hne. unfold dropTrailingQmark. destruct s as [|c t]; [reflexivity|].
  cbn [replaceFirstFrom]. destruct (trailingQmark (c :: t)) as [n|] eqn:E.
  - apply trailingQmark_some in E. congruence.
  - f_equal. apply replaceFirst_normal_rest. apply H.
Qed.

(** ** [stripSizeConstraints] is idempotent *)

Lemma stripSizeConstraints_unfold u :
  stripSizeConstraints u =
  dropTrailingQmark (collapseFrom 0 (removeSeq removalPatterns u)).
Proof. reflexivity. Qed.

Lemma removalPatterns_local : Forall local removalPatterns.
Proof.
  unfold removalPatterns.
  repeat (apply Forall_cons;
          [first [ apply local_sizeSegment
                 | apply local_queryParam; vm_compute; repeat constructor ]|]).
  constructor.
Qed.

Lemma noHit_removeSeq m ms s :
  local m -> Forall local ms -> noHit m s -> noHit m (removeSeq ms s).
Proof.
  intros Hm Hms. revert s. induction Hms as [|m' ms Hm' Hms IH]; intros s H; [exact H|].
  simpl. apply IH. apply noHit_removeAll_other; assumption.
Qed.

Lemma removeSeq_noHit_all ms s :
  Forall local ms -> Forall (fun m => noHit m (removeSeq ms s)) ms.
Proof.
  intros Hms. revert s. induction Hms as [|m ms Hm Hms IH]; intros s; [constructor|].
  constructor.
  - simpl. apply noHit_removeSeq; [assumption..|]. apply noHit_removeAll_self. exact Hm.
  - apply IH.
Qed.

Lemma removeSeq_fixed ms s :
  Forall local ms -> Forall (fun m => noHit m s) ms -> removeSeq ms s = s.
Proof.
  intros Hms H. induction H as [|m ms Hm H IH]; [reflexivity|].
  inversion Hms; subst. simpl. rewrite removeAll_noHit by assumption. auto.
Qed.

Lemma stripSizeConstraints_idem u :
  stripSizeConstraints (stripSizeConstraints u) = stripSizeConstraints u.
Proof.
  rewrite (stripSizeConstraints_unfold u).
  set (r := collapseFrom 0 (removeSeq removalPatterns u)).
  assert (Hn : normalSeps true r) by apply (collapseFrom_normal 0).
  assert (Hh : Forall (fun m => noHit m r) removalPatterns).
  { pose proof (removeSeq_noHit_all removalPatterns u removalPatterns_local) as H.
    pose proof removalPatterns_local as L.
    rewrite Forall_forall in *. intros m Hin.
    apply noHit_collapseFrom; auto. }
  destruct (list_eq_dec N.eq_dec r [QMARK]) as [E|E].
  - rewrite E. reflexivity.
  - rewrite (dropTrailingQmark_normal r Hn E).
    rewrite stripSizeConstraints_unfold.
    rewrite (removeSeq_fixed _ _ removalPatterns_local Hh).
    rewrite (normal_collapseFrom 0) by exact Hn.
    apply dropTrailingQmark_normal; assumption.
Qed.

(** ** The quality selector *)

Lemma largestFrom_spec (A : Type) (areaOf : A -> Z) (cs : list A) maxArea best :
  let (m, b) := largestFrom areaOf cs maxArea best in
  (Forall (fun c => (areaOf c <= maxArea)%Z) cs /\ m = maxArea /\ b = best) \/
  (exists i c,
      nth_error cs i = Some c /\ b = Some c /\ m = areaOf c /\
      (maxArea < areaOf c)%Z /\
      Forall (fun c' => (areaOf c' <= areaOf c)%Z) cs /\
      forall j c', j < i -> nth_error cs j = Some c' -> (areaOf c' < areaOf c)%Z).
Proof.
  revert maxArea best. induction cs as [|c rest IH]; intros maxArea best.
  - left. repeat split. constructor.
  - cbn [largestFrom]. destruct (Z.ltb_spec maxArea (areaOf c)) as [Hlt|Hge].
    + specialize (IH (areaOf c) (Some c)).
      destruct (largestFrom areaOf rest (areaOf c) (Some c)) as [m b].
      destruct IH as [[Hall [-> ->]] | [i [c' [Hn [-> [-> [Hlt' [Hall Hfirst]]]]]]]].
      * right. exists 0, c. repeat split; try assumption; try reflexivity.
        -- constructor; [lia|assumption].
        -- intros j c' Hj. lia.
      * right. exists (S i), c'. repeat split; try assumption; try reflexivity.
        -- lia.
        -- constructor; [lia|assumption].
        -- intros [|j] c'' Hj Hn'; simpl in Hn'.
           ++ injection Hn' as <-. exact Hlt'.
           ++ apply (Hfirst j); [lia|assumption].
    + specialize (IH maxArea best).
      destruct (largestFrom areaOf rest maxArea best) as [m b].
      destruct IH as [[Hall [-> ->]] | [i [c' [Hn [-> [-> [Hlt' [Hall Hfirst]]]]]]]].
      * left. repeat split. constructor; assumption.
      * right. exists (S i), c'. repeat split; try assumption; try reflexivity.
        -- constructor; [lia|assumption].
        -- intros [|j] c'' Hj Hn'; simpl in Hn'.
           ++ injection Hn' as <-. lia.
           ++ apply (Hfirst j); [lia|assumption].
Qed.

(** Below 2^53 the product of two integers is exact. *)
Lemma toDouble_exact z : (z < 2 ^ 53)%Z -> toDouble z = Num z.
Proof.
  intros H. unfold toDouble, roundDouble.
  destruct (Z.ltb_spec z (2 ^ 53)) as [_|]; [|lia].
  destruct (Z.ltb_spec z (2 ^ 1024)) as [_|Hge]; [reflexivity|].
  assert ((2 ^ 53 < 2 ^ 1024)%Z) by (apply Z.pow_lt_mono_r; lia). lia.
Qed.

Lemma mul_exact x y :
  (Z.abs (x * y) < 2 ^ 53)%Z -> mul (Num x) (Num y) = Num (x * y).
Proof.
  intros H. unfold mul. destruct (Z.ltb_spec (x * y) 0).
  - rewrite toDouble_exact by lia. simpl. f_equal. lia.
  - apply toDouble_exact. lia.
Qed.

#[local] Arguments mul : simpl never.
#[local] Arguments gt : simpl never.
#[local] Arguments area : simpl never.

Section Selector.

Variable T : json -> number.

(** One turn of the loop on a candidate that has an address. *)
Lemma scanResources_cons r rest maxR best :
  src r <> [] ->
  scanResources T (resourceJson r :: rest) maxR best =
  match config_width r, config_height r with
  | Some w, Some h =>
      if negb (w =? 0)%Z && negb (h =? 0)%Z then
        if gt (mul (Num w) (Num h)) maxR
        then scanResources T rest (mul (Num w) (Num h)) (Some (resourceJson r))
        else scanResources T rest maxR best
      else scanResources T rest maxR best
  | _, _ => scanResources T rest maxR best
  end.
Proof.
  destruct r as [[|c s] [w|] [h|]]; cbn; try congruence; intros _;
    try reflexivity.
  - destruct (w =? 0)%Z; cbn; [reflexivity|]. destruct (h =? 0)%Z; reflexivity.
  - destruct (w =? 0)%Z; reflexivity.
Qed.

(** On candidates with an address and exact areas, the loop is
    [largestFrom]. *)
Lemma scanResources_refines rs :
  Forall (fun r => src r <> []) rs ->
  Forall exactArea rs ->
  forall maxArea best,
    (0 <= maxArea)%Z ->
    scanResources T (map resourceJson rs) (Num maxArea) (option_map resourceJson best) =
    let (m, b) := largestFrom area rs maxArea best in
    Ok (Num m, option_map resourceJson b).
Proof.
  intros Hsrc Hex. induction rs as [|r rest IH]; intros maxArea best Hpos.
  - reflexivity.
  - inversion Hsrc as [|? ? Hs Hsrc']; subst. inversion Hex as [|? ? He Hex']; subst.
    specialize (IH Hsrc' Hex').
    cbn [map largestFrom]. rewrite scanResources_cons by assumption.
    unfold exactArea in He.
    destruct r as [s [w|] [h|]]; cbn [config_width config_height] in *;
      [ change (area {| src := s; config_width := Some w; config_height := Some h |})
          with (w * h)%Z
      | change (area {| src := s; config_width := Some w; config_height := None |})
          with 0%Z
      | change (area {| src := s; config_width := None; config_height := Some h |})
          with 0%Z
      | change (area {| src := s; config_width := None; config_height := None |})
          with 0%Z ].
    + destruct (Z.eqb_spec w 0) as [->|Hw]; cbn [negb andb].
      { rewrite Z.mul_0_l. destruct (Z.ltb_spec maxArea 0); [lia|]. apply IH. exact Hpos. }
      destruct (Z.eqb_spec h 0) as [->|Hh]; cbn [negb andb].
      { rewrite Z.mul_0_r. destruct (Z.ltb_spec maxArea 0); [lia|]. apply IH. exact Hpos. }
      rewrite mul_exact by assumption. unfold gt.
      destruct (Z.ltb_spec maxArea (w * h)).
      * apply (IH (w * h)%Z (Some {| src := s; config_width := Some w;
                                     config_height := Some h |})). lia.
      * apply IH. exact Hpos.
    + destruct (Z.ltb_spec maxArea 0); [lia|]. apply IH. exact Hpos.
    + destruct (Z.ltb_spec maxArea 0); [lia|]. apply IH. exact Hpos.
    + destruct (Z.ltb_spec maxArea 0); [lia|]. apply IH. exact Hpos.
Qed.

End Selector.

Lemma scanMatches_refines ms :
  Forall (fun m => let '(_, w, h) := m in
                   (parseDigits 10 w < 2 ^ 53)%Z /\ (parseDigits 10 h < 2 ^ 53)%Z /\
                   (Z.abs (matchArea m) < 2 ^ 53)%Z) ms ->
  forall maxArea best,
    scanMatches ms (Num maxArea) (option_map (fun m => fst (fst m)) best) =
    let (m, b) := largestFrom matchArea ms maxArea best in
    (Num m, option_map (fun m => fst (fst m)) b).
Proof.
  induction 1 as [|[[s w] h] rest [Hw [Hh Hwh]] Hrest IH]; intros maxArea best.
  - reflexivity.
  - cbn [scanMatches largestFrom]. unfold parseInt.
    rewrite !toDouble_exact by assumption.
    unfold matchArea in Hwh. rewrite mul_exact by assumption.
    unfold gt. cbn [matchArea].
    destruct (Z.ltb_spec maxArea (parseDigits 10 w * parseDigits 10 h)).
    + apply (IH _ (Some (s, w, h))).
    + apply IH.
Qed.

(** ** The quality selector on every candidate set *)

Section SelectorAll.

Variable T : json -> number.

(** A candidate without an address is passed over. *)
Lemma scanResources_cons_nosrc r rest maxR best :
  src r = [] ->
  scanResources T (resourceJson r :: rest) maxR best = scanResources T rest maxR best.
Proof.
  destruct r as [s w h]. cbn [src]. intros ->. reflexivity.
Qed.

Lemma scanResources_refines_all rs :
  Forall exactArea rs ->
  forall maxArea best,
    (0 <= maxArea)%Z ->
    scanResources T (map resourceJson rs) (Num maxArea) (option_map resourceJson best) =
    let (m, b) := largestFrom eligibleArea rs maxArea best in
    Ok (Num m, option_map resourceJson b).
Proof.
  intros Hex. induction rs as [|r rest IH]; intros maxArea best Hpos.
  - reflexivity.
  - inversion Hex as [|? ? He Hex']; subst. specialize (IH Hex').
    cbn [map largestFrom].
    destruct (src r) as [|c s] eqn:Es.
    + assert (Ea : eligibleArea r = 0%Z) by (unfold eligibleArea; rewrite Es; reflexivity).
      rewrite Ea, scanResources_cons_nosrc by exact Es.
      destruct (Z.ltb_spec maxArea 0); [lia|]. apply IH. exact Hpos.
    + assert (Ea : eligibleArea r = area r)
        by (unfold eligibleArea; rewrite Es; reflexivity).
      rewrite Ea, scanResources_cons by (rewrite Es; discriminate).
      unfold exactArea in He.
      assert (Ear : area r = match config_width r, config_height r with
                             | Some w, Some h => (w * h)%Z
                             | _, _ => 0%Z
                             end) by reflexivity.
      rewrite Ear. clear Ea Ear.
      destruct (config_width r) as [w|]; destruct (config_height r) as [h|].
      * destruct (Z.eqb_spec w 0) as [->|Hw]; cbn [negb andb].
        { rewrite Z.mul_0_l. destruct (Z.ltb_spec maxArea 0); [lia|].
          apply IH. exact Hpos. }
        destruct (Z.eqb_spec h 0) as [->|Hh]; cbn [negb andb].
        { rewrite Z.mul_0_r. destruct (Z.ltb_spec maxArea 0); [lia|].
          apply IH. exact Hpos. }
        rewrite mul_exact by assumption. unfold gt.
        destruct (Z.ltb_spec maxArea (w * h)).
        -- apply (IH (w * h)%Z (Some r)). lia.
        -- apply IH. exact Hpos.
      * destruct (Z.ltb_spec maxArea 0); [lia|]. apply IH. exact Hpos.
      * destruct (Z.ltb_spec maxArea 0); [lia|]. apply IH. exact Hpos.
      * destruct (Z.ltb_spec maxArea 0); [lia|]. apply IH. exact Hpos.
Qed.

(** With a candidate of positive area that has an address, the selector
    returns the first candidate of largest area among those with an
    address. *)
Lemma pickResource_largest rs :
  Forall exactArea rs ->
  Exists (fun r => src r <> [] /\ (0 < area r)%Z) rs ->
  exists i best,
    nth_error rs i = Some best /\ src best <> [] /\
    pickResource T (map resourceJson rs) = Ok (Some (resourceJson best)) /\
    Forall (fun r => src r <> [] -> (area r <= area best)%Z) rs /\
    (forall j r, j < i -> nth_error rs j = Some r -> src r <> [] ->
                 (area r < area best)%Z).
Proof.
  intros Hex Hpos. unfold pickResource.
  pose proof (scanResources_refines_all rs Hex 0%Z None (Z.le_refl 0)) as Hscan.
  cbn [option_map] in Hscan. rewrite Hscan.
  pose proof (largestFrom_spec _ eligibleArea rs 0%Z None) as Hspec.
  destruct (largestFrom eligibleArea rs 0 None) as [m b].
  assert (Hel : forall r, src r <> [] -> eligibleArea r = area r).
  { intros r Hr. unfold eligibleArea. destruct (src r); [congruence|reflexivity]. }
  destruct Hspec as [[Hall _] | [i [c [Hn [-> [-> [Hlt [Hall Hfirst]]]]]]]].
  - exfalso. apply Exists_exists in Hpos. destruct Hpos as [r [Hin [Hs Hr]]].
    rewrite Forall_forall in Hall. specialize (Hall r Hin).
    rewrite (Hel r Hs) in Hall. lia.
  - assert (Hc : src c <> []).
    { intros E. unfold eligibleArea in Hlt. rewrite E in Hlt. cbn in Hlt. lia. }
    exists i, c. rewrite (Hel c Hc) in *. repeat split; try assumption.
    + eapply Forall_impl; [|exact Hall]. intros r Hr Hs. cbv beta in Hr.
      rewrite (Hel r Hs) in Hr. exact Hr.
    + intros j r Hj Hnj Hs. specialize (Hfirst j r Hj Hnj).
      rewrite (Hel r Hs) in Hfirst. exact Hfirst.
Qed.

(** Without one, the selector falls back to the last candidate, if it has
    an address. *)
Lemma pickResource_fallback front l :
  Forall exactArea (front ++ [l]) ->
  Forall (fun r => src r = [] \/ (area r <= 0)%Z) (front ++ [l]) ->
  pickResource T (map resourceJson (front ++ [l])) =
  Ok (if truthy (src l) then Some (resourceJson l) else None).
Proof.
  intros Hex Hz. unfold pickResource.
  pose proof (scanResources_refines_all _ Hex 0%Z None (Z.le_refl 0)) as Hscan.
  cbn [option_map] in Hscan. rewrite Hscan.
  pose proof (largestFrom_spec _ eligibleArea (front ++ [l]) 0%Z None) as Hspec.
  destruct (largestFrom eligibleArea (front ++ [l]) 0 None) as [m b].
  destruct Hspec as [[_ [-> ->]] | [i [c [Hn [_ [_ [Hlt _]]]]]]].
  - cbn [bind snd option_map Value.truthy].
    rewrite length_map, length_app. cbn [List.length].
    replace (List.length front + 1 - 1) with (List.length front) by lia.
    rewrite map_app, nth_error_app2 by (rewrite length_map; lia).
    rewrite length_map, Nat.sub_diag. cbn [map nth_error].
    destruct l as [s w h]. cbn [src]. destruct s; reflexivity.
  - exfalso. apply nth_error_In in Hn. rewrite Forall_forall in Hz.
    specialize (Hz c Hn). unfold eligibleArea in Hlt.
    destruct (src c); cbn [truthy] in Hlt; [lia|].
    destruct Hz as [Hz|Hz]; [discriminate|lia].
Qed.

End SelectorAll.

(** ** The selector of the inline scan *)

Lemma scanMatches_none ms :
  Forall (fun m => let '(_, w, h) := m in
                   (parseDigits 10 w < 2 ^ 53)%Z /\ (parseDigits 10 h < 2 ^ 53)%Z /\
                   (Z.abs (matchArea m) < 2 ^ 53)%Z) ms ->
  Forall (fun m => (matchArea m <= 0)%Z) ms ->
  snd (scanMatches ms (Num 0) None) = None.
Proof.
  intros Hex Hz.
  pose proof (scanMatches_refines ms Hex 0%Z None) as Hscan.
  cbn [option_map] in Hscan. rewrite Hscan.
  pose proof (largestFrom_spec _ matchArea ms 0%Z None) as Hspec.
  destruct (largestFrom matchArea ms 0 None) as [m b].
  destruct Hspec as [[_ [_ ->]] | [i [c [Hn [_ [_ [Hlt _]]]]]]]; [reflexivity|].
  exfalso. apply nth_error_In in Hn. rewrite Forall_forall in Hz.
  specialize (Hz c Hn). lia.
Qed.

Lemma scanMatches_largest ms :
  Forall (fun m => let '(_, w, h) := m in
                   (parseDigits 10 w < 2 ^ 53)%Z /\ (parseDigits 10 h < 2 ^ 53)%Z /\
                   (Z.abs (matchArea m) < 2 ^ 53)%Z) ms ->
  Exists (fun m => (0 < matchArea m)%Z) ms ->
  exists i best,
    nth_error ms i = Some best /\
    snd (scanMatches ms (Num 0) None) = Some (fst (fst best)) /\
    Forall (fun m => (matchArea m <= matchArea best)%Z) ms /\
    (forall j m, j < i -> nth_error ms j = Some m -> (matchArea m < matchArea best)%Z).
Proof.
  intros Hex Hpos.
  pose proof (scanMatches_refines ms Hex 0%Z None) as Hscan.
  cbn [option_map] in Hscan. rewrite Hscan.
  pose proof (largestFrom_spec _ matchArea ms 0%Z None) as Hspec.
  destruct (largestFrom matchArea ms 0 None) as [m b].
  destruct Hspec as [[Hall _] | [i [c [Hn [-> [-> [Hlt [Hall Hfirst]]]]]]]].
  - exfalso. apply Exists_exists in Hpos. destruct Hpos as [r [Hin Hr]].
    rewrite Forall_forall in Hall. specialize (Hall r Hin). lia.
  - exists i, c. repeat split; assumption.
Qed.

(** What [highQualityFrom] does with the first array it finds. *)
Lemma highQualityFrom_sized pattern rest html inner ms :
  pattern html = Some inner ->
  matchAll resourceEntry inner = ms -> ms <> [] ->
  highQualityFrom (pattern :: rest) html =
  match snd (scanMatches ms (Num 0) None) with
  | Some bestUrl => Some (decodeUrlEntities (unescapeUrl bestUrl))
  | None => highQualityFrom rest html
  end.
Proof.
  intros Hp Hm Hne. cbn [highQualityFrom]. rewrite Hp, Hm.
  destruct ms; [congruence|reflexivity].
Qed.

Lemma highQualityFrom_sizeless pattern rest html inner front u :
  pattern html = Some inner ->
  matchAll resourceEntry inner = [] ->
  matchAll (stringAfter (quoted "src" ++ lit ":" ++ [DQUOTE])) inner = front ++ [u] ->
  highQualityFrom (pattern :: rest) html = Some (decodeUrlEntities (unescapeUrl u)).
Proof.
  intros Hp Hm Hu. cbn [highQualityFrom]. rewrite Hp, Hm, Hu.
  rewrite rev_app_distr. reflexivity.
Qed.

(** ** Files of the muxer *)

Lemma str_eqb_refl a : str_eqb a a = true.
Proof. apply str_eqb_eq. reflexivity. Qed.

Lemma existsSync_unlinkSync p q fs :
  existsSync p (unlinkSync q fs) = existsSync p fs && negb (str_eqb q p).
Proof.
  unfold existsSync, unlinkSync. induction fs as [|x fs IH]; [reflexivity|].
  simpl. destruct (str_eqb q x) eqn:Eq; simpl.
  - rewrite IH. apply str_eqb_eq in Eq. subst x.
    destruct (str_eqb p q) eqn:Ep; [|reflexivity].
    apply str_eqb_eq in Ep. subst q. rewrite str_eqb_refl. simpl.
    rewrite andb_false_r. reflexivity.
  - rewrite IH. destruct (str_eqb p x) eqn:Ep; [|reflexivity].
    apply str_eqb_eq in Ep. subst x. rewrite Eq. reflexivity.
Qed.

Lemma existsSync_unlink_same p fs : existsSync p (unlinkSync p fs) = false.
Proof. rewrite existsSync_unlinkSync, str_eqb_refl. apply andb_false_r. Qed.

Lemma unlinkIfExists_gone p st : existsSync p (fst (unlinkIfExists p st)) = false.
Proof.
  destruct st as [fs ev]. unfold unlinkIfExists.
  destruct (existsSync p fs) eqn:E; simpl; [apply existsSync_unlink_same|exact E].
Qed.

Lemma unlinkIfExists_keeps_gone p q st :
  existsSync p (fst st) = false -> existsSync p (fst (unlinkIfExists q st)) = false.
Proof.
  destruct st as [fs ev]. unfold unlinkIfExists. simpl. intros H.
  destruct (existsSync q fs); simpl; [|exact H].
  rewrite existsSync_unlinkSync, H. reflexivity.
Qed.

Section MuxerProps.

Variable md5hex : jsstring -> jsstring.
Variables TEMP_DIR BASE_URL : jsstring.

(** When ffmpeg fails after both downloads, the promise rejects and none of
    the three files is left. *)
Lemma mergeVideoAudio_ffmpeg_failure o videoUrl audioUrl instagramUrl fs :
  existsSync (outputPathOf md5hex TEMP_DIR instagramUrl) fs = false ->
  downloadOk o videoUrl = true ->
  downloadOk o audioUrl = true ->
  ffmpegOk o = false ->
  let '(result, fs', _) :=
    mergeVideoAudio md5hex TEMP_DIR o videoUrl audioUrl instagramUrl fs in
  result = Throw /\
  existsSync (videoPathOf md5hex TEMP_DIR instagramUrl) fs' = false /\
  existsSync (audioPathOf md5hex TEMP_DIR instagramUrl) fs' = false /\
  existsSync (outputPathOf md5hex TEMP_DIR instagramUrl) fs' = false.
Proof.
  intros Hout Hv Ha Hf. unfold mergeVideoAudio.
  rewrite Hout, Hv, Ha, Hf. cbn [negb].
  match goal with
  | |- context [unlinkIfExists ?o (unlinkIfExists ?a (unlinkIfExists ?v ?st))] =>
      pose proof (unlinkIfExists_gone v st) as Gv;
      pose proof (unlinkIfExists_gone a (unlinkIfExists v st)) as Ga;
      pose proof (unlinkIfExists_gone o (unlinkIfExists a (unlinkIfExists v st))) as Go;
      pose proof (unlinkIfExists_keeps_gone v a _ Gv) as Gv';
      pose proof (unlinkIfExists_keeps_gone v o _ Gv') as Gv'';
      pose proof (unlinkIfExists_keeps_gone a o _ Ga) as Ga';
      destruct (unlinkIfExists o (unlinkIfExists a (unlinkIfExists v st))) as [fs' ev]
  end.
  simpl in *. auto.
Qed.

(** Whenever the merge rejects, the fallback returns the video-only record
    with the cleaned address of the selected video. *)
Lemma afterClose_merge_failure env url fs videoUrls audio0 audios thumb best :
  classify (responses env) [] [] None = (videoUrls, audio0 :: audios, thumb) ->
  bestVideoUrl videoUrls = Some best ->
  fst (fst (mergeVideoAudio md5hex TEMP_DIR (muxOracle env)
              (cleanUrlStr best) (cleanUrlStr audio0) url fs)) = Throw ->
  fst (fst (afterClose md5hex TEMP_DIR BASE_URL env url fs))
  = Some (videoRecord env (cleanUrlStr best) thumb).
Proof.
  intros Hc Hb Hm. unfold afterClose. rewrite Hc, Hb.
  destruct (mergeVideoAudio md5hex TEMP_DIR (muxOracle env)
              (cleanUrlStr best) (cleanUrlStr audio0) url fs) as [[result fs'] ev].
  simpl in Hm. subst result. reflexivity.
Qed.


(** When the browser does its part, the function returns what the code
    after the close computes: a rejected merge does not fail the call. *)
Lemma extractWithPuppeteer_returns env url fs :
  resolves env Launch = true ->
  forallb (resolves env) pageSteps = true ->
  closeResolves env 0 = true ->
  fst (fst (fst (extractWithPuppeteer md5hex TEMP_DIR BASE_URL env url fs)))
  = Ok (fst (fst (afterClose md5hex TEMP_DIR BASE_URL env url fs))).
Proof.
  intros Hl Hs Hc. unfold extractWithPuppeteer, closeBrowser.
  rewrite Hl, Hs. cbn [negb closeCalls]. rewrite Hc.
  destruct (afterClose md5hex TEMP_DIR BASE_URL env url fs) as [[result fs'] ev].
  reflexivity.
Qed.

End MuxerProps.

(** ** The handler *)

Section HandlerProps.

Variable T : json -> number.
Variable JP : jsstring -> option json.
Variable jsonLd : jsstring -> option MediaRecord -> option MediaRecord.
Variable sharedData : jsstring -> jsstring -> option MediaRecord -> option MediaRecord.
Variable metaTags : jsstring -> option MediaRecord.
Variable pup : jsstring -> res (option MediaRecord).
Variable now : Z.

(** Candidates that do not parse leave [postData] alone; the first one that
    yields a media URL ends the loop. *)
Lemma scanCandidates_skips bads good rest data r postData :
  Forall (fun c => JP c = None) bads ->
  JP good = Some data ->
  extractFromRequireData T data = Some r ->
  hasMediaUrl (Some r) = true ->
  scanCandidates T JP (bads ++ good :: rest) postData = Some r.
Proof.
  intros Hbad Hgood Hdata Hurl.
  induction Hbad as [|b bads Hb Hbad IH]; cbn [app scanCandidates].
  - rewrite Hgood, Hdata, Hurl. reflexivity.
  - rewrite Hb. exact IH.
Qed.

(** Once a strategy has found a media URL, the later ones are not run. *)
Lemma runStrategies_found_by_scripts url html r :
  inlineFieldScan html = Ok None ->
  scriptJsonScan T JP html None = Some r ->
  hasMediaUrl (Some r) = true ->
  runStrategies T JP jsonLd sharedData metaTags url html = Ok (Some r).
Proof.
  intros H1 H2 Hurl. unfold runStrategies. rewrite H1. cbn [bind hasMediaUrl].
  rewrite H2. repeat rewrite Hurl. reflexivity.
Qed.

Lemma videoFallback_not_triggered url postData :
  isVideoUrl url && isImage postData = false ->
  videoFallback pup url postData = (postData, []).
Proof. intros H. unfold videoFallback. rewrite H. reflexivity. Qed.

Lemma videoFallback_called url r :
  isVideoUrl url = true -> mediaType r = image ->
  snd (videoFallback pup url (Some r)) = [CallPuppeteer url].
Proof.
  intros Hu Hr. unfold videoFallback, isImage. rewrite Hu, Hr. cbn [andb].
  destruct (pup url) as [[p|]|]; try reflexivity.
  destruct (hasMediaUrl (Some p) && isVideo p); reflexivity.
Qed.

Lemma videoFallback_replaces url r p :
  isVideoUrl url = true -> mediaType r = image ->
  pup url = Ok (Some p) -> hasMediaUrl (Some p) = true -> mediaType p = video ->
  videoFallback pup url (Some r) = (Some p, [CallPuppeteer url]).
Proof.
  intros Hu Hr Hp Hm Hv. unfold videoFallback, isImage, isVideo.
  rewrite Hu, Hr, Hp, Hm, Hv. reflexivity.
Qed.

End HandlerProps.

(** ** The script scan passes over what does not parse *)

Section ScriptScan.

Variable T : json -> number.
Variable JP : jsstring -> option json.

Lemma scanCandidates_all_malformed cs postData :
  Forall (fun c => JP c = None) cs -> scanCandidates T JP cs postData = postData.
Proof.
  induction 1 as [|c cs Hc _ IH]; [reflexivity|].
  cbn [scanCandidates]. rewrite Hc. exact IH.
Qed.

(** Script tags without a marker, or whose candidates are all rejected by
    [JSON.parse], leave the scan where it was. *)
Lemma scanScripts_skip before rest postData :
  Forall (fun s =>
            includes (lit "video_url") s || includes (lit "display_url") s = false \/
            Forall (fun c => JP c = None) (matchAll jsonCandidate s)) before ->
  hasMediaUrl postData = false ->
  scanScripts T JP (before ++ rest) postData = scanScripts T JP rest postData.
Proof.
  intros Hb Hpd. induction Hb as [|s before Hs _ IH]; [reflexivity|].
  cbn [app scanScripts].
  destruct (includes (lit "video_url") s || includes (lit "display_url") s) eqn:Em;
    [|exact IH].
  destruct Hs as [Hs|Hs]; [discriminate|].
  rewrite (scanCandidates_all_malformed _ postData Hs), Hpd. exact IH.
Qed.

Lemma scanScripts_found before script after bads good rest data r :
  Forall (fun s =>
            includes (lit "video_url") s || includes (lit "display_url") s = false \/
            Forall (fun c => JP c = None) (matchAll jsonCandidate s)) before ->
  includes (lit "video_url") script || includes (lit "display_url") script = true ->
  matchAll jsonCandidate script = bads ++ good :: rest ->
  Forall (fun c => JP c = None) bads ->
  JP good = Some data ->
  extractFromRequireData T data = Some r ->
  hasMediaUrl (Some r) = true ->
  scanScripts T JP (before ++ script :: after) None = Some r.
Proof.
  intros Hb Hm Hc Hbad Hgood Hdata Hurl.
  rewrite (scanScripts_skip before (script :: after) None Hb eq_refl).
  cbn [scanScripts]. rewrite Hm, Hc.
  rewrite (scanCandidates_skips T JP bads good rest data r None Hbad Hgood Hdata Hurl).
  rewrite Hurl. reflexivity.
Qed.

Lemma scanScripts_nothing scripts :
  Forall (fun s =>
            includes (lit "video_url") s || includes (lit "display_url") s = false \/
            Forall (fun c => JP c = None) (matchAll jsonCandidate s)) scripts ->
  scanScripts T JP scripts None = None.
Proof.
  intros H. rewrite <- (app_nil_r scripts).
  rewrite (scanScripts_skip scripts [] None H eq_refl). reflexivity.
Qed.

End ScriptScan.

(** ** The inline scan prefers the video field *)

Lemma firstMatch_some (A : Type) (f : jsstring -> option A) s a :
  firstMatch f s = Some a -> exists t, f t = Some a.
Proof.
  induction s as [|c s IH]; cbn [firstMatch]; destruct (f _) eqn:E; intros H.
  - injection H as <-. eauto.
  - discriminate.
  - injection H as <-. eauto.
  - auto.
Qed.

Lemma capture_many1_nonempty p s text r :
  capture (many1 p) s = Some (text, r) -> text <> [].
Proof.
  unfold capture, many1. pose proof (span_app p s) as Happ.
  destruct (span p s) as [[|c a] b]; [discriminate|].
  cbn [fst snd] in Happ. intros [= <- <-]. subst s.
  rewrite length_app.
  replace (List.length (c :: a) + List.length b - List.length b)
    with (List.length (c :: a)) by lia.
  rewrite firstn_app, Nat.sub_diag, firstn_all. discriminate.
Qed.

Lemma stringAfter_nonempty prefix s text n :
  stringAfter prefix s = Some (text, n) -> text <> [].
Proof.
  unfold stringAfter. destruct (lits prefix s) as [r1|]; [|discriminate].
  destruct (capture (many1 notQuote) r1) as [[t r2]|] eqn:E; [|discriminate].
  destruct (chr DQUOTE r2); [|discriminate].
  intros [= <- _]. eapply capture_many1_nonempty. exact E.
Qed.

Lemma stringField_nonempty name html v : stringField name html = Some v -> v <> [].
Proof.
  unfold stringField. intros H. apply firstMatch_some in H. destruct H as [t H].
  destruct (stringAfter _ t) as [[text n]|] eqn:E; [|discriminate].
  injection H as <-. eapply stringAfter_nonempty. exact E.
Qed.

Lemma videoVersionsUrl_nonempty html v : videoVersionsUrl html = Some v -> v <> [].
Proof.
  unfold videoVersionsUrl. intros H. apply firstMatch_some in H. destruct H as [t H].
  destruct (stringAfter _ t) as [[text n]|] eqn:E; [|discriminate].
  injection H as <-. eapply stringAfter_nonempty. exact E.
Qed.

(** A replacement by a non-empty text never empties a string. *)
Lemma replaceAllWith_nonempty m r s : r <> [] -> s <> [] -> replaceAllWith m r s <> [].
Proof.
  intros Hr Hs. destruct s as [|c t]; [congruence|].
  unfold replaceAllWith, replaceAll. cbn [replaceFrom].
  destruct (m (c :: t)) as [[|n]|]; destruct r; try congruence; discriminate.
Qed.

Lemma decodeUrlPass_nonempty s : s <> [] -> decodeUrlPass s <> [].
Proof.
  intros H. unfold decodeUrlPass. cbv zeta.
  repeat (apply replaceAllWith_nonempty; [discriminate|]). exact H.
Qed.

Lemma decodeUrlLoop_nonempty fuel s : s <> [] -> decodeUrlLoop fuel s <> [].
Proof.
  revert s. induction fuel as [|fuel IH]; intros s H; [exact H|].
  cbn [decodeUrlLoop]. destruct (str_eqb (decodeUrlPass s) s).
  - apply decodeUrlPass_nonempty. exact H.
  - apply IH, decodeUrlPass_nonempty. exact H.
Qed.

Lemma decodeUrlEntities_nonempty s : s <> [] -> decodeUrlEntities s <> [].
Proof.
  intros H. unfold decodeUrlEntities. destruct s as [|c t]; [congruence|].
  apply decodeUrlLoop_nonempty. discriminate.
Qed.

Lemma unescapeUrl_nonempty s : s <> [] -> unescapeUrl s <> [].
Proof.
  intros H. unfold unescapeUrl, unescapeAmpSlash.
  repeat (apply replaceAllWith_nonempty; [discriminate|]). exact H.
Qed.

(** With a video field in the page, and a capture time that is absent or
    within the range of dates, the inline scan returns a video record whose
    media URL is the video field, unescaped and decoded and not stripped;
    the display field only serves as thumbnail. *)
Lemma inlineFieldScan_video_priority html v :
  orElse (stringField "video_url" html)
         (orElse (stringField "playback_url" html) (videoVersionsUrl html)) = Some v ->
  match takenAtTimestamp html with
  | Some digits => exists ts, isoDate (mul (parseInt digits) (Num 1000)) = Ok ts
  | None => True
  end ->
  exists r,
    inlineFieldScan html = Ok (Some r) /\
    mediaType r = video /\
    mediaUrl r = Some (decodeUrlEntities (unescapeUrl v)) /\
    thumbnailUrl r =
      Some (decodeUrlEntities
              (unescapeAmpSlash
                 (match orElse (stringField "display_url" html)
                               (stringField "thumbnail_src" html) with
                  | Some t => t
                  | None => decodeUrlEntities (unescapeUrl v)
                  end))).
Proof.
  intros Hv Hts.
  assert (Hne : v <> []).
  { unfold orElse in Hv.
    destruct (stringField "video_url" html) eqn:E1.
    - injection Hv as <-. eapply stringField_nonempty. exact E1.
    - destruct (stringField "playback_url" html) eqn:E2.
      + injection Hv as <-. eapply stringField_nonempty. exact E2.
      + eapply videoVersionsUrl_nonempty. exact Hv. }
  assert (Ht : Js.truthy (decodeUrlEntities (unescapeUrl v)) = true).
  { pose proof (decodeUrlEntities_nonempty _ (unescapeUrl_nonempty _ Hne)) as H.
    destruct (decodeUrlEntities (unescapeUrl v)); [congruence|reflexivity]. }
  unfold inlineFieldScan. cbv zeta. rewrite Hv. cbn [orElse]. rewrite Ht.
  destruct (takenAtTimestamp html) as [digits|].
  - destruct Hts as [ts Hts]. rewrite Hts. cbn [bind].
    eexists. split; [reflexivity|]. repeat split.
  - cbn [bind]. eexists. split; [reflexivity|]. repeat split.
Qed.

(** ** The candidate expression: the fuel of the repeated group is enough *)

Lemma oneOf_shorter p s r : oneOf p s = Some r -> List.length s = S (List.length r).
Proof.
  unfold oneOf. destruct s as [|c t]; [discriminate|].
  destruct (p c); [|discriminate]. intros [= <-]. reflexivity.
Qed.

Lemma many0_shorter p s r : many0 p s = Some r -> List.length r <= List.length s.
Proof. unfold many0. intros [= <-]. apply span_snd_length. Qed.

Lemma group_shorter s r :
  (chr 123 ;; many0 notBrace ;; chr 125 ;; many0 notBrace) s = Some r ->
  List.length r < List.length s.
Proof.
  unfold seq, chr.
  destruct (oneOf (N.eqb 123) s) as [r1|] eqn:E1; [|discriminate].
  destruct (many0 notBrace r1) as [r2|] eqn:E2; [|discriminate].
  destruct (oneOf (N.eqb 125) r2) as [r3|] eqn:E3; [|discriminate].
  intros E4.
  apply oneOf_shorter in E1, E3. apply many0_shorter in E2, E4. lia.
Qed.

(** After [innerObjects] the group matches no more: the loop of the model
    stops where the greedy star of the expression stops. *)
Lemma innerObjects_fuel_enough fuel s :
  List.length s <= fuel ->
  (chr 123 ;; many0 notBrace ;; chr 125 ;; many0 notBrace) (innerObjects fuel s) = None.
Proof.
  revert s. induction fuel as [|fuel IH]; intros s Hle.
  - destruct s; [reflexivity|simpl in Hle; lia].
  - cbn [innerObjects].
    destruct ((chr 123 ;; many0 notBrace ;; chr 125 ;; many0 notBrace) s) as [r|] eqn:E.
    + apply IH. apply group_shorter in E. lia.
    + exact E.
Qed.

(** ** More on the normalisation functions *)

Lemma replaceFrom_noHit m f off s :
  m [] = None -> noHit m s -> replaceFrom m f off 0 s = s.
Proof.
  intros Hnil. revert off. induction s as [|c t IH]; intros off H.
  - simpl. rewrite Hnil. reflexivity.
  - destruct H as [E H]. cbn [replaceFrom]. rewrite E. f_equal. apply IH. exact H.
Qed.

Lemma replaceFirstFrom_noHit m f off s :
  m [] = None -> noHit m s -> replaceFirstFrom m f off s = s.
Proof.
  intros Hnil. revert off. induction s as [|c t IH]; intros off H.
  - simpl. rewrite Hnil. reflexivity.
  - destruct H as [E H]. cbn [replaceFirstFrom]. rewrite E. f_equal. apply IH. exact H.
Qed.

(** A replacement that changes nothing had nothing to replace. *)
Lemma unchanged_noHit_from m r s :
  shrinking m r ->
  forall off, replaceFrom m (fun _ _ => r) off 0 s = s -> noHit m s.
Proof.
  intros Hm. induction s as [|c t IH]; intros off H; [exact I|].
  cbn [replaceFrom] in H. destruct (m (c :: t)) as [[|n]|] eqn:E.
  - apply (proj2 Hm) in E. lia.
  - exfalso. pose proof (proj2 Hm _ _ E) as L.
    pose proof (replaceFrom_length m r Hm (S off) n t) as L'.
    apply (f_equal (@List.length N)) in H. rewrite length_app in H.
    cbn [List.length] in *. lia.
  - injection H as H. split; [exact E|]. apply (IH (S off)). exact H.
Qed.

Lemma unchanged_noHit m r s :
  shrinking m r -> replaceAllWith m r s = s -> noHit m s.
Proof. intros Hm H. apply (unchanged_noHit_from m r s Hm 0). exact H. Qed.

(** The matches of a pattern are among the matches of the same pattern
    under the [i] flag. *)
Lemma startsWith_prefix_ci p s : startsWith p s = true -> prefix_ci p s = true.
Proof.
  revert s. induction p as [|a p IH]; intros [|b s]; simpl; try congruence.
  intros H. apply andb_prop in H. destruct H as [Hab H].
  apply N.eqb_eq in Hab. subst b. rewrite N.eqb_refl. simpl. auto.
Qed.

Lemma literal_nil p : p <> [] -> literal p [] = None.
Proof. destruct p; [congruence|reflexivity]. Qed.

Lemma noHit_literal_ci p s : noHit (literal_ci p) s -> noHit (literal p) s.
Proof.
  induction s as [|c t IH]; [trivial|]. intros [E H]. split; [|auto].
  unfold literal, literal_ci, matchOf, lits, lits_ci in *.
  destruct (startsWith p (c :: t)) eqn:Es; [|reflexivity].
  rewrite (startsWith_prefix_ci _ _ Es) in E. discriminate.
Qed.

Lemma contracting_length f s : contracting f -> List.length (f s) <= List.length s.
Proof. intros Hf. destruct (Hf s) as [-> | L]; lia. Qed.

(** If two contracting steps in a row change nothing, neither does. *)
Lemma contracting_both_fixed f g s :
  contracting f -> contracting g -> g (f s) = s -> f s = s /\ g s = s.
Proof.
  intros Hf Hg H. destruct (Hf s) as [E | L].
  - split; [exact E|]. rewrite E in H. exact H.
  - exfalso. pose proof (contracting_length g (f s) Hg) as L'. rewrite H in L'. lia.
Qed.

Lemma contracting_replace m r :
  shrinking m r -> contracting (replaceAllWith m r).
Proof. intros Hm s. apply replaceAllWith_same_or_shorter. exact Hm. Qed.

Lemma decodeUrlPass_table s :
  decodeUrlPass s =
  fold_left (fun d e => replaceAllWith (literal_ci (fst e)) (snd e) d) urlEntityTable s.
Proof. reflexivity. Qed.

Lemma fold_contracting (tbl : list (jsstring * jsstring)) :
  Forall (fun e => List.length (snd e) < List.length (fst e)) tbl ->
  contracting
    (fun s => fold_left (fun d e => replaceAllWith (literal_ci (fst e)) (snd e) d) tbl s).
Proof.
  induction 1 as [|e tbl He _ IH]; [apply contracting_id|].
  cbn [fold_left].
  apply (contracting_compose (replaceAllWith (literal_ci (fst e)) (snd e)) _);
    [|exact IH].
  apply contracting_replace, literal_ci_shrinking. exact He.
Qed.

(** A text that a chain of shrinking replacements leaves alone holds no
    match of any of them. *)
Lemma fold_fixed_noHit (tbl : list (jsstring * jsstring)) :
  Forall (fun e => List.length (snd e) < List.length (fst e)) tbl ->
  forall s,
    fold_left (fun d e => replaceAllWith (literal_ci (fst e)) (snd e) d) tbl s = s ->
    Forall (fun e => noHit (literal_ci (fst e)) s) tbl.
Proof.
  induction 1 as [|e tbl He Htbl IH]; intros s H; [constructor|].
  cbn [fold_left] in H.
  assert (C1 : contracting (replaceAllWith (literal_ci (fst e)) (snd e)))
    by (apply contracting_replace, literal_ci_shrinking; exact He).
  destruct (contracting_both_fixed _ _ s C1 (fold_contracting tbl Htbl) H) as [E1 E2].
  constructor.
  - apply (unchanged_noHit _ (snd e)); [apply literal_ci_shrinking; exact He|exact E1].
  - apply IH. exact E2.
Qed.

Lemma urlEntityTable_shrinks :
  Forall (fun e => List.length (snd e) < List.length (fst e)) urlEntityTable.
Proof. unfold urlEntityTable. repeat constructor. Qed.

Lemma decodeUrlPass_fixed_noHit s :
  decodeUrlPass s = s -> Forall (fun e => noHit (literal_ci (fst e)) s) urlEntityTable.
Proof.
  intros H. apply (fold_fixed_noHit _ urlEntityTable_shrinks).
  rewrite <- decodeUrlPass_table. exact H.
Qed.

Lemma noHit_includes_ci p s :
  p <> [] -> noHit (literal_ci p) s -> includes_ci p s = false.
Proof.
  intros Hp. induction s as [|c t IH]; intros H.
  - destruct p; [congruence|reflexivity].
  - destruct H as [E H]. cbn [includes_ci]. rewrite (IH H), orb_false_r.
    unfold literal_ci, matchOf, lits_ci in E.
    destruct (prefix_ci p (c :: t)); [discriminate|reflexivity].
Qed.

Lemma client_decodeUrl_fixed s :
  decodeUrlPass s = s -> Client.decodeUrl s = s.
Proof.
  intros H. pose proof (decodeUrlPass_fixed_noHit s H) as F.
  unfold urlEntityTable in F.
  inversion F as [|? ? H1 F1]; subst. inversion F1 as [|? ? H2 F2]; subst.
  inversion F2 as [|? ? H3 F3]; subst. inversion F3 as [|? ? H4 _]; subst.
  cbn [fst] in *.
  unfold Client.decodeUrl. destruct (negb (Js.truthy s)); [reflexivity|]. cbv zeta.
  unfold replaceAllWith, replaceAll.
  rewrite (replaceFrom_noHit (literal (lit "&amp;"))) by
      (try reflexivity; apply noHit_literal_ci; assumption).
  rewrite (replaceFrom_noHit (literal (lit "&lt;"))) by
      (try reflexivity; apply noHit_literal_ci; assumption).
  rewrite (replaceFrom_noHit (literal (lit "&gt;"))) by
      (try reflexivity; apply noHit_literal_ci; assumption).
  apply replaceFrom_noHit; [reflexivity|apply noHit_literal_ci; assumption].
Qed.

Lemma decodeUrlLoop_length fuel s :
  List.length (decodeUrlLoop fuel s) <= List.length s.
Proof.
  revert s. induction fuel as [|fuel IH]; intros s; [simpl; lia|].
  cbn [decodeUrlLoop].
  pose proof (contracting_length decodeUrlPass s decodeUrlPass_contracting) as L.
  destruct (str_eqb (decodeUrlPass s) s); [exact L|].
  specialize (IH (decodeUrlPass s)). lia.
Qed.

Lemma decodeUrlEntities_length s :
  List.length (decodeUrlEntities s) <= List.length s.
Proof.
  unfold decodeUrlEntities. destruct (negb (truthy s)); [lia|].
  apply decodeUrlLoop_length.
Qed.

(** ** The shape of a stripped URL *)

Lemma stripSizeConstraints_shape u :
  normalSeps true (stripSizeConstraints u) /\
  Forall (fun m => noHit m (stripSizeConstraints u)) removalPatterns.
Proof.
  rewrite (stripSizeConstraints_unfold u).
  set (r := collapseFrom 0 (removeSeq removalPatterns u)).
  assert (Hn : normalSeps true r) by apply (collapseFrom_normal 0).
  assert (Hh : Forall (fun m => noHit m r) removalPatterns).
  { pose proof (removeSeq_noHit_all removalPatterns u removalPatterns_local) as H.
    pose proof removalPatterns_local as L.
    rewrite Forall_forall in *. intros m Hin.
    apply noHit_collapseFrom; auto. }
  destruct (list_eq_dec N.eq_dec r [QMARK]) as [E|E].
  - rewrite E. split; [exact I|]. apply Forall_forall. intros; exact I.
  - rewrite (dropTrailingQmark_normal r Hn E). split; assumption.
Qed.

Lemma removalPatterns_keys :
  removalPatterns = map queryParam strippedKeys ++ [sizeSegment].
Proof. reflexivity. Qed.

Lemma noHit_queryParam_includes key sep s :
  isSep sep = true -> noHit (queryParam key) s ->
  includes (sep :: key ++ lit "=") s = false.
Proof.
  intros Hsep. induction s as [|c t IH]; intros H.
  - reflexivity.
  - destruct H as [E H]. cbn [includes]. rewrite (IH H), orb_false_r.
    rewrite queryParam_cons in E. cbn [startsWith].
    destruct (N.eqb_spec sep c) as [<-|]; [|reflexivity].
    rewrite Hsep in E. simpl andb in *.
    destruct (startsWith (key ++ lit "=") t); [discriminate|reflexivity].
Qed.

Lemma normalSeps_rest_no_qmark t :
  normalSeps false t -> existsb (N.eqb QMARK) t = false.
Proof.
  induction t as [|c t IH]; [reflexivity|]. intros [Hc Ht].
  cbn [existsb]. rewrite (IH Ht), orb_false_r.
  destruct (N.eqb_spec QMARK c) as [<-|]; [|reflexivity].
  destruct (Hc eq_refl) as [Hq _]. discriminate.
Qed.

(** ** More on [split], [join] and [cleanUrl] *)

Lemma split_nonempty sep s : split sep s <> [].
Proof.
  destruct s as [|c t]; simpl; [discriminate|].
  destruct (N.eqb c sep); [discriminate|].
  destruct (split sep t); discriminate.
Qed.

Lemma split_pieces sep s : Forall (fun p => ~ In sep p) (split sep s).
Proof.
  induction s as [|c t IH]; simpl.
  - constructor; [tauto|constructor].
  - destruct (N.eqb_spec c sep) as [->|Hne].
    + constructor; [tauto|exact IH].
    + destruct (split sep t) as [|p ps]; [repeat constructor; simpl; intuition congruence|].
      inversion IH; subst. constructor; [|assumption].
      simpl. intuition congruence.
Qed.

Lemma join_split sep s : join sep (split sep s) = s.
Proof.
  induction s as [|c t IH]; [reflexivity|]. simpl.
  destruct (N.eqb_spec c sep) as [->|Hne].
  - pose proof (split_nonempty sep t) as Hne.
    destruct (split sep t) as [|p ps]; [congruence|].
    change (join sep ([] :: p :: ps)) with (sep :: join sep (p :: ps)).
    rewrite IH. reflexivity.
  - destruct (split sep t) as [|p ps] eqn:E; [exfalso; exact (split_nonempty _ _ E)|].
    destruct ps as [|q ps'].
    + simpl in *. congruence.
    + change (join sep ((c :: p) :: q :: ps')) with (c :: (p ++ sep :: join sep (q :: ps'))).
      change (join sep (p :: q :: ps')) with (p ++ sep :: join sep (q :: ps')) in IH.
      rewrite IH. reflexivity.
Qed.

Lemma split_member sep s p x : In p (split sep s) -> In x p -> In x s.
Proof.
  intros Hp Hx. rewrite <- (join_split sep s).
  revert Hp. generalize (split sep s) as ps. intros ps.
  induction ps as [|q ps IH]; intros Hp; [contradiction|].
  destruct ps as [|q' ps'].
  - destruct Hp as [->|[]]. exact Hx.
  - change (join sep (q :: q' :: ps')) with (q ++ sep :: join sep (q' :: ps')).
    rewrite in_app_iff. destruct Hp as [->|Hp]; [left; exact Hx|].
    right. right. apply IH. exact Hp.
Qed.

Lemma join_member sep ps x :
  In x (join sep ps) -> x = sep \/ exists p, In p ps /\ In x p.
Proof.
  induction ps as [|q ps IH]; intros H; [contradiction|].
  destruct ps as [|q' ps'].
  - right. exists q. split; [left; reflexivity|exact H].
  - change (join sep (q :: q' :: ps')) with (q ++ sep :: join sep (q' :: ps')) in H.
    rewrite in_app_iff in H. destruct H as [H|[H|H]].
    + right. exists q. split; [left; reflexivity|exact H].
    + left. congruence.
    + destruct (IH H) as [E|[p [Hp Hx]]]; [left; exact E|].
      right. exists p. split; [right; exact Hp|exact Hx].
Qed.

Lemma filter_fixed {A : Type} (f : A -> bool) (l : list A) :
  filter f (filter f l) = filter f l.
Proof.
  induction l as [|a l IH]; [reflexivity|]. simpl.
  destruct (f a) eqn:E; [|exact IH]. simpl. rewrite E, IH. reflexivity.
Qed.

(** The result for a text with a [?]: what precedes the first [?] and the
    piece up to the second one. *)
Lemma cleanUrl_pieces (u base query : jsstring) rest :
  u <> [] -> split QMARK u = base :: query :: rest -> query <> [] ->
  cleanUrl (Some u) =
  Some (base ++ QMARK ::
        join AMP (filter (fun p => negb (isByteRange p)) (split AMP query))).
Proof.
  intros Hu E Hq. unfold cleanUrl. destruct u as [|c t]; [congruence|].
  simpl truthy. simpl negb. cbv iota. rewrite E.
  destruct query; [congruence|]. reflexivity.
Qed.

Lemma cleanUrl_no_query (u base : jsstring) :
  split QMARK u = [base] -> cleanUrl (Some u) = Some u.
Proof.
  intros E. unfold cleanUrl. destruct (negb (truthy u)); [reflexivity|].
  rewrite E. reflexivity.
Qed.

Lemma cleanUrl_empty_query (u base : jsstring) rest :
  split QMARK u = base :: [] :: rest -> cleanUrl (Some u) = Some u.
Proof.
  intros E. unfold cleanUrl. destruct (negb (truthy u)); [reflexivity|].
  rewrite E. reflexivity.
Qed.

Lemma cleanUrl_idem_str (u : jsstring) :
  cleanUrl (cleanUrl (Some u)) = cleanUrl (Some u).
Proof.
  destruct (list_eq_dec N.eq_dec u []) as [Hu|Hu]; [rewrite Hu; reflexivity|].
  destruct (split QMARK u) as [|base [|query rest]] eqn:E.
  - exfalso. exact (split_nonempty _ _ E).
  - exact (f_equal cleanUrl (cleanUrl_no_query u base E)).
  - destruct (list_eq_dec N.eq_dec query []) as [Hq0|Hq0].
    + rewrite Hq0 in E. exact (f_equal cleanUrl (cleanUrl_empty_query u base rest E)).
    + rewrite (cleanUrl_pieces u base query rest Hu E Hq0).
      pose proof (split_pieces QMARK u) as Hp. rewrite E in Hp.
      inversion Hp as [|? ? Hb Hp']; subst. inversion Hp' as [|? ? Hq _]; subst.
      set (ps := filter (fun p => negb (isByteRange p)) (split AMP query)).
      assert (Hps : Forall (fun p => ~ In AMP p) ps).
      { unfold ps. apply Forall_forall. intros p Hin. apply filter_In in Hin.
        pose proof (split_pieces AMP query) as F. rewrite Forall_forall in F.
        apply F. tauto. }
      assert (Hnq : ~ In QMARK (join AMP ps)).
      { intros Hin. apply join_member in Hin. destruct Hin as [Hx|[p [Hp1 Hp2]]].
        - discriminate.
        - unfold ps in Hp1. apply filter_In in Hp1. destruct Hp1 as [Hp1 _].
          apply Hq. exact (split_member AMP query p QMARK Hp1 Hp2). }
      destruct (list_eq_dec N.eq_dec (join AMP ps) []) as [Hj|Hj].
      * rewrite Hj. unfold cleanUrl.
        replace (truthy (base ++ [QMARK])) with true by (destruct base; reflexivity).
        simpl negb. cbv iota. rewrite split_app_sep by assumption. reflexivity.
      * rewrite cleanUrl_query by assumption.
        assert (Hne : ps <> []) by (intros Hps0; apply Hj; rewrite Hps0; reflexivity).
        rewrite (split_join AMP ps Hne Hps).
        unfold ps. rewrite filter_fixed. reflexivity.
Qed.

Lemma cleanUrl_idem url : cleanUrl (cleanUrl url) = cleanUrl url.
Proof. destruct url as [u|]; [apply cleanUrl_idem_str|reflexivity]. Qed.

(** ** [stripSizeConstraints] never lengthens its argument *)

Lemma replaceFrom_length_cb m f off k s :
  m [] = None ->
  (forall x n, m x = Some n -> 1 <= n <= List.length x) ->
  (forall o x, List.length (f o x) <= 1) ->
  List.length (replaceFrom m f off k s) + Nat.min k (List.length s) <= List.length s.
Proof.
  intros Hnil Hlen Hf.
  revert off k. induction s as [|c t IH]; intros off k.
  - simpl. rewrite Hnil. destruct k; simpl; lia.
  - destruct k as [|k].
    + cbn [replaceFrom]. destruct (m (c :: t)) as [[|n]|] eqn:E.
      * apply Hlen in E. lia.
      * apply Hlen in E. cbn [List.length] in E.
        specialize (IH (S off) n). rewrite length_app.
        specialize (Hf off (firstn (S n) (c :: t))). cbn [List.length Nat.min]. lia.
      * specialize (IH (S off) 0). simpl. lia.
    + cbn [replaceFrom]. specialize (IH (S off) k). simpl. lia.
Qed.

Lemma removeAll_length m s : local m -> List.length (removeAll m s) <= List.length s.
Proof.
  intros Hm. unfold removeAll, replaceAllWith, replaceAll.
  pose proof (replaceFrom_length_cb m (fun _ _ => []) 0 0 s (loc_nil _ Hm)
                (loc_len _ Hm) (fun _ _ => Nat.le_0_l 1)) as L.
  simpl in L. lia.
Qed.

Lemma removeSeq_length ms s :
  Forall local ms -> List.length (removeSeq ms s) <= List.length s.
Proof.
  intros Hms. revert s. induction Hms as [|m ms Hm _ IH]; intros s; [simpl; lia|].
  simpl. specialize (IH (removeAll m s)). pose proof (removeAll_length m s Hm). lia.
Qed.

Lemma sepRun_len x n : sepRun x = Some n -> 1 <= n <= List.length x.
Proof.
  destruct x as [|c t]; [discriminate|]. rewrite sepRun_cons.
  destruct (isSep c); [|discriminate]. intros H. injection H as <-.
  pose proof (span_app isSep t) as Ha.
  destruct (span isSep t) as [a b]. cbn [fst snd] in *. subst t.
  cbn [List.length]. rewrite length_app. lia.
Qed.

Lemma collapseFrom_length off s :
  List.length (collapseFrom off s) <= List.length s.
Proof.
  unfold collapseFrom.
  pose proof (replaceFrom_length_cb sepRun (fun offset _ => sepFor offset) off 0 s
                eq_refl sepRun_len) as L.
  assert (Hf : forall (o : nat) (x : jsstring), List.length (sepFor o) <= 1).
  { intros o _. unfold sepFor. destruct (Nat.eqb o 0); simpl; lia. }
  specialize (L Hf). simpl in L. lia.
Qed.

Lemma dropTrailingQmark_length s :
  List.length (dropTrailingQmark s) <= List.length s.
Proof.
  unfold dropTrailingQmark. generalize 0 as off.
  induction s as [|c t IH]; intros off.
  - reflexivity.
  - cbn [replaceFirstFrom]. destruct (trailingQmark (c :: t)) as [n|] eqn:E.
    + apply trailingQmark_some in E. injection E as -> ->.
      destruct n as [|[|n]]; simpl; lia.
    + simpl. specialize (IH (S off)). lia.
Qed.

Lemma stripSizeConstraints_length u :
  List.length (stripSizeConstraints u) <= List.length u.
Proof.
  rewrite stripSizeConstraints_unfold.
  pose proof (dropTrailingQmark_length (collapseFrom 0 (removeSeq removalPatterns u))).
  pose proof (collapseFrom_length 0 (removeSeq removalPatterns u)).
  pose proof (removeSeq_length removalPatterns u removalPatterns_local). lia.
Qed.

(** ** More on the files of the muxer *)

Lemma existsSync_createFile p q fs :
  existsSync p (createFile q fs) = existsSync p fs || str_eqb p q.
Proof.
  unfold createFile. destruct (existsSync q fs) eqn:E.
  - destruct (str_eqb p q) eqn:Ep; [|rewrite orb_false_r; reflexivity].
    apply str_eqb_eq in Ep. subst q. rewrite E. reflexivity.
  - unfold existsSync. simpl. apply orb_comm.
Qed.

Lemma existsSync_unlinkIfExists p q st :
  existsSync p (fst (unlinkIfExists q st)) =
  existsSync p (fst st) && negb (str_eqb q p).
Proof.
  destruct st as [fs ev]. unfold unlinkIfExists. simpl.
  destruct (existsSync q fs) eqn:E; simpl; [apply existsSync_unlinkSync|].
  destruct (str_eqb q p) eqn:Eq; [|rewrite andb_true_r; reflexivity].
  apply str_eqb_eq in Eq. subst q. rewrite E. reflexivity.
Qed.

Lemma str_eqb_sym a b : str_eqb a b = str_eqb b a.
Proof.
  destruct (str_eqb a b) eqn:E.
  - apply str_eqb_eq in E. subst. symmetry. apply str_eqb_refl.
  - destruct (str_eqb b a) eqn:E'; [|reflexivity].
    apply str_eqb_eq in E'. subst. rewrite str_eqb_refl in E. discriminate.
Qed.

Lemma str_eqb_neq a b : a <> b -> str_eqb a b = false.
Proof.
  intros H. destruct (str_eqb a b) eqn:E; [|reflexivity].
  apply str_eqb_eq in E. contradiction.
Qed.

Lemma events_unlinkIfExists q st :
  filter isRunFfmpeg (snd (unlinkIfExists q st)) = filter isRunFfmpeg (snd st).
Proof.
  destruct st as [fs ev]. unfold unlinkIfExists.
  destruct (existsSync q fs); [|reflexivity]. simpl.
  rewrite filter_app. simpl. apply app_nil_r.
Qed.

Section MuxerMore.

Variable md5hex : jsstring -> jsstring.
Variables TEMP_DIR BASE_URL : jsstring.

Lemma tempPath_inj a b : tempPath TEMP_DIR a = tempPath TEMP_DIR b -> a = b.
Proof.
  unfold tempPath. intros H. apply app_inv_head in H. apply app_inv_head in H. exact H.
Qed.

Lemma output_not_video url :
  outputPathOf md5hex TEMP_DIR url <> videoPathOf md5hex TEMP_DIR url.
Proof.
  unfold outputPathOf, videoPathOf. intros H. apply tempPath_inj in H.
  apply app_inv_head in H. discriminate.
Qed.

Lemma output_not_audio url :
  outputPathOf md5hex TEMP_DIR url <> audioPathOf md5hex TEMP_DIR url.
Proof.
  unfold outputPathOf, audioPathOf. intros H. apply tempPath_inj in H.
  apply app_inv_head in H. discriminate.
Qed.

Lemma video_not_audio url :
  videoPathOf md5hex TEMP_DIR url <> audioPathOf md5hex TEMP_DIR url.
Proof.
  unfold videoPathOf, audioPathOf. intros H. apply tempPath_inj in H.
  apply app_inv_head in H. discriminate.
Qed.

(** Whether a path exists after a call, for every path and every outcome. *)
Lemma mergeVideoAudio_files o videoUrl audioUrl url fs p :
  let V := videoPathOf md5hex TEMP_DIR url in
  let A := audioPathOf md5hex TEMP_DIR url in
  let O := outputPathOf md5hex TEMP_DIR url in
  existsSync p (snd (fst (mergeVideoAudio md5hex TEMP_DIR o videoUrl audioUrl url fs))) =
  if existsSync O fs then existsSync p fs
  else if negb (downloadOk o videoUrl) then existsSync p fs || str_eqb p V
  else if negb (downloadOk o audioUrl)
       then existsSync p fs || str_eqb p V || str_eqb p A
  else if ffmpegOk o
       then (existsSync p fs || str_eqb p O) && negb (str_eqb V p) && negb (str_eqb A p)
  else existsSync p fs && negb (str_eqb V p) && negb (str_eqb A p)
       && negb (str_eqb O p).
Proof.
  intros V A O. unfold mergeVideoAudio. fold V A O.
  destruct (existsSync O fs) eqn:EO; [reflexivity|].
  destruct (downloadOk o videoUrl); cbn [negb]; [|apply existsSync_createFile].
  destruct (downloadOk o audioUrl); cbn [negb];
    [|cbn [fst snd]; rewrite !existsSync_createFile; reflexivity].
  destruct (ffmpegOk o).
  - match goal with
    | |- context [unlinkIfExists A (unlinkIfExists V ?st)] =>
        pose proof (existsSync_unlinkIfExists p A (unlinkIfExists V st)) as H1;
        pose proof (existsSync_unlinkIfExists p V st) as H2;
        destruct (unlinkIfExists A (unlinkIfExists V st)) as [fs' ev]
    end.
    cbn [fst snd] in *. rewrite H1, H2, !existsSync_createFile.
    destruct (str_eqb V p) eqn:EV.
    + apply str_eqb_eq in EV. subst p. rewrite !andb_false_r. reflexivity.
    + rewrite (str_eqb_sym p V), EV, orb_false_r.
      destruct (str_eqb A p) eqn:EA.
      * rewrite !andb_false_r. reflexivity.
      * rewrite (str_eqb_sym p A), EA, orb_false_r. reflexivity.
  - match goal with
    | |- context [unlinkIfExists O (unlinkIfExists A (unlinkIfExists V ?st))] =>
        pose proof (existsSync_unlinkIfExists p O (unlinkIfExists A (unlinkIfExists V st)))
          as H0;
        pose proof (existsSync_unlinkIfExists p A (unlinkIfExists V st)) as H1;
        pose proof (existsSync_unlinkIfExists p V st) as H2;
        destruct (unlinkIfExists O (unlinkIfExists A (unlinkIfExists V st))) as [fs' ev]
    end.
    cbn [fst snd] in *. rewrite H0, H1, H2.
    destruct (str_eqb V p) eqn:EV; [rewrite !andb_false_r; reflexivity|].
    destruct (str_eqb A p) eqn:EA; [rewrite !andb_false_r; reflexivity|].
    destruct (str_eqb O p) eqn:EOp; [rewrite !andb_false_r; reflexivity|].
    rewrite !andb_true_r.
    destruct (ffmpegLeavesOutput o); rewrite !existsSync_createFile;
      rewrite ?(str_eqb_sym p V), ?(str_eqb_sym p A), ?(str_eqb_sym p O), ?EV, ?EA, ?EOp,
        ?orb_false_r; reflexivity.
Qed.

Lemma mergeVideoAudio_result o videoUrl audioUrl url fs :
  fst (fst (mergeVideoAudio md5hex TEMP_DIR o videoUrl audioUrl url fs)) =
  if existsSync (outputPathOf md5hex TEMP_DIR url) fs
     || (downloadOk o videoUrl && downloadOk o audioUrl && ffmpegOk o)
  then Ok (outputPathOf md5hex TEMP_DIR url) else Throw.
Proof.
  unfold mergeVideoAudio.
  destruct (existsSync (outputPathOf md5hex TEMP_DIR url) fs); [reflexivity|].
  destruct (downloadOk o videoUrl); [|reflexivity].
  destruct (downloadOk o audioUrl); [|reflexivity].
  cbn [negb orb andb].
  destruct (ffmpegOk o).
  - match goal with
    | |- context [unlinkIfExists ?a (unlinkIfExists ?v ?st)] =>
        destruct (unlinkIfExists a (unlinkIfExists v st)) as [fs' ev]
    end. reflexivity.
  - match goal with
    | |- context [unlinkIfExists ?x (unlinkIfExists ?a (unlinkIfExists ?v ?st))] =>
        destruct (unlinkIfExists x (unlinkIfExists a (unlinkIfExists v st))) as [fs' ev]
    end. reflexivity.
Qed.

Lemma mergeVideoAudio_ffmpeg_runs o videoUrl audioUrl url fs :
  filter isRunFfmpeg (snd (mergeVideoAudio md5hex TEMP_DIR o videoUrl audioUrl url fs)) =
  if negb (existsSync (outputPathOf md5hex TEMP_DIR url) fs)
     && downloadOk o videoUrl && downloadOk o audioUrl
  then [RunFfmpeg (videoPathOf md5hex TEMP_DIR url) (audioPathOf md5hex TEMP_DIR url)
                  (outputPathOf md5hex TEMP_DIR url)]
  else [].
Proof.
  unfold mergeVideoAudio.
  destruct (existsSync (outputPathOf md5hex TEMP_DIR url) fs); [reflexivity|].
  destruct (downloadOk o videoUrl); [|reflexivity].
  destruct (downloadOk o audioUrl); [|reflexivity].
  cbn [negb orb andb].
  destruct (ffmpegOk o).
  - match goal with
    | |- context [unlinkIfExists ?a (unlinkIfExists ?v ?st)] =>
        pose proof (events_unlinkIfExists a (unlinkIfExists v st)) as H1;
        pose proof (events_unlinkIfExists v st) as H2;
        destruct (unlinkIfExists a (unlinkIfExists v st)) as [fs' ev]
    end. cbn [fst snd] in *. rewrite H1, H2. reflexivity.
  - match goal with
    | |- context [unlinkIfExists ?x (unlinkIfExists ?a (unlinkIfExists ?v ?st))] =>
        pose proof (events_unlinkIfExists x (unlinkIfExists a (unlinkIfExists v st))) as H0;
        pose proof (events_unlinkIfExists a (unlinkIfExists v st)) as H1;
        pose proof (events_unlinkIfExists v st) as H2;
        destruct (unlinkIfExists x (unlinkIfExists a (unlinkIfExists v st))) as [fs' ev]
    end. cbn [fst snd] in *. rewrite H0, H1, H2. reflexivity.
Qed.

End MuxerMore.

(** ** More on the browser fallback *)

Lemma classify_streams rs videoUrls audioUrls thumb :
  fst (fst (classify rs videoUrls audioUrls thumb)) =
    videoUrls ++ filter (fun u => includes (lit ".mp4") u && negb (hasAudioMarker u))
                        (map fst rs) /\
  snd (fst (classify rs videoUrls audioUrls thumb)) =
    audioUrls ++ filter (fun u => includes (lit ".mp4") u && hasAudioMarker u)
                        (map fst rs).
Proof.
  revert videoUrls audioUrls thumb.
  induction rs as [|[u ct] rs IH]; intros videoUrls audioUrls thumb.
  - simpl. rewrite !app_nil_r. split; reflexivity.
  - cbn [classify map fst filter]. fold (hasAudioMarker u).
    match goal with
    | |- context [classify rs ?v ?a ?t] => destruct (IH v a t) as [Hv Ha]
    end.
    rewrite Hv, Ha. clear Hv Ha IH.
    destruct (includes (lit ".mp4") u); destruct (hasAudioMarker u);
      destruct (includes (lit "video") ct); cbn [orb andb negb];
      rewrite <- ?app_assoc; split; reflexivity.
Qed.

Lemma find_member {A : Type} (f : A -> bool) l x : find f l = Some x -> In x l.
Proof. intros H. apply find_some in H. tauto. Qed.

Lemma bestByQuality_member order l u : bestByQuality order l = Some u -> In u l.
Proof.
  induction order as [|q order IH]; [discriminate|]. simpl.
  destruct (find (includes q) l) eqn:E; [|exact IH].
  intros H. injection H as <-. exact (find_member _ _ _ E).
Qed.

Lemma bestByQuality_first pre q post l u :
  Forall (fun q' => find (includes q') l = None) pre ->
  find (includes q) l = Some u ->
  bestByQuality (pre ++ q :: post) l = Some u.
Proof.
  induction 1 as [|q' pre Hq' _ IH]; intros Hq; simpl.
  - rewrite Hq. reflexivity.
  - rewrite Hq'. apply IH. exact Hq.
Qed.

Lemma bestVideoUrl_member l :
  match bestVideoUrl l with Some u => In u l | None => l = [] end.
Proof.
  unfold bestVideoUrl. destruct (bestByQuality qualityOrder l) as [u|] eqn:E.
  - exact (bestByQuality_member _ _ _ E).
  - destruct l as [|x l]; [reflexivity|left; reflexivity].
Qed.

Lemma cleanUrlStr_nonempty u : u <> [] -> cleanUrlStr u <> [].
Proof.
  intros Hu. unfold cleanUrlStr, cleanUrl. destruct u as [|c t]; [congruence|].
  simpl truthy. simpl negb. cbv iota.
  destruct (split QMARK (c :: t)) as [|base [|query rest]]; try discriminate.
  destruct (negb (truthy query)); [discriminate|].
  destruct base; discriminate.
Qed.

Lemma includes_nonempty p u : p <> [] -> includes p u = true -> u <> [].
Proof. intros Hp H ->. destruct p; [congruence|discriminate]. Qed.

(** ** What the strategies return *)


Lemma inlineFieldScan_some html r :
  inlineFieldScan html = Ok (Some r) ->
  hasMediaUrl (Some r) = true /\
  (mediaType r = image -> exists x, mediaUrl r = Some (stripSizeConstraints x)).
Proof.
  unfold inlineFieldScan. cbv zeta.
  set (V := orElse (stringField "video_url" html)
                   (orElse (stringField "playback_url" html) (videoVersionsUrl html))).
  destruct (orElse V (stringField "display_url" html)) as [found|]; [|discriminate].
  set (base := decodeUrlEntities (unescapeUrl found)).
  destruct V as [v|].
  - destruct (Js.truthy base) eqn:Et; [|discriminate].
    destruct (takenAtTimestamp html) as [digits|].
    + destruct (isoDate (mul (parseInt digits) (Num 1000))) as [ts|]; [|discriminate].
      cbn [bind]. intros H. injection H as <-. cbn. rewrite Et. split; [reflexivity|discriminate].
    + cbn [bind]. intros H. injection H as <-. cbn. rewrite Et. split; [reflexivity|discriminate].
  - set (m1 := match highQualityImageUrl html with
               | Some hq => if Js.truthy hq then decodeUrlEntities hq else base
               | None => base
               end).
    destruct (Js.truthy m1) eqn:E1.
    + destruct (Js.truthy (stripSizeConstraints m1)) eqn:Et; [|discriminate].
      destruct (takenAtTimestamp html) as [digits|].
      * destruct (isoDate (mul (parseInt digits) (Num 1000))) as [ts|]; [|discriminate].
        cbn [bind]. intros H. injection H as <-. cbn. rewrite Et.
        split; [reflexivity|]. intros _. exists m1. reflexivity.
      * cbn [bind]. intros H. injection H as <-. cbn. rewrite Et.
        split; [reflexivity|]. intros _. exists m1. reflexivity.
    + rewrite E1. discriminate.
Qed.


Lemma mediaOfNode_stripped T obj r :
  mediaOfNode T obj = Ok r -> strippedImage r.
Proof.
  unfold mediaOfNode. cbv zeta.
  set (vt := Value.truthy (Value.getOpt (Some obj) "video_url")).
  match goal with |- bind ?x _ = _ -> _ => destruct x as [urls|] end; [|discriminate].
  cbn [bind].
  destruct (decodeUrlValue (fst urls)) as [m|]; [|discriminate]. cbn [bind].
  destruct (decodeUrlValue (snd urls)) as [t|]; [|discriminate]. cbn [bind].
  match goal with |- bind ?x _ = _ -> _ => destruct x as [c|] end; [|discriminate].
  cbn [bind].
  match goal with |- bind ?x _ = _ -> _ => destruct x as [ts|] end; [|discriminate].
  cbn [bind]. intros H. injection H as <-. unfold strippedImage. cbn [mediaType mediaUrl].
  destruct vt; [cbn [orb]; intros Hd; discriminate Hd|].
  cbn [negb andb orb]. intros _ u.
  destruct m as [x|]; [|discriminate].
  destruct (truthy x) eqn:Ex; intros Hu; injection Hu as <-.
  - apply stripSizeConstraints_idem.
  - destruct x; [reflexivity|discriminate].
Qed.

Lemma findMediaData_stripped T fuel obj r :
  findMediaData T fuel obj = Ok (Some r) -> strippedImage r.
Proof.
  revert obj r. induction fuel as [|fuel IH]; intros obj r; [discriminate|].
  cbn [findMediaData]. destruct (isObject obj); [|discriminate].
  destruct (hasMediaField obj).
  - destruct (mediaOfNode T obj) as [r'|] eqn:E; [|discriminate]. cbn [bind].
    intros H. injection H as <-. exact (mediaOfNode_stripped T obj r' E).
  - generalize (children obj) as vs. induction vs as [|v vs IHvs]; [discriminate|].
    destruct (shadowsHasOwnProperty obj); [discriminate|].
    destruct (findMediaData T fuel v) as [[r'|]|] eqn:E; cbn [bind].
    + intros H. injection H as <-. exact (IH v r' E).
    + exact IHvs.
    + discriminate.
Qed.

(** ** The URL tests and the parsers *)


Lemma seq_apply (e1 e2 : eater) s :
  (e1 ;; e2) s = match e1 s with Some r => e2 r | None => None end.
Proof. reflexivity. Qed.

Lemma lits_head a p c t r : lits (a :: p) (c :: t) = Some r -> c = a.
Proof.
  unfold lits. cbn [startsWith]. destruct (N.eqb_spec a c); [congruence|discriminate].
Qed.

Lemma kinds_exclusive s :
  (lits (lit "p") s <> None -> lits (lit "reel") s = None /\ lits (lit "tv") s = None) /\
  (lits (lit "reel") s <> None -> lits (lit "tv") s = None).
Proof.
  destruct s as [|c t]; [split; intros H; exfalso; apply H; reflexivity|].
  split; intros H.
  - destruct (lits (lit "p") (c :: t)) as [r|] eqn:E; [|congruence].
    apply (lits_head 112%N []) in E. subst c. split; reflexivity.
  - destruct (lits (lit "reel") (c :: t)) as [r|] eqn:E; [|congruence].
    apply (lits_head 114%N (lit "eel")) in E. subst c. reflexivity.
Qed.

Lemma instagramUrl_tests_agree url :
  ClientUrl.isValidInstagramUrl url = instagramUrlPattern url.
Proof.
  unfold ClientUrl.isValidInstagramUrl, ClientUrl.patterns, instagramUrlPattern,
    testAtStart. cbn [existsb]. rewrite !seq_apply.
  destruct (urlHead url) as [r|]; [|reflexivity].
  unfold postKind, alt.
  destruct (kinds_exclusive r) as [Hp Hr].
  destruct (lits (lit "p") r) as [r1|].
  - destruct Hp as [-> ->]; [discriminate|]. rewrite !orb_false_r. reflexivity.
  - destruct (lits (lit "reel") r) as [r2|].
    + rewrite Hr by discriminate. rewrite orb_false_r. reflexivity.
    + destruct (lits (lit "tv") r); cbn [orb]; rewrite ?orb_false_r; reflexivity.
Qed.


Lemma lits_inv p s r : lits p s = Some r -> s = p ++ r.
Proof.
  unfold lits. destruct (startsWith p s) eqn:E; [|discriminate].
  intros H. injection H as <-. apply startsWith_inv. exact E.
Qed.

Lemma consuming_lits p : consuming (lits p).
Proof. intros s r H. exists p. apply lits_inv. exact H. Qed.

Lemma consuming_opt c : consuming (opt c).
Proof.
  intros s r. unfold opt. destruct s as [|x t].
  - intros H. injection H as <-. exists []. reflexivity.
  - destruct (c x); intros H; injection H as <-; [exists [x]|exists []]; reflexivity.
Qed.

Lemma consuming_optLits p : consuming (optLits p).
Proof.
  intros s r. unfold optLits. destruct (startsWith p s) eqn:E; intros H; injection H as <-.
  - exists p. apply startsWith_inv. exact E.
  - exists []. reflexivity.
Qed.

Lemma consuming_seq e1 e2 : consuming e1 -> consuming e2 -> consuming (e1 ;; e2).
Proof.
  intros H1 H2 s r. unfold seq. destruct (e1 s) as [r1|] eqn:E1; [|discriminate].
  intros E2. destruct (H1 _ _ E1) as [p1 ->]. destruct (H2 _ _ E2) as [p2 ->].
  exists (p1 ++ p2). apply app_assoc.
Qed.

Lemma firstMatch_suffix (A : Type) (f : jsstring -> option A) p r a :
  f r = Some a -> exists b, firstMatch f (p ++ r) = Some b.
Proof.
  intros H. induction p as [|c p IH].
  - exists a. simpl. destruct r; cbn [firstMatch]; rewrite H; reflexivity.
  - cbn [app firstMatch]. destruct (f (c :: p ++ r)) as [b|]; [exists b; reflexivity|].
    exact IH.
Qed.

Lemma shortcodeOf_nonempty url code : shortcodeOf url = Some code -> code <> [].
Proof.
  unfold shortcodeOf. intros H. apply firstMatch_some in H. destruct H as [t H].
  destruct ((chr 47 ;; postKind ;; chr 47) t) as [r|]; [|discriminate].
  destruct (capture (many1 isWordOrDash) r) as [[text r']|] eqn:E; [|discriminate].
  injection H as <-. exact (capture_many1_nonempty _ _ _ _ E).
Qed.

Lemma many1_capture p s r : many1 p s = Some r -> exists text, capture (many1 p) s = Some (text, r).
Proof. unfold capture. intros ->. eexists. reflexivity. Qed.

Lemma accepted_has_shortcode url :
  instagramUrlPattern url = true -> exists code, shortcodeOf url = Some code.
Proof.
  unfold instagramUrlPattern, testAtStart, urlHead, urlTail.
  set (pre := lits (lit "http") ;; opt (N.eqb 115) ;; lits (lit "://") ;; optLits (lit "www.")).
  assert (Hpre : consuming pre).
  { unfold pre. repeat apply consuming_seq;
      first [apply consuming_lits | apply consuming_opt | apply consuming_optLits]. }
  unfold seq at 1 2 3.
  destruct (pre url) as [r4|] eqn:E4; [|discriminate].
  destruct (lits (lit "instagram.com/") r4) as [r5|] eqn:E5; [|discriminate].
  destruct (postKind r5) as [r6|] eqn:E6; [|discriminate].
  unfold seq.
  destruct (chr 47 r6) as [r7|] eqn:E7; [|discriminate].
  destruct (many1 isWordOrDash r7) as [r8|] eqn:E8; [|discriminate].
  intros _.
  destruct (Hpre _ _ E4) as [p ->]. apply lits_inv in E5. subst r4.
  change (lit "instagram.com/" ++ r5) with (lit "instagram.com" ++ (47%N :: r5)).
  rewrite app_assoc. unfold shortcodeOf.
  destruct (many1_capture _ _ _ E8) as [text Ht].
  apply (firstMatch_suffix _ _ (p ++ lit "instagram.com") (47%N :: r5) text).
  unfold seq. cbn [chr oneOf]. rewrite N.eqb_refl. rewrite E6.
  change (oneOf (N.eqb 47) r6) with (chr 47 r6). rewrite E7, Ht. reflexivity.
Qed.


Lemma sharedDataBody_image T sharedData url r :
  sharedDataBody T sharedData url = Ok (Some r) ->
  mediaType r = image ->
  forall u, mediaUrl r = Some u -> stripSizeConstraints u = u.
Proof.
  unfold sharedDataBody. destruct (shortcodeOf url); [|discriminate].
  destruct (Value.get (Some sharedData) "entry_data") as [entry_data|]; [|discriminate].
  cbn [bind]. cbv zeta.
  set (media := Value.getOpt (Value.getOpt (Value.firstOpt (Value.getOpt entry_data "PostPage"))
                                "graphql") "shortcode_media").
  destruct (negb (Value.truthy media)); [discriminate|].
  set (isVideo := Value.truthy (Value.getOpt media "is_video") || _).
  match goal with |- bind ?x _ = _ -> _ => destruct x as [urls|] end; [|discriminate].
  cbn [bind].
  destruct (decodeUrlValue (fst urls)) as [m|]; [|discriminate]. cbn [bind].
  destruct (decodeUrlValue (snd urls)) as [t|]; [|discriminate]. cbn [bind].
  match goal with |- bind ?x _ = _ -> _ => destruct x as [c|] end; [|discriminate].
  cbn [bind].
  match goal with |- bind ?x _ = _ -> _ => destruct x as [ts|] end; [|discriminate].
  cbn [bind]. intros H. injection H as <-. cbn [mediaType mediaUrl].
  destruct isVideo; [intros Hd; discriminate Hd|].
  cbn [negb andb]. intros _ u.
  destruct m as [x|]; [|discriminate].
  destruct (truthy x) eqn:Ex; intros Hu; injection Hu as <-.
  - apply stripSizeConstraints_idem.
  - destruct x; [reflexivity|discriminate].
Qed.

Lemma parseJsonLd_image jsonLd r :
  parseJsonLd jsonLd = Ok (Some r) ->
  ld_mediaType r = image ->
  forall u, ld_mediaUrl r = Some u -> stripSizeConstraints u = u.
Proof.
  unfold parseJsonLd. cbv zeta.
  destruct (negb (Value.truthy (Some jsonLd))); [discriminate|].
  set (vt := Value.truthy (Value.getOpt (Some jsonLd) "video")).
  match goal with |- bind ?x _ = _ -> _ => destruct x as [m|] end; [|discriminate].
  cbn [bind].
  match goal with |- bind ?x _ = _ -> _ => destruct x as [t|] end; [|discriminate].
  cbn [bind].
  match goal with |- bind ?x _ = _ -> _ => destruct x as [c|] end; [|discriminate].
  cbn [bind]. intros H. injection H as <-. cbn [ld_mediaType ld_mediaUrl].
  destruct vt; [intros Hd; discriminate Hd|].
  cbn [negb andb]. intros _ u.
  destruct m as [x|]; [|discriminate].
  destruct (truthy x) eqn:Ex; intros Hu; injection Hu as <-.
  - apply stripSizeConstraints_idem.
  - destruct x; [reflexivity|discriminate].
Qed.

Lemma findMediaData_nested T node :
  hasMediaField node = true ->
  forall n fuel,
    findMediaData T fuel (nested n node) =
    if n <? fuel then (let* r := mediaOfNode T node in Ok (Some r)) else Ok None.
Proof.
  intros Hm.
  assert (Hobj : isObject node = true).
  { destruct node; try reflexivity; discriminate Hm. }
  induction n as [|n IH]; intros [|fuel]; try reflexivity.
  - cbn [findMediaData nested]. rewrite Hobj, Hm. reflexivity.
  - cbn [findMediaData nested isObject].
    change (hasMediaField (JObj [(lit "data", nested n node)])) with false.
    cbv iota. cbn [children map snd].
    change (shadowsHasOwnProperty (JObj [(lit "data", nested n node)])) with false.
    cbv iota. rewrite IH.
    change (S n <? S fuel) with (n <? fuel).
    destruct (n <? fuel); [|reflexivity].
    destruct (mediaOfNode T node) as [r|]; reflexivity.
Qed.

(** ** [decodeHtmlEntities] on plain text *)

Lemma plain_noHit m s : startsSpecial m -> plainText s = true -> noHit m s.
Proof.
  intros [_ Hm]. unfold plainText. induction s as [|c t IH]; [intros _; exact I|].
  cbn [forallb]. intros H. apply andb_prop in H. destruct H as [Hc Ht]. split; [|exact (IH Ht)].
  apply Hm. destruct (isSpecial c); [discriminate|reflexivity].
Qed.

Lemma plain_replaceAll m f s :
  startsSpecial m -> plainText s = true -> replaceAll m f s = s.
Proof.
  intros Hm Hs. apply replaceFrom_noHit; [exact (proj1 Hm)|].
  apply plain_noHit; assumption.
Qed.

Lemma startsSpecial_literal a p : isSpecial a = true -> startsSpecial (literal (a :: p)).
Proof.
  intros Ha. split; [reflexivity|]. intros c t Hc.
  unfold literal, matchOf, lits. cbn [startsWith].
  destruct (N.eqb_spec a c) as [<-|]; [congruence|reflexivity].
Qed.

Lemma canon_amp c : N.eqb (canon AMP) (canon c) = true -> c = AMP.
Proof.
  unfold canon, isLower. change ((97 <=? AMP)%N && (AMP <=? 122)%N) with false. cbv iota.
  destruct ((97 <=? c)%N && (c <=? 122)%N) eqn:E; intros H; apply N.eqb_eq in H.
  - apply andb_prop in E. destruct E as [E1 E2]. apply N.leb_le in E1.
    unfold AMP in H. lia.
  - congruence.
Qed.

Lemma startsSpecial_numeric ci p digit :
  startsSpecial (numericEntity ci (AMP :: p) digit).
Proof.
  split; [destruct ci; reflexivity|]. intros c t Hc.
  assert (Hne : c <> AMP).
  { intros ->. discriminate Hc. }
  unfold numericEntity, matchOf, seq. destruct ci.
  - unfold lits_ci. cbn [prefix_ci].
    destruct (N.eqb (canon AMP) (canon c)) eqn:E; [|reflexivity].
    apply canon_amp in E. contradiction.
  - unfold lits. cbn [startsWith].
    destruct (N.eqb_spec AMP c) as [<-|]; [congruence|reflexivity].
Qed.

Lemma decodeHtmlEntities_plain s : plainText s = true -> decodeHtmlEntities s = s.
Proof.
  intros H. unfold decodeHtmlEntities. destruct s as [|c t]; [reflexivity|].
  cbn [truthy negb]. cbv zeta. unfold replaceAllWith.
  repeat (rewrite (plain_replaceAll _ _ (c :: t));
          [| first [ apply (startsSpecial_numeric true) | apply (startsSpecial_numeric false)
                   | apply startsSpecial_literal; reflexivity ] | exact H ]).
  reflexivity.
Qed.

(* ================================================================== *)
(** * The claims *)

(** ** Quality selector *)

(** C1 (as amended).  Sizes are those whose product a double holds
    exactly.  In the JSON strategies a candidate counts when it has an
    address: if some such candidate has a positive area, the selector
    returns the candidate of largest area among them, the first one in
    input order when several share it; if none has, it returns the last
    candidate of the set when that one has an address, and nothing
    otherwise (the default field is then kept).  The loop of the inline
    scan does the same over the entries of the array that carry an address
    and two sizes, whose areas are the products of their two runs of
    digits: with an entry of positive area the result is the address,
    unescaped and decoded, of the first entry of largest area; when every
    such entry has area 0 nothing is taken from that array; and when the
    array has no such entry at all the last address in it is taken. *)
Theorem quality_selector_first_largest :
  (forall (T : json -> number) (rs : list DisplayResource),
      Forall exactArea rs ->
      Exists (fun r => src r <> [] /\ (0 < area r)%Z) rs ->
      exists i best,
        nth_error rs i = Some best /\ src best <> [] /\
        pickResource T (map resourceJson rs) = Ok (Some (resourceJson best)) /\
        Forall (fun r => src r <> [] -> (area r <= area best)%Z) rs /\
        (forall j r, j < i -> nth_error rs j = Some r -> src r <> [] ->
                     (area r < area best)%Z)) /\
  (forall (T : json -> number) (front : list DisplayResource) (l : DisplayResource),
      Forall exactArea (front ++ [l]) ->
      Forall (fun r => src r = [] \/ (area r <= 0)%Z) (front ++ [l]) ->
      pickResource T (map resourceJson (front ++ [l])) =
      Ok (if truthy (src l) then Some (resourceJson l) else None)) /\
  (forall (ms : list (jsstring * jsstring * jsstring)),
      Forall (fun m => let '(_, w, h) := m in
                       (parseDigits 10 w < 2 ^ 53)%Z /\ (parseDigits 10 h < 2 ^ 53)%Z /\
                       (Z.abs (matchArea m) < 2 ^ 53)%Z) ms ->
      Exists (fun m => (0 < matchArea m)%Z) ms ->
      exists i best,
        nth_error ms i = Some best /\
        snd (scanMatches ms (Num 0) None) = Some (fst (fst best)) /\
        Forall (fun m => (matchArea m <= matchArea best)%Z) ms /\
        (forall j m, j < i -> nth_error ms j = Some m ->
                     (matchArea m < matchArea best)%Z)) /\
  (forall (pattern : jsstring -> option jsstring)
          (rest : list (jsstring -> option jsstring)) (html inner : jsstring)
          (ms : list (jsstring * jsstring * jsstring)),
      pattern html = Some inner ->
      matchAll resourceEntry inner = ms ->
      Forall (fun m => let '(_, w, h) := m in
                       (parseDigits 10 w < 2 ^ 53)%Z /\ (parseDigits 10 h < 2 ^ 53)%Z /\
                       (Z.abs (matchArea m) < 2 ^ 53)%Z) ms ->
      (Exists (fun m => (0 < matchArea m)%Z) ms ->
       exists i best,
         nth_error ms i = Some best /\
         highQualityFrom (pattern :: rest) html
         = Some (decodeUrlEntities (unescapeUrl (fst (fst best)))) /\
         Forall (fun m => (matchArea m <= matchArea best)%Z) ms /\
         (forall j m, j < i -> nth_error ms j = Some m ->
                      (matchArea m < matchArea best)%Z)) /\
      (ms <> [] -> Forall (fun m => (matchArea m <= 0)%Z) ms ->
       highQualityFrom (pattern :: rest) html = highQualityFrom rest html)) /\
  (forall (pattern : jsstring -> option jsstring)
          (rest : list (jsstring -> option jsstring)) (html inner : jsstring)
          (front : list jsstring) (u : jsstring),
      pattern html = Some inner ->
      matchAll resourceEntry inner = [] ->
      matchAll (stringAfter (quoted "src" ++ lit ":" ++ [DQUOTE])) inner = front ++ [u] ->
      highQualityFrom (pattern :: rest) html = Some (decodeUrlEntities (unescapeUrl u))).
Proof.
  split; [|split; [|split; [|split]]].
  - intros T rs Hex Hpos. exact (pickResource_largest T rs Hex Hpos).
  - intros T front l Hex Hz. exact (pickResource_fallback T front l Hex Hz).
  - intros ms Hex Hpos. exact (scanMatches_largest ms Hex Hpos).
  - intros pattern rest html inner ms Hp Hm Hex. split.
    + intros Hpos.
      assert (Hne : ms <> []) by (intros ->; inversion Hpos).
      destruct (scanMatches_largest ms Hex Hpos) as [i [best [Hn [Hs [Hall Hfirst]]]]].
      exists i, best. rewrite (highQualityFrom_sized pattern rest html inner ms Hp Hm Hne).
      rewrite Hs. repeat split; assumption.
    + intros Hne Hz.
      rewrite (highQualityFrom_sized pattern rest html inner ms Hp Hm Hne).
      rewrite (scanMatches_none ms Hex Hz). reflexivity.
  - intros pattern rest html inner front u Hp Hm Hu.
    exact (highQualityFrom_sizeless pattern rest html inner front u Hp Hm Hu).
Qed.

Lemma quality_selector_first_largest_witness :
  exists i best,
    nth_error
      [ {| src := []; config_width := Some 4000%Z; config_height := Some 4000%Z |};
        {| src := lit "s.jpg"; config_width := Some 640%Z; config_height := Some 640%Z |};
        {| src := lit "l.jpg"; config_width := Some 1080%Z; config_height := Some 1080%Z |};
        {| src := lit "m.jpg"; config_width := Some 1080%Z; config_height := Some 1080%Z |} ]
      i = Some best /\ src best <> [] /\
    pickResource (fun _ => NaN)
      (map resourceJson
         [ {| src := []; config_width := Some 4000%Z; config_height := Some 4000%Z |};
           {| src := lit "s.jpg"; config_width := Some 640%Z; config_height := Some 640%Z |};
           {| src := lit "l.jpg"; config_width := Some 1080%Z; config_height := Some 1080%Z |};
           {| src := lit "m.jpg"; config_width := Some 1080%Z; config_height := Some 1080%Z |} ])
    = Ok (Some (resourceJson best)) /\
    Forall (fun r => src r <> [] -> (area r <= area best)%Z)
      [ {| src := []; config_width := Some 4000%Z; config_height := Some 4000%Z |};
        {| src := lit "s.jpg"; config_width := Some 640%Z; config_height := Some 640%Z |};
        {| src := lit "l.jpg"; config_width := Some 1080%Z; config_height := Some 1080%Z |};
        {| src := lit "m.jpg"; config_width := Some 1080%Z; config_height := Some 1080%Z |} ] /\
    (forall j r, j < i ->
       nth_error
         [ {| src := []; config_width := Some 4000%Z; config_height := Some 4000%Z |};
           {| src := lit "s.jpg"; config_width := Some 640%Z; config_height := Some 640%Z |};
           {| src := lit "l.jpg"; config_width := Some 1080%Z; config_height := Some 1080%Z |};
           {| src := lit "m.jpg"; config_width := Some 1080%Z; config_height := Some 1080%Z |} ]
         j = Some r -> src r <> [] -> (area r < area best)%Z).
Proof.
  apply (proj1 quality_selector_first_largest).
  - repeat constructor; vm_compute; reflexivity.
  - apply Exists_cons_tl, Exists_cons_hd. split; [discriminate|vm_compute; reflexivity].
Defined.

(** C1, the claim as stated, fails in two ways.  Of two candidates without
    sizes, both of area 0, the selector returns the last one, not the
    first.  And a candidate whose address is empty is passed over even
    when its area is the largest. *)
Lemma quality_selector_not_first_largest :
  (let a := {| src := lit "a.jpg"; config_width := None; config_height := None |} in
   let b := {| src := lit "b.jpg"; config_width := None; config_height := None |} in
   area a = 0%Z /\ area b = 0%Z /\
   pickResource (fun _ => NaN) (map resourceJson [a; b]) = Ok (Some (resourceJson b)) /\
   pickResource (fun _ => NaN) (map resourceJson [a; b]) <> Ok (Some (resourceJson a))) /\
  (let c := {| src := []; config_width := Some 1080%Z; config_height := Some 1080%Z |} in
   let d := {| src := lit "d.jpg"; config_width := Some 640%Z; config_height := Some 640%Z |} in
   (area d < area c)%Z /\
   pickResource (fun _ => NaN) (map resourceJson [c; d]) = Ok (Some (resourceJson d)) /\
   pickResource (fun _ => NaN) (map resourceJson [c; d]) <> Ok (Some (resourceJson c))).
Proof.
  cbv zeta. split.
  - repeat split; try reflexivity. vm_compute. discriminate.
  - split; [vm_compute; reflexivity|]. split; [vm_compute; reflexivity|].
    vm_compute. discriminate.
Qed.

(** ** Entity decoding *)

(** C2 (as amended).  [decodeUrlEntities], the decoder that repeats full
    passes until nothing changes, reaches a fixed point of the pass on every
    string, without any bound on the number of passes, and is idempotent. *)
Theorem decodeUrlEntities_idempotent :
  forall s,
    decodeUrlPass (decodeUrlEntities s) = decodeUrlEntities s /\
    decodeUrlEntities (decodeUrlEntities s) = decodeUrlEntities s.
Proof.
  intros s. split; [apply decodeUrlEntities_fixed|apply decodeUrlEntities_idem].
Qed.

(** C2, the claim as stated, fails for [decodeHtmlEntities], which makes a
    single pass: a doubly encoded ampersand is decoded once by the first
    application and once more by the second. *)
Lemma decodeHtmlEntities_not_idempotent :
  decodeHtmlEntities (lit "&amp;amp;") = lit "&amp;" /\
  decodeHtmlEntities (decodeHtmlEntities (lit "&amp;amp;")) = lit "&" /\
  decodeHtmlEntities (decodeHtmlEntities (lit "&amp;amp;"))
  <> decodeHtmlEntities (lit "&amp;amp;").
Proof.
  repeat split; try (vm_compute; reflexivity). vm_compute. discriminate.
Qed.

(** ** Size-constraint stripping *)

(** C3.  Stripping the size constraints of a URL that has been stripped
    changes nothing. *)
Theorem stripSizeConstraints_idempotent :
  forall u, stripSizeConstraints (stripSizeConstraints u) = stripSizeConstraints u.
Proof. exact stripSizeConstraints_idem. Qed.

(** ** Muxer *)

(** C4.  The cache path of a post is the temp directory, [/], the hash of
    the post URL and [_merged.mp4]; the stream URLs play no part in it.
    When that file exists, the muxer resolves with that path, whatever the
    stream URLs are and whatever the downloads and ffmpeg would do, without
    a download or any other call, and leaves the files as they are. *)
Theorem muxer_cache_hit :
  forall (md5hex : jsstring -> jsstring) (TEMP_DIR : jsstring) (o : MuxOracle)
         (videoUrl audioUrl instagramUrl : jsstring) (fs : fsState),
    existsSync (TEMP_DIR ++ lit "/" ++ md5hex instagramUrl ++ lit "_merged.mp4") fs = true ->
    mergeVideoAudio md5hex TEMP_DIR o videoUrl audioUrl instagramUrl fs
    = (Ok (TEMP_DIR ++ lit "/" ++ md5hex instagramUrl ++ lit "_merged.mp4"), fs, []).
Proof.
  intros md5hex TEMP_DIR o videoUrl audioUrl instagramUrl fs H.
  unfold mergeVideoAudio, outputPathOf, tempPath. rewrite H. reflexivity.
Qed.

Lemma muxer_cache_hit_witness :
  let md5hex := fun u : jsstring =>
    if str_eqb u (lit "https://www.instagram.com/reel/abc/")
    then lit "0cc175b9c0f1b6a831c399e269772661"
    else lit "92eb5ffee6ae2fec3ad71c777531578f" in
  mergeVideoAudio md5hex (lit "/app/temp")
    {| downloadOk := fun _ => false; ffmpegOk := false; ffmpegLeavesOutput := false |}
    (lit "https://cdn/v.mp4?run=1") (lit "https://cdn/a.mp4?run=1")
    (lit "https://www.instagram.com/reel/abc/")
    [lit "/app/temp/0cc175b9c0f1b6a831c399e269772661_merged.mp4"]
  = (Ok (lit "/app/temp/0cc175b9c0f1b6a831c399e269772661_merged.mp4"),
     [lit "/app/temp/0cc175b9c0f1b6a831c399e269772661_merged.mp4"], []).
Proof.
  cbv zeta.
  apply (muxer_cache_hit
           (fun u : jsstring =>
              if str_eqb u (lit "https://www.instagram.com/reel/abc/")
              then lit "0cc175b9c0f1b6a831c399e269772661"
              else lit "92eb5ffee6ae2fec3ad71c777531578f")
           (lit "/app/temp")
           {| downloadOk := fun _ => false; ffmpegOk := false;
              ffmpegLeavesOutput := false |}
           (lit "https://cdn/v.mp4?run=1") (lit "https://cdn/a.mp4?run=1")
           (lit "https://www.instagram.com/reel/abc/")
           [lit "/app/temp/0cc175b9c0f1b6a831c399e269772661_merged.mp4"]).
  vm_compute. reflexivity.
Defined.

(** C6, at the failing input: the video download completes and the audio
    download fails.  The promise rejects from the outer [catch], which
    deletes nothing: the video file and the audio file that the write
    stream opened are still there, and no file was unlinked. *)
Theorem muxer_download_failure_leaves_temp_files :
  let o := {| downloadOk := fun u => str_eqb u (lit "https://cdn/v.mp4");
              ffmpegOk := true; ffmpegLeavesOutput := false |} in
  let md5hex := fun _ : jsstring => lit "0cc175b9c0f1b6a831c399e269772661" in
  let TEMP_DIR := lit "/app/temp" in
  let url := lit "https://www.instagram.com/reel/abc/" in
  mergeVideoAudio md5hex TEMP_DIR o (lit "https://cdn/v.mp4") (lit "https://cdn/a.mp4") url []
  = (Throw,
     [audioPathOf md5hex TEMP_DIR url; videoPathOf md5hex TEMP_DIR url],
     [Download (lit "https://cdn/v.mp4") (videoPathOf md5hex TEMP_DIR url);
      Download (lit "https://cdn/a.mp4") (audioPathOf md5hex TEMP_DIR url)]).
Proof. vm_compute. reflexivity. Qed.

(** ** Browser fallback *)




(** ** The handler *)

Section HandlerClaims.

Variable T : json -> number.
Variable JP : jsstring -> option json.
Variable jsonLd : jsstring -> option MediaRecord -> option MediaRecord.
Variable sharedData : jsstring -> jsstring -> option MediaRecord -> option MediaRecord.
Variable metaTags : jsstring -> option MediaRecord.
Variable pup : jsstring -> res (option MediaRecord).
Variable now : Z.

(** C5.  For a reel or TV address whose textual extraction gives an image
    record, the handler calls the browser fallback; when the fallback
    returns a video record with a non-empty media URL, the response is that
    record (its URLs decoded once more, its timestamp the time of the
    response) and its media type is video. *)
Theorem video_fallback_overrides_image :
  forall (url html : jsstring) (r : MediaRecord),
    includes (lit "/reel/") url = true \/ includes (lit "/tv/") url = true ->
    runStrategies T JP jsonLd sharedData metaTags url html = Ok (Some r) ->
    mediaType r = image ->
    snd (fetchContent T JP jsonLd sharedData metaTags pup now url html)
    = [CallPuppeteer url] /\
    forall (p : MediaRecord) (u : jsstring),
      pup url = Ok (Some p) ->
      mediaType p = video ->
      mediaUrl p = Some u -> u <> [] ->
      fst (fetchContent T JP jsonLd sharedData metaTags pup now url html)
      = Json200 {| mediaUrl := Some (decodeUrlEntities u);
                   thumbnailUrl := option_map decodeUrlEntities (thumbnailUrl p);
                   caption := caption p;
                   author := author p;
                   mediaType := video;
                   timestamp := TsInstant now |}.
Proof.
  intros url html r Hurl Hrun Himg.
  assert (Hv : isVideoUrl url = true).
  { unfold isVideoUrl. destruct Hurl as [-> | ->]; [reflexivity|apply orb_true_r]. }
  unfold fetchContent. rewrite Hrun. split.
  - pose proof (videoFallback_called pup url r Hv Himg) as Hc.
    destruct (videoFallback pup url (Some r)) as [pd ev]. exact Hc.
  - intros p u Hp Hvid Hu Hne.
    assert (Hm : hasMediaUrl (Some p) = true).
    { unfold hasMediaUrl. rewrite Hu. destruct u; [congruence|reflexivity]. }
    rewrite (videoFallback_replaces pup url r p Hv Himg Hp Hm Hvid).
    cbn [fst]. unfold respond. rewrite Hm, Hu, Hvid. reflexivity.
Qed.

(** C7.  In the script scan a candidate that [JSON.parse] rejects is
    skipped, and neither the other candidates nor the other script tags nor
    the later strategies are given up.  On a page where the inline scan
    finds nothing: when, after any number of script tags that have no
    marker or only rejected candidates, a script tag holds rejected
    candidates followed by a candidate that parses and gives a record with
    a media URL, the scan returns that record and the handler answers with
    it unless the browser fallback applies; and when every candidate of the
    page is rejected, the scan finds nothing and strategies 3 to 5 are run
    in their order. *)
Theorem malformed_candidate_is_skipped :
  forall (url html : jsstring),
    inlineFieldScan html = Ok None ->
    (forall (before : list jsstring) (script : jsstring) (after bads : list jsstring)
            (good : jsstring) (rest : list jsstring) (data : json) (r : MediaRecord),
        matchAll scriptTag html = before ++ script :: after ->
        Forall (fun s =>
                  includes (lit "video_url") s || includes (lit "display_url") s = false \/
                  Forall (fun c => JP c = None) (matchAll jsonCandidate s)) before ->
        includes (lit "video_url") script || includes (lit "display_url") script = true ->
        matchAll jsonCandidate script = bads ++ good :: rest ->
        Forall (fun c => JP c = None) bads ->
        JP good = Some data ->
        extractFromRequireData T data = Some r ->
        hasMediaUrl (Some r) = true ->
        scriptJsonScan T JP html None = Some r /\
        runStrategies T JP jsonLd sharedData metaTags url html = Ok (Some r) /\
        (isVideoUrl url && isImage (Some r) = false ->
         fetchContent T JP jsonLd sharedData metaTags pup now url html
         = (respond now (Some r), []))) /\
    (Forall (fun s =>
               includes (lit "video_url") s || includes (lit "display_url") s = false \/
               Forall (fun c => JP c = None) (matchAll jsonCandidate s))
            (matchAll scriptTag html) ->
     scriptJsonScan T JP html None = None /\
     runStrategies T JP jsonLd sharedData metaTags url html =
     Ok (let postData := jsonLd html None in
         let postData :=
           if hasMediaUrl postData then postData else sharedData html url postData in
         if hasMediaUrl postData then postData else metaTags html)).
Proof.
  intros url html H1. split.
  - intros before script after bads good rest data r Hs Hb Hinc Hc Hbad Hgood Hdata Hurl.
    assert (Hscan : scriptJsonScan T JP html None = Some r).
    { unfold scriptJsonScan. rewrite Hs.
      exact (scanScripts_found T JP before script after bads good rest data r
               Hb Hinc Hc Hbad Hgood Hdata Hurl). }
    assert (Hrun : runStrategies T JP jsonLd sharedData metaTags url html = Ok (Some r))
      by (apply runStrategies_found_by_scripts; assumption).
    repeat split; try assumption.
    intros Hno. unfold fetchContent. rewrite Hrun.
    rewrite (videoFallback_not_triggered pup url (Some r) Hno). reflexivity.
  - intros Hall.
    assert (Hscan : scriptJsonScan T JP html None = None).
    { unfold scriptJsonScan. exact (scanScripts_nothing T JP _ Hall). }
    split; [exact Hscan|].
    unfold runStrategies. rewrite H1. cbn [bind hasMediaUrl]. rewrite Hscan.
    reflexivity.
Qed.

(** C8, at the failing input: a page with a video field, a display field
    and a capture time beyond the range of dates.  [toISOString] throws a
    RangeError inside the inline scan, and the handler answers 500 instead
    of the video record. *)
Theorem inline_scan_throws_on_invalid_timestamp :
  let html :=
    quoted "video_url" ++ lit ":" ++ [DQUOTE] ++ lit "https://v.cdn/x.mp4" ++ [DQUOTE]
    ++ lit "," ++ quoted "display_url" ++ lit ":" ++ [DQUOTE] ++ lit "https://i.cdn/y.jpg"
    ++ [DQUOTE] ++ lit "," ++ quoted "taken_at_timestamp" ++ lit ":99999999999999999999" in
  stringField "video_url" html = Some (lit "https://v.cdn/x.mp4") /\
  stringField "display_url" html = Some (lit "https://i.cdn/y.jpg") /\
  inlineFieldScan html = Throw /\
  forall url,
    fetchContent T JP jsonLd sharedData metaTags pup now url html = (ServerError500, []).
Proof.
  cbv zeta.
  assert (H : inlineFieldScan
                (quoted "video_url" ++ lit ":" ++ [DQUOTE] ++ lit "https://v.cdn/x.mp4"
                 ++ [DQUOTE] ++ lit "," ++ quoted "display_url" ++ lit ":" ++ [DQUOTE]
                 ++ lit "https://i.cdn/y.jpg" ++ [DQUOTE] ++ lit ","
                 ++ quoted "taken_at_timestamp" ++ lit ":99999999999999999999") = Throw)
    by (vm_compute; reflexivity).
  split; [vm_compute; reflexivity|].
  split; [vm_compute; reflexivity|].
  split; [exact H|].
  intros url. unfold fetchContent, runStrategies. rewrite H. reflexivity.
Qed.

End HandlerClaims.

Lemma video_fallback_overrides_image_witness :
  let html := quoted "display_url" ++ lit ":" ++ [DQUOTE] ++ lit "https://i.cdn/y.jpg"
              ++ [DQUOTE] in
  let url := lit "https://www.instagram.com/reel/abc/" in
  let p := {| mediaUrl := Some (lit "https://v.cdn/x.mp4");
              thumbnailUrl := Some [];
              caption := [];
              author := JStr (lit "Unknown");
              mediaType := video;
              timestamp := TsNull |} in
  fetchContent (fun _ => NaN) (fun _ => None) (fun _ pd => pd) (fun _ _ pd => pd)
    (fun _ => None) (fun _ => Ok (Some p)) 1700000000000 url html
  = (Json200 {| mediaUrl := Some (lit "https://v.cdn/x.mp4");
                thumbnailUrl := Some [];
                caption := [];
                author := JStr (lit "Unknown");
                mediaType := video;
                timestamp := TsInstant 1700000000000 |},
     [CallPuppeteer url]).
Proof.
  cbv zeta.
  match goal with
  | |- fetchContent ?T ?JP ?jl ?sd ?mt ?pup ?now ?url ?html = _ =>
      destruct (fun r H2 H3 =>
                  video_fallback_overrides_image T JP jl sd mt pup now url html r
                    (or_introl eq_refl) H2 H3)
        with (r := {| mediaUrl := Some (lit "https://i.cdn/y.jpg");
                      thumbnailUrl := Some (lit "https://i.cdn/y.jpg");
                      caption := [];
                      author := JStr (lit "Unknown");
                      mediaType := image;
                      timestamp := TsNull |}) as [Hcall Hrep];
        [ vm_compute; reflexivity | reflexivity | ]
  end.
  apply injective_projections; cbn [fst snd].
  - rewrite (Hrep _ (lit "https://v.cdn/x.mp4") eq_refl eq_refl eq_refl
               ltac:(discriminate)).
    vm_compute. reflexivity.
  - exact Hcall.
Defined.

Lemma malformed_candidate_is_skipped_witness :
  let good := lit "{" ++ quoted "display_url" ++ lit ": " ++ [DQUOTE]
              ++ lit "https://i.cdn/y.jpg" ++ [DQUOTE] ++ lit "}" in
  let html := lit "<script>var plain = {a};</script>"
              ++ lit "<script>var video_url = {oops};</script>"
              ++ lit "<script>var a = {bad}; var b = " ++ good ++ lit ";</script>" in
  let data := JObj [(lit "display_url", JStr (lit "https://i.cdn/y.jpg"))] in
  let JP := fun s => if str_eqb s good then Some data else None in
  runStrategies (fun _ => NaN) JP (fun _ pd => pd) (fun _ _ pd => pd) (fun _ => None)
    (lit "https://www.instagram.com/p/abc/") html
  = Ok (Some {| mediaUrl := Some (lit "https://i.cdn/y.jpg");
                thumbnailUrl := Some (lit "https://i.cdn/y.jpg");
                caption := [];
                author := JStr (lit "Unknown");
                mediaType := image;
                timestamp := TsNull |}).
Proof.
  cbv zeta.
  match goal with
  | |- runStrategies ?T ?JP ?jl ?sd ?mt ?url ?html = Ok (Some ?r) =>
      refine (proj1 (proj2
        (proj1 (malformed_candidate_is_skipped T JP jl sd mt (fun _ => Throw) 0%Z url html
                  _)
           [lit "var plain = {a};"; lit "var video_url = {oops};"]
           (lit "var a = {bad}; var b = {" ++ quoted "display_url" ++ lit ": " ++ [DQUOTE]
            ++ lit "https://i.cdn/y.jpg" ++ [DQUOTE] ++ lit "};")
           []
           [lit "{bad}"]
           (lit "{" ++ quoted "display_url" ++ lit ": " ++ [DQUOTE]
            ++ lit "https://i.cdn/y.jpg" ++ [DQUOTE] ++ lit "}")
           []
           (JObj [(lit "display_url", JStr (lit "https://i.cdn/y.jpg"))])
           r _ _ _ _ _ _ _ _)))
  end; try (vm_compute; reflexivity).
  - constructor; [left; vm_compute; reflexivity|].
    constructor; [right; vm_compute; repeat constructor|constructor].
  - repeat constructor.
Defined.

(* ================================================================== *)
(** * Further properties of the code *)

(** ** URL and entity normalisation *)

(** X1. The result of [decodeUrlEntities] holds none of the entities the
    loop replaces, in any letter case: the loop only stops when a pass finds
    nothing to replace. *)
Theorem decodeUrlEntities_removes_every_entity (url : jsstring) :
  Forall (fun e => includes_ci (fst e) (decodeUrlEntities url) = false) urlEntityTable.
Proof.
  pose proof (decodeUrlPass_fixed_noHit _ (decodeUrlEntities_fixed url)) as F.
  pose proof urlEntityTable_shrinks as Hs.
  rewrite Forall_forall in *. intros e He.
  apply noHit_includes_ci; [|apply F; exact He].
  specialize (Hs e He). destruct e as [p r]. cbn [fst snd] in *. destruct p; [simpl in Hs; lia|discriminate].
Qed.

(** X2. [decodeUrlEntities] never gives a longer text, and gives the empty
    string only for the empty string. *)
Theorem decodeUrlEntities_never_longer (url : jsstring) :
  List.length (decodeUrlEntities url) <= List.length url /\
  truthy (decodeUrlEntities url) = truthy url.
Proof.
  split; [apply decodeUrlEntities_length|].
  destruct url as [|c t]; [reflexivity|].
  pose proof (decodeUrlEntities_nonempty (c :: t)) as H.
  destruct (decodeUrlEntities (c :: t)); [exfalso; apply H; [discriminate|reflexivity]|].
  reflexivity.
Qed.

(** X3. The [decodeUrl] of the page script changes no URL that
    [decodeUrlEntities] has produced: the four entities it replaces are
    among those the server has already removed. *)
Theorem client_decodeUrl_keeps_server_urls (url : jsstring) :
  Client.decodeUrl (decodeUrlEntities url) = decodeUrlEntities url.
Proof. apply client_decodeUrl_fixed, decodeUrlEntities_fixed. Qed.

(** X4. After [stripSizeConstraints] none of the ten parameters is left:
    the text holds neither [?key=] nor [&key=] for any of their keys. *)
Theorem stripSizeConstraints_removes_parameters (mediaUrl : jsstring) :
  Forall (fun key =>
            includes (QMARK :: key ++ lit "=") (stripSizeConstraints mediaUrl) = false /\
            includes (AMP :: key ++ lit "=") (stripSizeConstraints mediaUrl) = false)
         strippedKeys.
Proof.
  destruct (stripSizeConstraints_shape mediaUrl) as [_ F].
  rewrite removalPatterns_keys in F. apply Forall_app in F. destruct F as [F _].
  rewrite Forall_map in F. eapply Forall_impl; [|exact F].
  intros key H. split; apply noHit_queryParam_includes; try exact H; reflexivity.
Qed.

(** X5. After [stripSizeConstraints] the size-segment expression matches
    nowhere in the text. *)
Theorem stripSizeConstraints_removes_size_segments (mediaUrl : jsstring) (i : nat) :
  sizeSegment (skipn i (stripSizeConstraints mediaUrl)) = None.
Proof.
  destruct (stripSizeConstraints_shape mediaUrl) as [_ F].
  rewrite removalPatterns_keys in F. apply Forall_app in F. destruct F as [_ F].
  inversion F as [|? ? H _]; subst.
  pose proof (noHit_skipn sizeSegment i _ H) as Hi.
  destruct (skipn i (stripSizeConstraints mediaUrl)) as [|c t]; [reflexivity|].
  apply Hi.
Qed.

(** X6. In the result of [stripSizeConstraints] a [?] can only be the first
    character, no two separators are adjacent, and the result is not a lone
    [?]: the callback of the separator clean-up keeps a [?] at offset 0 of
    the text only. *)
Theorem stripSizeConstraints_separator_shape (mediaUrl : jsstring) :
  existsb (N.eqb QMARK) (tl (stripSizeConstraints mediaUrl)) = false /\
  adjacentSeps (stripSizeConstraints mediaUrl) = false /\
  str_eqb (stripSizeConstraints mediaUrl) [QMARK] = false.
Proof.
  destruct (stripSizeConstraints_shape mediaUrl) as [Hn _].
  split; [|split].
  - destruct (stripSizeConstraints mediaUrl) as [|c t]; [reflexivity|].
    apply normalSeps_rest_no_qmark. apply Hn.
  - revert Hn. generalize true as first.
    induction (stripSizeConstraints mediaUrl) as [|a s IH]; intros first Hn;
      [reflexivity|].
    destruct s as [|b s']; [reflexivity|].
    change (adjacentSeps (a :: b :: s'))
      with ((isSep a && isSep b) || adjacentSeps (b :: s')).
    destruct Hn as [Ha Hs]. rewrite (IH false Hs), orb_false_r.
    destruct (isSep a) eqn:Ea; [|reflexivity].
    destruct (Ha eq_refl) as [_ Hb]. simpl in Hb. rewrite Hb. reflexivity.
  - destruct (str_eqb (stripSizeConstraints mediaUrl) [QMARK]) eqn:E; [|reflexivity].
    apply str_eqb_eq in E. exfalso.
    pose proof (stripSizeConstraints_idem mediaUrl) as Hi. rewrite E in Hi.
    vm_compute in Hi. discriminate.
Qed.

(** X7. [stripSizeConstraints] never gives a longer text. *)
Theorem stripSizeConstraints_never_longer (mediaUrl : jsstring) :
  List.length (stripSizeConstraints mediaUrl) <= List.length mediaUrl.
Proof. apply stripSizeConstraints_length. Qed.

(** X8. [cleanUrl] is idempotent on every argument, whatever the number
    of [?] in it. *)
Theorem cleanUrl_idempotent (url : option jsstring) :
  cleanUrl (cleanUrl url) = cleanUrl url.
Proof. apply cleanUrl_idem. Qed.

(** X9. [cleanUrl] looks at the text between the first and the second [?]
    only: when that text is not empty, whatever follows a second [?] is
    dropped from the result. *)
Theorem cleanUrl_drops_after_second_qmark (base query rest : jsstring) :
  ~ In QMARK base -> ~ In QMARK query -> query <> [] ->
  cleanUrl (Some (base ++ QMARK :: query ++ QMARK :: rest)) =
  cleanUrl (Some (base ++ QMARK :: query)).
Proof.
  intros Hb Hq Hne.
  rewrite (cleanUrl_query base query Hb Hq Hne).
  pose proof (split_nonempty QMARK rest) as Hr.
  destruct (split QMARK rest) as [|r rs] eqn:Er; [congruence|].
  apply (cleanUrl_pieces _ base query (r :: rs)).
  - destruct base; discriminate.
  - rewrite split_app_sep by assumption. rewrite split_app_sep by assumption.
    rewrite Er. reflexivity.
  - exact Hne.
Qed.

Lemma cleanUrl_drops_after_second_qmark_witness :
  cleanUrl (Some (lit "https://cdn/v.mp4" ++ QMARK :: lit "a=1" ++ QMARK :: lit "b=2")) =
  cleanUrl (Some (lit "https://cdn/v.mp4" ++ QMARK :: lit "a=1")).
Proof.
  apply (cleanUrl_drops_after_second_qmark (lit "https://cdn/v.mp4") (lit "a=1")
           (lit "b=2")).
  - vm_compute. intuition discriminate.
  - vm_compute. intuition discriminate.
  - discriminate.
Defined.

(** X30. [decodeHtmlEntities] returns a text without [&] and without
    backslash as it is: every one of its patterns starts with one of the
    two. *)
Theorem decodeHtmlEntities_keeps_plain_text (text : jsstring) :
  plainText text = true -> decodeHtmlEntities text = text.
Proof. apply decodeHtmlEntities_plain. Qed.

Lemma decodeHtmlEntities_keeps_plain_text_witness :
  decodeHtmlEntities (lit "Sunset at the beach #nofilter ;-)") =
  lit "Sunset at the beach #nofilter ;-)".
Proof.
  apply (decodeHtmlEntities_keeps_plain_text (lit "Sunset at the beach #nofilter ;-)")).
  vm_compute. reflexivity.
Defined.

(** ** The muxer *)

(** X10. After any call of [mergeVideoAudio] the output file exists exactly
    when the promise resolved: a rejected merge never leaves a file that a
    later call would take for a cached result. *)
Theorem mergeVideoAudio_output_iff_resolved :
  forall (md5hex : jsstring -> jsstring) (TEMP_DIR : jsstring) (o : MuxOracle)
         (videoUrl audioUrl instagramUrl : jsstring) (fs : fsState),
    existsSync (outputPathOf md5hex TEMP_DIR instagramUrl)
      (snd (fst (mergeVideoAudio md5hex TEMP_DIR o videoUrl audioUrl instagramUrl fs)))
    = isOk (fst (fst (mergeVideoAudio md5hex TEMP_DIR o videoUrl audioUrl instagramUrl fs))).
Proof.
  intros md5hex TEMP_DIR o videoUrl audioUrl url fs.
  rewrite mergeVideoAudio_files, mergeVideoAudio_result.
  pose proof (str_eqb_neq _ _ (output_not_video md5hex TEMP_DIR url)) as EV.
  pose proof (str_eqb_neq _ _ (output_not_audio md5hex TEMP_DIR url)) as EA.
  destruct (existsSync (outputPathOf md5hex TEMP_DIR url) fs) eqn:EO; [reflexivity|].
  rewrite EV, EA, (str_eqb_sym (videoPathOf md5hex TEMP_DIR url)), EV,
    (str_eqb_sym (audioPathOf md5hex TEMP_DIR url)), EA, str_eqb_refl.
  destruct (downloadOk o videoUrl); [|reflexivity].
  destruct (downloadOk o audioUrl); [|reflexivity].
  destruct (ffmpegOk o); reflexivity.
Qed.

(** X11. Once a call for a post has resolved, every later call for the same
    post is served from the file: it resolves with the same path whatever
    the stream URLs and whatever the downloads would do, makes no call and
    changes no file. *)
Theorem mergeVideoAudio_then_cached :
  forall (md5hex : jsstring -> jsstring) (TEMP_DIR : jsstring) (o o' : MuxOracle)
         (videoUrl audioUrl videoUrl' audioUrl' instagramUrl : jsstring) (fs : fsState),
    isOk (fst (fst (mergeVideoAudio md5hex TEMP_DIR o videoUrl audioUrl instagramUrl fs)))
    = true ->
    let fs' :=
      snd (fst (mergeVideoAudio md5hex TEMP_DIR o videoUrl audioUrl instagramUrl fs)) in
    mergeVideoAudio md5hex TEMP_DIR o' videoUrl' audioUrl' instagramUrl fs'
    = (fst (fst (mergeVideoAudio md5hex TEMP_DIR o videoUrl audioUrl instagramUrl fs)),
       fs', []).
Proof.
  intros md5hex TEMP_DIR o o' videoUrl audioUrl videoUrl' audioUrl' url fs H fs'.
  assert (E : existsSync (outputPathOf md5hex TEMP_DIR url) fs' = true).
  { unfold fs'. rewrite mergeVideoAudio_files.
    rewrite mergeVideoAudio_result in H.
    pose proof (str_eqb_neq _ _ (output_not_video md5hex TEMP_DIR url)) as EV.
    pose proof (str_eqb_neq _ _ (output_not_audio md5hex TEMP_DIR url)) as EA.
    destruct (existsSync (outputPathOf md5hex TEMP_DIR url) fs) eqn:EO; [reflexivity|].
    rewrite (str_eqb_sym (videoPathOf md5hex TEMP_DIR url)), EV,
      (str_eqb_sym (audioPathOf md5hex TEMP_DIR url)), EA, str_eqb_refl.
    destruct (downloadOk o videoUrl); [|discriminate].
    destruct (downloadOk o audioUrl); [|discriminate].
    destruct (ffmpegOk o); [|discriminate].
    rewrite orb_true_r. reflexivity. }
  rewrite mergeVideoAudio_result in *.
  destruct (existsSync (outputPathOf md5hex TEMP_DIR url) fs
            || downloadOk o videoUrl && downloadOk o audioUrl && ffmpegOk o);
    [|discriminate].
  unfold mergeVideoAudio at 1. rewrite E. reflexivity.
Qed.

Lemma mergeVideoAudio_then_cached_witness :
  mergeVideoAudio (fun _ => lit "0cc175b9") (lit "/app/temp")
    {| downloadOk := fun _ => false; ffmpegOk := false; ffmpegLeavesOutput := true |}
    (lit "https://cdn/other.mp4") (lit "https://cdn/other-audio.mp4")
    (lit "https://www.instagram.com/reel/abc/")
    [lit "/app/temp/0cc175b9_merged.mp4"]
  = (Ok (lit "/app/temp/0cc175b9_merged.mp4"), [lit "/app/temp/0cc175b9_merged.mp4"], []).
Proof.
  exact (mergeVideoAudio_then_cached (fun _ => lit "0cc175b9") (lit "/app/temp")
           {| downloadOk := fun _ => true; ffmpegOk := true; ffmpegLeavesOutput := false |}
           {| downloadOk := fun _ => false; ffmpegOk := false; ffmpegLeavesOutput := true |}
           (lit "https://cdn/v.mp4") (lit "https://cdn/a.mp4")
           (lit "https://cdn/other.mp4") (lit "https://cdn/other-audio.mp4")
           (lit "https://www.instagram.com/reel/abc/") [] eq_refl).
Defined.

(** X12. Whatever the outcome, [mergeVideoAudio] creates and deletes no
    file other than the video, audio and output files of the post. *)
Theorem mergeVideoAudio_touches_only_its_files :
  forall (md5hex : jsstring -> jsstring) (TEMP_DIR : jsstring) (o : MuxOracle)
         (videoUrl audioUrl instagramUrl : jsstring) (fs : fsState) (path : jsstring),
    path <> videoPathOf md5hex TEMP_DIR instagramUrl ->
    path <> audioPathOf md5hex TEMP_DIR instagramUrl ->
    path <> outputPathOf md5hex TEMP_DIR instagramUrl ->
    existsSync path
      (snd (fst (mergeVideoAudio md5hex TEMP_DIR o videoUrl audioUrl instagramUrl fs)))
    = existsSync path fs.
Proof.
  intros md5hex TEMP_DIR o videoUrl audioUrl url fs p HV HA HO.
  rewrite mergeVideoAudio_files.
  rewrite (str_eqb_neq _ _ HV), (str_eqb_neq _ _ HA), (str_eqb_neq _ _ HO).
  rewrite (str_eqb_sym _ p), (str_eqb_neq _ _ HV).
  rewrite (str_eqb_sym _ p), (str_eqb_neq _ _ HA).
  rewrite (str_eqb_sym _ p), (str_eqb_neq _ _ HO).
  cbn [negb]. rewrite !orb_false_r, !andb_true_r.
  repeat match goal with |- context [if ?b then _ else _] => destruct b end; reflexivity.
Qed.

Lemma mergeVideoAudio_touches_only_its_files_witness :
  existsSync (lit "/app/temp/ffff_merged.mp4")
    (snd (fst (mergeVideoAudio (fun _ => lit "0cc175b9") (lit "/app/temp")
                 {| downloadOk := fun _ => true; ffmpegOk := false;
                    ffmpegLeavesOutput := true |}
                 (lit "https://cdn/v.mp4") (lit "https://cdn/a.mp4")
                 (lit "https://www.instagram.com/reel/abc/")
                 [lit "/app/temp/ffff_merged.mp4"])))
  = existsSync (lit "/app/temp/ffff_merged.mp4") [lit "/app/temp/ffff_merged.mp4"].
Proof.
  apply (mergeVideoAudio_touches_only_its_files (fun _ => lit "0cc175b9")
           (lit "/app/temp")); vm_compute; discriminate.
Defined.

(** X13. ffmpeg is started at most once in a call, and exactly when the
    output file was not there and both downloads completed; its arguments
    are the three paths of the post. *)
Theorem mergeVideoAudio_runs_ffmpeg_after_downloads :
  forall (md5hex : jsstring -> jsstring) (TEMP_DIR : jsstring) (o : MuxOracle)
         (videoUrl audioUrl instagramUrl : jsstring) (fs : fsState),
    filter isRunFfmpeg
      (snd (mergeVideoAudio md5hex TEMP_DIR o videoUrl audioUrl instagramUrl fs)) =
    if negb (existsSync (outputPathOf md5hex TEMP_DIR instagramUrl) fs)
       && downloadOk o videoUrl && downloadOk o audioUrl
    then [RunFfmpeg (videoPathOf md5hex TEMP_DIR instagramUrl)
                    (audioPathOf md5hex TEMP_DIR instagramUrl)
                    (outputPathOf md5hex TEMP_DIR instagramUrl)]
    else [].
Proof. intros. apply mergeVideoAudio_ffmpeg_runs. Qed.

(** ** The browser fallback *)

(** X14. Which responses the listener keeps as video and as audio streams
    depends on their URLs only: a response is kept when its URL contains
    [.mp4], whatever its content type, as audio when the URL has one of the
    audio markers and as video otherwise, in the order of arrival. *)
Theorem classify_depends_on_urls_only (rs : list (jsstring * jsstring)) :
  fst (fst (classify rs [] [] None)) =
    filter (fun u => includes (lit ".mp4") u && negb (hasAudioMarker u)) (map fst rs) /\
  snd (fst (classify rs [] [] None)) =
    filter (fun u => includes (lit ".mp4") u && hasAudioMarker u) (map fst rs).
Proof. exact (classify_streams rs [] [] None). Qed.

(** X15. [bestVideoUrl] returns one of the captured URLs, and nothing only
    when none was captured. *)
Theorem bestVideoUrl_returns_member (videoUrls : list jsstring) :
  match bestVideoUrl videoUrls with
  | Some u => In u videoUrls
  | None => videoUrls = []
  end.
Proof. apply bestVideoUrl_member. Qed.

(** X16. The quality tokens are tried from [q90] down: the result is the
    first captured URL that contains the first token, in that order, that
    any captured URL contains. *)
Theorem bestVideoUrl_prefers_quality
        (pre post : list jsstring) (quality : jsstring)
        (videoUrls : list jsstring) (u : jsstring) :
  qualityOrder = pre ++ quality :: post ->
  Forall (fun q => find (includes q) videoUrls = None) pre ->
  find (includes quality) videoUrls = Some u ->
  bestVideoUrl videoUrls = Some u.
Proof.
  intros Ho Hpre Hq. unfold bestVideoUrl. rewrite Ho.
  rewrite (bestByQuality_first pre quality post videoUrls u Hpre Hq). reflexivity.
Qed.

Lemma bestVideoUrl_prefers_quality_witness :
  bestVideoUrl [lit "https://cdn/a_q60.mp4"; lit "https://cdn/b_q80.mp4";
                lit "https://cdn/c_q80.mp4"]
  = Some (lit "https://cdn/b_q80.mp4").
Proof.
  apply (bestVideoUrl_prefers_quality [lit "q90"]
           [lit "q70"; lit "q60"; lit "q50"; lit "q40"] (lit "q80")).
  - reflexivity.
  - repeat constructor.
  - reflexivity.
Defined.

(** X17. Every record that [extractWithPuppeteer] returns is a video with a
    media URL that is not empty and without a timestamp: the test the
    handler puts on the record always accepts it. *)
Theorem extractWithPuppeteer_records_are_videos :
  forall (md5hex : jsstring -> jsstring) (TEMP_DIR BASE_URL : jsstring)
         (env : BrowserEnv) (url : jsstring) (fs : fsState) (r : MediaRecord),
    fst (fst (fst (extractWithPuppeteer md5hex TEMP_DIR BASE_URL env url fs)))
    = Ok (Some r) ->
    mediaType r = video /\ hasMediaUrl (Some r) = true /\ timestamp r = TsNull.
Proof.
  intros md5hex TEMP_DIR BASE_URL env url fs r.
  unfold extractWithPuppeteer.
  destruct (resolves env Launch); cbn [negb]; [|discriminate].
  destruct (forallb (resolves env) pageSteps).
  2:{ destruct (closeBrowser env _); discriminate. }
  destruct (closeBrowser env _) as [b closed]. destruct closed.
  2:{ destruct (closeBrowser env b); discriminate. }
  unfold afterClose.
  pose proof (classify_streams (responses env) [] [] None) as [Hv _].
  destruct (classify (responses env) [] [] None) as [[videoUrls audioUrls] thumb].
  cbn [fst snd app] in Hv.
  pose proof (bestVideoUrl_member videoUrls) as Hb.
  destruct (bestVideoUrl videoUrls) as [best|]; [|discriminate].
  assert (Hne : cleanUrlStr best <> []).
  { apply cleanUrlStr_nonempty. rewrite Hv in Hb. apply filter_In in Hb.
    destruct Hb as [_ Hb]. apply andb_prop in Hb. destruct Hb as [Hb _].
    apply (includes_nonempty (lit ".mp4")); [discriminate|exact Hb]. }
  assert (Hrec : forall u, u <> [] ->
            mediaType (videoRecord env u thumb) = video /\
            hasMediaUrl (Some (videoRecord env u thumb)) = true /\
            timestamp (videoRecord env u thumb) = TsNull).
  { intros u Hu. repeat split. simpl. destruct u; [congruence|reflexivity]. }
  destruct audioUrls as [|audio0 audios].
  - cbn [fst]. intros H. injection H as <-. apply Hrec. exact Hne.
  - destruct (mergeVideoAudio md5hex TEMP_DIR (muxOracle env) (cleanUrlStr best)
                (cleanUrlStr audio0) url fs) as [[[p|] fs'] ev];
      cbn [fst]; intros H; injection H as <-; apply Hrec; [|exact Hne].
    destruct BASE_URL; discriminate.
Qed.

Lemma extractWithPuppeteer_records_are_videos_witness :
  mediaType (videoRecord
               {| resolves := fun _ => true; closeResolves := fun _ => true;
                  responses := [(lit "https://cdn/v.mp4?bytestart=0", lit "video/mp4")];
                  metadataCaption := lit "hi"; metadataAuthor := lit "me";
                  muxOracle := {| downloadOk := fun _ => true; ffmpegOk := true;
                                  ffmpegLeavesOutput := false |} |}
               (lit "https://cdn/v.mp4?") None) = video.
Proof.
  exact (proj1 (extractWithPuppeteer_records_are_videos
                  (fun _ => lit "0cc175b9") (lit "/app/temp") (lit "http://localhost:3000")
                  {| resolves := fun _ => true; closeResolves := fun _ => true;
                     responses := [(lit "https://cdn/v.mp4?bytestart=0", lit "video/mp4")];
                     metadataCaption := lit "hi"; metadataAuthor := lit "me";
                     muxOracle := {| downloadOk := fun _ => true; ffmpegOk := true;
                                     ffmpegLeavesOutput := false |} |}
                  (lit "https://www.instagram.com/reel/abc/") [] _ eq_refl)).
Defined.

(** X18. The muxer is only reached after the browser has been closed
    without an exception and an audio stream has been captured: when
    [extractWithPuppeteer] throws, or when no response was kept as audio, no
    file is touched and nothing is downloaded. *)
Theorem extractWithPuppeteer_muxer_needs_audio :
  forall (md5hex : jsstring -> jsstring) (TEMP_DIR BASE_URL : jsstring)
         (env : BrowserEnv) (url : jsstring) (fs : fsState),
    fst (fst (fst (extractWithPuppeteer md5hex TEMP_DIR BASE_URL env url fs))) = Throw \/
    snd (fst (classify (responses env) [] [] None)) = [] ->
    snd (fst (extractWithPuppeteer md5hex TEMP_DIR BASE_URL env url fs)) = fs /\
    snd (extractWithPuppeteer md5hex TEMP_DIR BASE_URL env url fs) = [].
Proof.
  intros md5hex TEMP_DIR BASE_URL env url fs.
  unfold extractWithPuppeteer.
  destruct (resolves env Launch); cbn [negb]; [|split; reflexivity].
  destruct (forallb (resolves env) pageSteps).
  2:{ destruct (closeBrowser env _); split; reflexivity. }
  destruct (closeBrowser env _) as [b closed]. destruct closed.
  2:{ destruct (closeBrowser env b); split; reflexivity. }
  unfold afterClose.
  destruct (classify (responses env) [] [] None) as [[videoUrls audioUrls] thumb].
  cbn [fst snd].
  destruct (bestVideoUrl videoUrls) as [best|]; [|split; reflexivity].
  destruct audioUrls as [|audio0 audios]; [split; reflexivity|].
  destruct (mergeVideoAudio md5hex TEMP_DIR (muxOracle env) (cleanUrlStr best)
              (cleanUrlStr audio0) url fs) as [[[p|] fs'] ev];
    cbn [fst snd]; intros [H|H]; discriminate.
Qed.

Lemma extractWithPuppeteer_muxer_needs_audio_witness :
  snd (fst (extractWithPuppeteer (fun _ => lit "0cc175b9") (lit "/app/temp")
              (lit "http://localhost:3000")
              {| resolves := fun _ => true; closeResolves := fun _ => true;
                 responses := [(lit "https://cdn/v.mp4", lit "video/mp4")];
                 metadataCaption := lit "hi"; metadataAuthor := lit "me";
                 muxOracle := {| downloadOk := fun _ => true; ffmpegOk := true;
                                 ffmpegLeavesOutput := false |} |}
              (lit "https://www.instagram.com/reel/abc/") [])) = [].
Proof.
  refine (proj1 (extractWithPuppeteer_muxer_needs_audio
                   (fun _ => lit "0cc175b9") (lit "/app/temp") (lit "http://localhost:3000")
                   {| resolves := fun _ => true; closeResolves := fun _ => true;
                      responses := [(lit "https://cdn/v.mp4", lit "video/mp4")];
                      metadataCaption := lit "hi"; metadataAuthor := lit "me";
                      muxOracle := {| downloadOk := fun _ => true; ffmpegOk := true;
                                      ffmpegLeavesOutput := false |} |}
                   (lit "https://www.instagram.com/reel/abc/") [] _)).
  right. vm_compute. reflexivity.
Defined.

(** ** The URL tests *)

(** X19. The page script and the handler accept the same addresses: the
    three expressions of [isValidInstagramUrl] together match exactly what
    the one expression of the handler matches. *)
Theorem client_and_server_accept_same_urls (url : jsstring) :
  ClientUrl.isValidInstagramUrl url = instagramUrlPattern url.
Proof. apply instagramUrl_tests_agree. Qed.

(** X20. Every address that the handler accepts has a shortcode for
    [parseSharedData]: its expression for the shortcode matches, with a
    text that is not empty. *)
Theorem accepted_url_has_shortcode (url : jsstring) :
  instagramUrlPattern url = true ->
  exists code, shortcodeOf url = Some code /\ code <> [].
Proof.
  intros H. destruct (accepted_has_shortcode url H) as [code Hc].
  exists code. split; [exact Hc|]. exact (shortcodeOf_nonempty url code Hc).
Qed.

Lemma accepted_url_has_shortcode_witness :
  exists code,
    shortcodeOf (lit "https://www.instagram.com/reel/Cx1-_b/?igsh=1") = Some code /\
    code <> [].
Proof.
  apply (accepted_url_has_shortcode (lit "https://www.instagram.com/reel/Cx1-_b/?igsh=1")).
  vm_compute. reflexivity.
Defined.

(** ** Image addresses are normalised by every strategy *)

(** X21. A record that the inline scan returns has a media URL that is not
    empty, and when it is an image that URL has been through
    [stripSizeConstraints]: stripping it again changes nothing. *)
Theorem inlineFieldScan_image_urls_are_stripped (html : jsstring) (r : MediaRecord) :
  inlineFieldScan html = Ok (Some r) ->
  hasMediaUrl (Some r) = true /\
  (mediaType r = image ->
   forall u, mediaUrl r = Some u -> stripSizeConstraints u = u).
Proof.
  intros H. destruct (inlineFieldScan_some html r H) as [Hu Hs].
  split; [exact Hu|]. intros Hi u Hm. destruct (Hs Hi) as [x Hx].
  rewrite Hx in Hm. injection Hm as <-. apply stripSizeConstraints_idem.
Qed.

Lemma inlineFieldScan_image_urls_are_stripped_witness :
  hasMediaUrl
    (Some {| mediaUrl := Some (lit "https://x.cdn/a.jpg");
             thumbnailUrl := Some (lit "https://x.cdn/a.jpg?stp=1");
             caption := [];
             author := JStr (lit "Unknown");
             mediaType := image;
             timestamp := TsNull |}) = true.
Proof.
  refine (proj1 (inlineFieldScan_image_urls_are_stripped
                   (quoted "display_url" ++ lit ":" ++ quoted "https://x.cdn/a.jpg?stp=1")
                   {| mediaUrl := Some (lit "https://x.cdn/a.jpg");
                      thumbnailUrl := Some (lit "https://x.cdn/a.jpg?stp=1");
                      caption := [];
                      author := JStr (lit "Unknown");
                      mediaType := image;
                      timestamp := TsNull |} _)).
  vm_compute. reflexivity.
Defined.

(** X22. An image record found by the search in the parsed JSON, at any
    depth, has a media URL that [stripSizeConstraints] leaves unchanged. *)
Theorem extractFromRequireData_image_urls_are_stripped
        (ToNumberOther : json -> number) (data : json) (r : MediaRecord) :
  extractFromRequireData ToNumberOther data = Some r ->
  mediaType r = image ->
  forall u, mediaUrl r = Some u -> stripSizeConstraints u = u.
Proof.
  unfold extractFromRequireData, try_catch.
  destruct (findMediaData ToNumberOther 11 data) as [[r'|]|] eqn:E; try discriminate.
  intros H. injection H as <-. exact (findMediaData_stripped _ _ _ _ E).
Qed.

Lemma extractFromRequireData_image_urls_are_stripped_witness :
  stripSizeConstraints (lit "https://x.cdn/a.jpg") = lit "https://x.cdn/a.jpg".
Proof.
  apply (extractFromRequireData_image_urls_are_stripped (fun _ => NaN)
           (JObj [(lit "items",
                   JArr [JObj [(lit "display_url",
                                JStr (lit "https://x.cdn/a.jpg?stp=1&amp;efg=2"))]])])
           {| mediaUrl := Some (lit "https://x.cdn/a.jpg");
              thumbnailUrl := Some (lit "https://x.cdn/a.jpg?stp=1&efg=2");
              caption := [];
              author := JStr (lit "Unknown");
              mediaType := image;
              timestamp := TsNull |}).
  - vm_compute. reflexivity.
  - reflexivity.
  - reflexivity.
Defined.

(** X23. The same holds for [parseSharedData]: the media URL of an image
    record is a fixed point of [stripSizeConstraints]. *)
Theorem parseSharedData_image_urls_are_stripped
        (ToNumberOther : json -> number) (sharedData : json) (url : jsstring)
        (r : MediaRecord) :
  parseSharedData ToNumberOther sharedData url = Some r ->
  mediaType r = image ->
  forall u, mediaUrl r = Some u -> stripSizeConstraints u = u.
Proof.
  unfold parseSharedData, try_catch.
  destruct (sharedDataBody ToNumberOther sharedData url) as [[r'|]|] eqn:E;
    try discriminate.
  intros H. injection H as <-. exact (sharedDataBody_image _ _ _ _ E).
Qed.

Lemma parseSharedData_image_urls_are_stripped_witness :
  stripSizeConstraints (lit "https://x.cdn/a.jpg") = lit "https://x.cdn/a.jpg".
Proof.
  apply (parseSharedData_image_urls_are_stripped (fun _ => NaN)
           (JObj [(lit "entry_data",
                   JObj [(lit "PostPage",
                          JArr [JObj [(lit "graphql",
                                       JObj [(lit "shortcode_media",
                                              JObj [(lit "display_url",
                                                     JStr (lit "https://x.cdn/a.jpg?ccb=7"))])])]])])])
           (lit "https://www.instagram.com/p/abc/")
           {| mediaUrl := Some (lit "https://x.cdn/a.jpg");
              thumbnailUrl := Some (lit "https://x.cdn/a.jpg?ccb=7");
              caption := [];
              author := JStr (lit "Unknown");
              mediaType := image;
              timestamp := TsNull |}).
  - vm_compute. reflexivity.
  - reflexivity.
  - reflexivity.
Defined.

(** X24. And for [parseJsonLd]: without a [video] field the record is an
    image and its media URL is a fixed point of [stripSizeConstraints]. *)
Theorem parseJsonLd_image_urls_are_stripped (jsonLd : json) (r : JsonLdRecord) :
  parseJsonLd jsonLd = Ok (Some r) ->
  ld_mediaType r = image ->
  forall u, ld_mediaUrl r = Some u -> stripSizeConstraints u = u.
Proof. apply parseJsonLd_image. Qed.

Lemma parseJsonLd_image_urls_are_stripped_witness :
  stripSizeConstraints (lit "https://x.cdn/a.jpg") = lit "https://x.cdn/a.jpg".
Proof.
  apply (parseJsonLd_image_urls_are_stripped
           (JObj [(lit "image", JStr (lit "https://x.cdn/a.jpg?_nc_cat=1"));
                  (lit "uploadDate", JStr (lit "2024-01-01"))])
           {| ld_mediaUrl := Some (lit "https://x.cdn/a.jpg");
              ld_thumbnailUrl := Some (lit "https://x.cdn/a.jpg");
              ld_caption := [];
              ld_author := JStr (lit "Unknown");
              ld_mediaType := image;
              ld_timestamp := JStr (lit "2024-01-01") |}).
  - vm_compute. reflexivity.
  - reflexivity.
  - reflexivity.
Defined.

(** ** The search in the parsed JSON *)

(** X25. The depth limit of [findMediaData]: a node with a media field is
    found under at most ten levels of objects, and then the result is what
    the node gives; under eleven levels or more the search returns [null]. *)
Theorem extractFromRequireData_depth_limit
        (ToNumberOther : json -> number) (node : json) (n : nat) :
  hasMediaField node = true ->
  extractFromRequireData ToNumberOther (nested n node) =
  if n <=? 10
  then try_catch (let* r := mediaOfNode ToNumberOther node in Ok (Some r)) None
  else None.
Proof.
  intros Hm. unfold extractFromRequireData.
  rewrite (findMediaData_nested ToNumberOther node Hm n 11).
  change (n <? 11) with (n <=? 10). destruct (n <=? 10); reflexivity.
Qed.

Lemma extractFromRequireData_depth_limit_witness :
  extractFromRequireData (fun _ => NaN)
    (nested 11 (JObj [(lit "video_url", JStr (lit "https://x.cdn/v.mp4"))])) = None.
Proof.
  exact (extractFromRequireData_depth_limit (fun _ => NaN)
           (JObj [(lit "video_url", JStr (lit "https://x.cdn/v.mp4"))]) 11 eq_refl).
Defined.

(** ** The handler *)

(** X26. A 200 response always carries a media URL that is not empty and
    fully decoded, which the page script will display unchanged, and the
    time of the response as its timestamp, whatever the strategies found. *)
Theorem fetchContent_success_body :
  forall (T : json -> number) (JP : jsstring -> option json)
         (jsonLd : jsstring -> option MediaRecord -> option MediaRecord)
         (sharedData : jsstring -> jsstring -> option MediaRecord -> option MediaRecord)
         (metaTags : jsstring -> option MediaRecord)
         (pup : jsstring -> res (option MediaRecord)) (now : Z)
         (url html : jsstring) (body : MediaRecord),
    fst (fetchContent T JP jsonLd sharedData metaTags pup now url html) = Json200 body ->
    exists u,
      mediaUrl body = Some u /\ truthy u = true /\
      decodeUrlEntities u = u /\ Client.decodeUrl u = u /\
      timestamp body = TsInstant now.
Proof.
  intros T JP jsonLd sharedData metaTags pup now url html body.
  unfold fetchContent.
  destruct (runStrategies T JP jsonLd sharedData metaTags url html) as [postData|];
    [|discriminate].
  destruct (videoFallback pup url postData) as [pd ev]. cbn [fst].
  unfold respond. destruct pd as [r|]; [|discriminate].
  destruct (hasMediaUrl (Some r)) eqn:Hu; [|discriminate].
  intros H. injection H as <-. cbn [mediaUrl timestamp].
  unfold hasMediaUrl in Hu. destruct (mediaUrl r) as [u0|]; [|discriminate].
  exists (decodeUrlEntities u0). cbn [option_map]. split; [reflexivity|].
  split.
  - assert (Hne : u0 <> []) by (intros ->; discriminate).
    pose proof (decodeUrlEntities_nonempty u0 Hne) as Hd.
    destruct (decodeUrlEntities u0); [congruence|reflexivity].
  - split; [apply decodeUrlEntities_idem|].
    split; [apply client_decodeUrl_fixed, decodeUrlEntities_fixed|reflexivity].
Qed.

Lemma fetchContent_success_body_witness :
  exists u,
    Some (lit "https://x.cdn/a.jpg") = Some u /\ truthy u = true /\
    decodeUrlEntities u = u /\ Client.decodeUrl u = u /\
    TsInstant 1700000000000 = TsInstant 1700000000000.
Proof.
  exact (fetchContent_success_body (fun _ => NaN) (fun _ => None) (fun _ p => p)
           (fun _ _ p => p) (fun _ => None) (fun _ => Throw) 1700000000000
           (lit "https://www.instagram.com/p/abc/")
           (quoted "display_url" ++ lit ":" ++ quoted "https://x.cdn/a.jpg?stp=1")
           {| mediaUrl := Some (lit "https://x.cdn/a.jpg");
              thumbnailUrl := Some (lit "https://x.cdn/a.jpg?stp=1");
              caption := [];
              author := JStr (lit "Unknown");
              mediaType := image;
              timestamp := TsInstant 1700000000000 |} eq_refl).
Defined.


(** X28. What the inline scan returns is final for the strategies: when it
    gives a record, the result of the cascade is that record whatever the
    page holds for the later strategies and whatever they would answer. *)
Theorem inlineFieldScan_result_is_final :
  forall (html : jsstring) (r : MediaRecord),
    inlineFieldScan html = Ok (Some r) ->
    forall (T : json -> number) (JP : jsstring -> option json)
           (jsonLd : jsstring -> option MediaRecord -> option MediaRecord)
           (sharedData : jsstring -> jsstring -> option MediaRecord -> option MediaRecord)
           (metaTags : jsstring -> option MediaRecord) (url : jsstring),
      runStrategies T JP jsonLd sharedData metaTags url html = Ok (Some r).
Proof.
  intros html r H T JP jsonLd sharedData metaTags url.
  destruct (inlineFieldScan_some html r H) as [Hu _].
  unfold runStrategies. rewrite H. cbn [bind]. repeat rewrite Hu. reflexivity.
Qed.

Lemma inlineFieldScan_result_is_final_witness :
  runStrategies (fun _ => NaN) (fun _ => Some JNull) (fun _ _ => None)
    (fun _ _ _ => None) (fun _ => None) (lit "https://www.instagram.com/p/abc/")
    (quoted "display_url" ++ lit ":" ++ quoted "https://x.cdn/a.jpg?stp=1")
  = Ok (Some {| mediaUrl := Some (lit "https://x.cdn/a.jpg");
                thumbnailUrl := Some (lit "https://x.cdn/a.jpg?stp=1");
                caption := [];
                author := JStr (lit "Unknown");
                mediaType := image;
                timestamp := TsNull |}).
Proof.
  apply (inlineFieldScan_result_is_final
           (quoted "display_url" ++ lit ":" ++ quoted "https://x.cdn/a.jpg?stp=1")).
  vm_compute. reflexivity.
Defined.

(** X29. An exception of the browser fallback is caught: the response and
    the calls are those of a fallback that found nothing. *)
Theorem fetchContent_survives_browser_failure :
  forall (T : json -> number) (JP : jsstring -> option json)
         (jsonLd : jsstring -> option MediaRecord -> option MediaRecord)
         (sharedData : jsstring -> jsstring -> option MediaRecord -> option MediaRecord)
         (metaTags : jsstring -> option MediaRecord)
         (pup : jsstring -> res (option MediaRecord)) (now : Z)
         (url html : jsstring),
    pup url = Throw ->
    fetchContent T JP jsonLd sharedData metaTags pup now url html
    = fetchContent T JP jsonLd sharedData metaTags (fun _ => Ok None) now url html.
Proof.
  intros T JP jsonLd sharedData metaTags pup now url html Hp. unfold fetchContent.
  destruct (runStrategies T JP jsonLd sharedData metaTags url html) as [postData|];
    [|reflexivity].
  unfold videoFallback. rewrite Hp. reflexivity.
Qed.

Lemma fetchContent_survives_browser_failure_witness :
  fetchContent (fun _ => NaN) (fun _ => None) (fun _ p => p) (fun _ _ p => p)
    (fun _ => None) (fun _ => Throw) 1700000000000
    (lit "https://www.instagram.com/reel/abc/")
    (quoted "display_url" ++ lit ":" ++ quoted "https://x.cdn/a.jpg")
  = fetchContent (fun _ => NaN) (fun _ => None) (fun _ p => p) (fun _ _ p => p)
      (fun _ => None) (fun _ => Ok None) 1700000000000
      (lit "https://www.instagram.com/reel/abc/")
      (quoted "display_url" ++ lit ":" ++ quoted "https://x.cdn/a.jpg").
Proof.
  exact (fetchContent_survives_browser_failure (fun _ => NaN) (fun _ => None)
           (fun _ p => p) (fun _ _ p => p) (fun _ => None) (fun _ => Throw)
           1700000000000 (lit "https://www.instagram.com/reel/abc/")
           (quoted "display_url" ++ lit ":" ++ quoted "https://x.cdn/a.jpg") eq_refl).
Defined.
